(** * Trust-aware routing core of the 6G MANET simulation

    A shallow embedding of [scratch/sixg-wigig-sim.cc]: the link ledger
    ([BlockchainLedger]), the topology builder and path solver
    ([RoutingEngine]), the three trace callbacks that feed the ledger, the
    heartbeat that installs the routes, and the choice of the malicious
    nodes and of the flows in [main].

    ** Numbers

    The C++ code computes on [double].  The program below is written once
    against an interface [Arith] that lists the constants and operations
    the source uses, and is then read at two instances:

    - [binary64]: IEEE-754 double precision, through Rocq's primitive
      floats.  This is what the compiled program computes; the properties
      of trust, whose values are 1.0, 0.5 and 0.3 only, are proved at this
      instance by computation.
    - [exact s]: rationals extended with the two infinities and a
      not-a-number, without rounding and without overflow ([s] is the
      square root, left open).  Properties that are statements of real
      arithmetic (the moving average, path costs) are proved here, or for
      any arithmetic that satisfies the order laws [CostLaws].

    Identifiers are [uint32_t] in the source and [N] here; counters wrap
    around as the C++ types do. *)

From Stdlib Require Import ZArith NArith QArith Qround Lqa Floats Uint63 Ascii String List Bool Lia.
From stdpp Require Import gmap sorting.

Local Open Scope N_scope.
Set Warnings "-inexact-float,-clear-no-such-hyp".

(** ** The arithmetic interface *)

Class Arith (D : Type) := {
  d0 : D;            (* 0.0 *)
  d0_3 : D;          (* 0.3 *)
  d0_5 : D;          (* 0.5 *)
  d1 : D;            (* 1.0 *)
  d5 : D;            (* 5.0 *)
  d10 : D;           (* 10.0 *)
  d20 : D;           (* 20.0 *)
  d500 : D;          (* 500.0 *)
  dinf : D;          (* std::numeric_limits<double>::infinity() *)
  dadd : D → D → D;
  dsub : D → D → D;
  dmul : D → D → D;
  ddiv : D → D → D;
  dsqrt : D → D;     (* std::sqrt *)
  dltb : D → D → bool;   (* x < y *)
  dleb : D → D → bool;   (* x <= y *)
  deqb : D → D → bool;   (* x == y *)
  d_of_u32 : N → D   (* static_cast<double>(uint32_t) *)
}.

(** [std::max(a, b)] is [(a < b) ? b : a]. *)
Definition dmax {D} {Ar : Arith D} (a b : D) : D := if dltb a b then b else a.

(** *** IEEE-754 binary64 *)

#[export] Instance binary64 : Arith float := {|
  d0 := 0%float;
  d0_3 := 0.3%float;
  d0_5 := 0.5%float;
  d1 := 1%float;
  d5 := 5%float;
  d10 := 10%float;
  d20 := 20%float;
  d500 := 500%float;
  dinf := infinity;
  dadd := PrimFloat.add;
  dsub := PrimFloat.sub;
  dmul := PrimFloat.mul;
  ddiv := PrimFloat.div;
  dsqrt := PrimFloat.sqrt;
  dltb := PrimFloat.ltb;
  dleb := PrimFloat.leb;
  deqb := PrimFloat.eqb;
  d_of_u32 := fun n => PrimFloat.of_uint63 (Uint63.of_Z (Z.of_N n))
|}.

(** *** Exact extended rationals *)

Inductive xq : Type :=
  | XFin (q : Q)
  | XPInf
  | XNInf
  | XNaN.

Definition xq_add (x y : xq) : xq :=
  match x, y with
  | XNaN, _ | _, XNaN => XNaN
  | XPInf, XNInf | XNInf, XPInf => XNaN
  | XPInf, _ | _, XPInf => XPInf
  | XNInf, _ | _, XNInf => XNInf
  | XFin a, XFin b => XFin (Qred (a + b))
  end.

Definition xq_opp (x : xq) : xq :=
  match x with
  | XFin a => XFin (Qred (- a))
  | XPInf => XNInf
  | XNInf => XPInf
  | XNaN => XNaN
  end.

Definition xq_sub (x y : xq) : xq := xq_add x (xq_opp y).

(** Sign of an extended rational: [Lt] negative, [Eq] zero, [Gt] positive. *)
Definition xq_sign (x : xq) : option comparison :=
  match x with
  | XFin a => Some (Qcompare a 0)
  | XPInf => Some Gt
  | XNInf => Some Lt
  | XNaN => None
  end.

Definition xq_signed_inf (s1 s2 : comparison) : xq :=
  match s1, s2 with
  | Eq, _ | _, Eq => XNaN
  | Gt, Gt | Lt, Lt => XPInf
  | _, _ => XNInf
  end.

Definition xq_mul (x y : xq) : xq :=
  match x, y with
  | XFin a, XFin b => XFin (Qred (a * b))
  | _, _ =>
      match xq_sign x, xq_sign y with
      | Some s1, Some s2 => xq_signed_inf s1 s2
      | _, _ => XNaN
      end
  end.

Definition xq_div (x y : xq) : xq :=
  match x, y with
  | XNaN, _ | _, XNaN => XNaN
  | XFin a, XFin b =>
      match Qcompare b 0 with
      | Eq => match Qcompare a 0 with
              | Eq => XNaN
              | Gt => XPInf
              | Lt => XNInf
              end
      | _ => XFin (Qred (a / b))
      end
  | XFin _, _ => XFin 0
  | _, XFin b =>
      match xq_sign x with
      | Some s1 => xq_signed_inf s1 (match Qcompare b 0 with Lt => Lt | _ => Gt end)
      | None => XNaN
      end
  | _, _ => XNaN
  end.

Definition xq_ltb (x y : xq) : bool :=
  match x, y with
  | XNaN, _ | _, XNaN => false
  | XFin a, XFin b => match Qcompare a b with Lt => true | _ => false end
  | XNInf, XNInf => false
  | XNInf, _ => true
  | _, XNInf => false
  | XPInf, _ => false
  | XFin _, XPInf => true
  end.

Definition xq_eqb (x y : xq) : bool :=
  match x, y with
  | XFin a, XFin b => Qeq_bool a b
  | XPInf, XPInf | XNInf, XNInf => true
  | _, _ => false
  end.

Definition xq_leb (x y : xq) : bool := xq_ltb x y || xq_eqb x y.

Definition xq_sqrt (s : Q → Q) (x : xq) : xq :=
  match x with
  | XFin a => match Qcompare a 0 with Lt => XNaN | _ => XFin (s a) end
  | XPInf => XPInf
  | _ => XNaN
  end.

Definition exact (s : Q → Q) : Arith xq := {|
  d0 := XFin 0;
  d0_3 := XFin (3 # 10);
  d0_5 := XFin (1 # 2);
  d1 := XFin 1;
  d5 := XFin 5;
  d10 := XFin 10;
  d20 := XFin 20;
  d500 := XFin 500;
  dinf := XPInf;
  dadd := xq_add;
  dsub := xq_sub;
  dmul := xq_mul;
  ddiv := xq_div;
  dsqrt := xq_sqrt s;
  dltb := xq_ltb;
  dleb := xq_leb;
  deqb := xq_eqb;
  d_of_u32 := fun n => XFin (inject_Z (Z.of_N n))
|}.

(** A computable square root for running the exact instance: the integer
    square root of the integer part.  No theorem depends on it. *)
Definition floor_sqrt (a : Q) : Q := inject_Z (Z.sqrt (Qfloor a)).

(** ** Machine integers *)

Definition UINT32_MAX : N := 4294967295.

(** [x++] on a [uint32_t] and on a [uint64_t]. *)
Definition u32_incr (n : N) : N := (n + 1) mod 2 ^ 32.
Definition u64_incr (n : N) : N := (n + 1) mod 2 ^ 64.

(** Ascending range [lo, lo+1, ..., hi-1] of a [for] loop over [uint32_t]. *)
Definition u32_range (lo hi : N) : list N :=
  map N.of_nat (seq (N.to_nat lo) (N.to_nat hi - N.to_nat lo)).

(** Iteration over a [std::set<uint32_t>] visits the elements in
    ascending order. *)
Definition set_ascending (X : gset N) : list N := merge_sort N.le (elements X).

(** ** Global counters (lines 39-44) *)

Record Globals := {
  g_phyDrops : N;
  g_l3Drops : N;
  g_blackholeL3Drops : N;
  g_routeSkips : N;
  g_trustPenalties : N;
  g_maliciousDrops : N
}.

Definition Globals_zero : Globals :=
  {| g_phyDrops := 0; g_l3Drops := 0; g_blackholeL3Drops := 0;
     g_routeSkips := 0; g_trustPenalties := 0; g_maliciousDrops := 0 |}.

Definition incr_trustPenalties (g : Globals) : Globals :=
  {| g_phyDrops := g_phyDrops g; g_l3Drops := g_l3Drops g;
     g_blackholeL3Drops := g_blackholeL3Drops g; g_routeSkips := g_routeSkips g;
     g_trustPenalties := u64_incr (g_trustPenalties g);
     g_maliciousDrops := g_maliciousDrops g |}.

Definition incr_phyDrops (g : Globals) : Globals :=
  {| g_phyDrops := u64_incr (g_phyDrops g); g_l3Drops := g_l3Drops g;
     g_blackholeL3Drops := g_blackholeL3Drops g; g_routeSkips := g_routeSkips g;
     g_trustPenalties := g_trustPenalties g;
     g_maliciousDrops := g_maliciousDrops g |}.

Definition incr_l3Drops (g : Globals) : Globals :=
  {| g_phyDrops := g_phyDrops g; g_l3Drops := u64_incr (g_l3Drops g);
     g_blackholeL3Drops := g_blackholeL3Drops g; g_routeSkips := g_routeSkips g;
     g_trustPenalties := g_trustPenalties g;
     g_maliciousDrops := g_maliciousDrops g |}.

(** [g_maliciousDrops++; g_blackholeL3Drops++;] of the L3 drop callback. *)
Definition incr_blackholeL3 (g : Globals) : Globals :=
  {| g_phyDrops := g_phyDrops g; g_l3Drops := g_l3Drops g;
     g_blackholeL3Drops := u64_incr (g_blackholeL3Drops g);
     g_routeSkips := g_routeSkips g;
     g_trustPenalties := g_trustPenalties g;
     g_maliciousDrops := u64_incr (g_maliciousDrops g) |}.

(** ** The program *)

Section Program.
Context {D : Type} {Ar : Arith D}.

(** *** LinkMetric (lines 53-59) *)

Record LinkMetric := {
  movingAvgSnr : D;
  drops : N;
  trust : D
}.

Definition LinkMetric_new : LinkMetric :=
  {| movingAvgSnr := d0; drops := 0; trust := d1 |}.

(** *** BlockchainLedger (lines 64-191) *)

Record BlockchainLedger := {
  m_ledger : gmap (N * N) LinkMetric;
  m_blackholes : gset N;
  m_lossThreshold : D;
  m_defaultTrust : D;
  m_defaultSnr : D
}.

Definition BlockchainLedger_new : BlockchainLedger :=
  {| m_ledger := ∅; m_blackholes := ∅;
     m_lossThreshold := d0_5; m_defaultTrust := d1; m_defaultSnr := d20 |}.

Definition set_ledger (l : BlockchainLedger) (m : gmap (N * N) LinkMetric) : BlockchainLedger :=
  {| m_ledger := m; m_blackholes := m_blackholes l;
     m_lossThreshold := m_lossThreshold l; m_defaultTrust := m_defaultTrust l;
     m_defaultSnr := m_defaultSnr l |}.

Definition MakeKey (a b : N) : N * N := (N.min a b, N.max a b).

(** The record [m_ledger[key]] refers to once a missing key has been
    materialised with [LinkMetric()]. *)
Definition metric_at (m : gmap (N * N) LinkMetric) (key : N * N) : LinkMetric :=
  default LinkMetric_new (m !! key).

Definition UpdateMetric (src dst : N) (snr : D) (isDrop useBlockchain : bool)
    (gl : Globals * BlockchainLedger) : Globals * BlockchainLedger :=
  let '(g, l) := gl in
  let key := MakeKey src dst in
  let metric := metric_at (m_ledger l) key in
  let avg :=
    if dltb d0 snr then
      let alpha := d0_3 in
      dadd (dmul alpha snr) (dmul (dsub d1 alpha) (movingAvgSnr metric))
    else movingAvgSnr metric in
  if isDrop && useBlockchain then
    (incr_trustPenalties g,
     set_ledger l (<[key := {| movingAvgSnr := avg;
                               drops := u32_incr (drops metric);
                               trust := dmax d0_3 (dmul (trust metric) d0_5) |}]>
                     (m_ledger l)))
  else if isDrop then
    (g, set_ledger l (<[key := {| movingAvgSnr := avg;
                                  drops := u32_incr (drops metric);
                                  trust := trust metric |}]> (m_ledger l)))
  else
    (g, set_ledger l (<[key := {| movingAvgSnr := avg;
                                  drops := drops metric;
                                  trust := trust metric |}]> (m_ledger l))).

Definition GetTrust (l : BlockchainLedger) (src dst : N) : D :=
  match m_ledger l !! MakeKey src dst with
  | Some m => trust m
  | None => m_defaultTrust l
  end.

Definition GetSnr (l : BlockchainLedger) (src dst : N) : D :=
  match m_ledger l !! MakeKey src dst with
  | Some m => if dltb d0 (movingAvgSnr m) then movingAvgSnr m else m_defaultSnr l
  | None => m_defaultSnr l
  end.

(** One iteration of the loop of [IsBlackhole] on the pair of counters
    [(lowTrustLinks, totalLinks)]. *)
Definition IsBlackhole_step (nodeId : N) (c : N * N) (entry : N * N * LinkMetric) : N * N :=
  let '(lowTrustLinks, totalLinks) := c in
  let '((n1, n2), m) := entry in
  if (n1 =? nodeId) || (n2 =? nodeId) then
    (if dltb (trust m) d0_3 then u32_incr lowTrustLinks else lowTrustLinks,
     u32_incr totalLinks)
  else (lowTrustLinks, totalLinks).

(** The counts do not depend on the order in which the entries are
    visited. *)
Definition IsBlackhole_count (l : BlockchainLedger) (nodeId : N) : N * N :=
  fold_left (IsBlackhole_step nodeId) (map_to_list (m_ledger l)) (0, 0).

Definition IsBlackhole (l : BlockchainLedger) (nodeId : N) : bool :=
  let '(lowTrustLinks, totalLinks) := IsBlackhole_count l nodeId in
  (0 <? totalLinks) &&
  dltb d0_5 (ddiv (d_of_u32 lowTrustLinks) (d_of_u32 totalLinks)).

Definition GetBlackholes (l : BlockchainLedger) : gset N := m_blackholes l.

(** *** RoutingEngine (lines 196-372) *)

Record Vector := { vx : D; vy : D; vz : D }.

(** A node container gives, for node [i], the position reported by its
    mobility model, or [None] when the node has no mobility model
    ([GetObject<MobilityModel>()] is null). *)
Definition NodeContainer := list (option Vector).

Definition GetN (nodes : NodeContainer) : N := N.of_nat (length nodes).

Definition GetMobility (nodes : NodeContainer) (i : N) : option Vector :=
  mjoin (nodes !! N.to_nat i).

Definition distance (pos1 pos2 : Vector) : D :=
  let dx := dsub (vx pos1) (vx pos2) in
  let dy := dsub (vy pos1) (vy pos2) in
  let dz := dsub (vz pos1) (vz pos2) in
  dsqrt (dadd (dadd (dmul dx dx) (dmul dy dy)) (dmul dz dz)).

Record RoutingEngine := {
  m_graph : gmap N (gset N);
  m_weights : gmap (N * N) D;
  m_alpha : D;
  m_beta : D;
  m_useBlockchain : bool
}.

Definition RoutingEngine_new (alpha beta : D) : RoutingEngine :=
  {| m_graph := ∅; m_weights := ∅; m_alpha := alpha; m_beta := beta;
     m_useBlockchain := true |}.

Definition SetUseBlockchain (useBlockchain : bool) (e : RoutingEngine) : RoutingEngine :=
  {| m_graph := m_graph e; m_weights := m_weights e; m_alpha := m_alpha e;
     m_beta := m_beta e; m_useBlockchain := useBlockchain |}.

Definition set_topology (e : RoutingEngine) (g : gmap N (gset N)) (w : gmap (N * N) D)
    : RoutingEngine :=
  {| m_graph := g; m_weights := w; m_alpha := m_alpha e; m_beta := m_beta e;
     m_useBlockchain := m_useBlockchain e |}.

(** [m_graph[i].insert(j)] *)
Definition graph_insert (i j : N) (g : gmap N (gset N)) : gmap N (gset N) :=
  <[i := {[j]} ∪ default ∅ (g !! i)]> g.

(** The edge weight computed at lines 246-280. *)
Definition edge_cost (e : RoutingEngine) (ledger : BlockchainLedger) (defaultSnr : D)
    (i j : N) : D :=
  let trust := GetTrust ledger i j in
  let snr := GetSnr ledger i j in
  let snr := if dleb snr d0 then defaultSnr else snr in
  let trust := if dleb trust d0 then d1 else trust in
  let trust := if dltb trust d0_3 then d0_3 else trust in
  if m_useBlockchain e then dadd (ddiv (m_alpha e) snr) (ddiv (m_beta e) trust)
  else d1.

(** The body of the inner loop of [BuildGraph] for the pair [(i, j)]. *)
Definition BuildGraph_pair (nodes : NodeContainer) (ledger : BlockchainLedger)
    (maxRange defaultSnr : D) (i j : N) (e : RoutingEngine) : RoutingEngine :=
  match GetMobility nodes i, GetMobility nodes j with
  | Some pos1, Some pos2 =>
      if dltb (distance pos1 pos2) maxRange then
        let cost := edge_cost e ledger defaultSnr i j in
        set_topology e
          (graph_insert j i (graph_insert i j (m_graph e)))
          (<[(j, i) := cost]> (<[(i, j) := cost]> (m_weights e)))
      else e
  | _, _ => e
  end.

Definition BuildGraph (nodes : NodeContainer) (ledger : BlockchainLedger) (maxRange : D)
    (blackholeNodes : gset N) (defaultSnr : D) (e : RoutingEngine) : RoutingEngine :=
  let numNodes := GetN nodes in
  fold_left
    (fun e i =>
       fold_left (fun e j => BuildGraph_pair nodes ledger maxRange defaultSnr i j e)
                 (u32_range (i + 1) numNodes) e)
    (u32_range 0 numNodes)
    (set_topology e ∅ ∅).

(** State of Dijkstra's loop in [CalculatePath]. *)
Record DijkstraState := {
  dist : gmap N D;
  prev : gmap N N;
  unvisited : gset N
}.

(** [dist[node]] and [prev[node]]: [operator[]] yields a value-initialised
    entry for a missing key. *)
Definition dist_at (dist : gmap N D) (node : N) : D := default d0 (dist !! node).
Definition prev_at (prev : gmap N N) (node : N) : N := default 0 (prev !! node).

(** Lines 306-312: every node of the graph starts at distance infinity
    with no predecessor; the source is at distance 0. *)
Definition dijkstra_init (g : gmap N (gset N)) (source : N) : DijkstraState :=
  {| dist := <[source := d0]> (gset_to_gmap dinf (dom g));
     prev := gset_to_gmap UINT32_MAX (dom g);
     unvisited := dom g |}.

(** Lines 319-322: one node of the minimum search, on the pair
    [(u, minDist)]. *)
Definition find_min_step (dist : gmap N D) (acc : N * D) (node : N) : N * D :=
  let '(u, minDist) := acc in
  if dltb (dist_at dist node) minDist then (node, dist_at dist node)
  else (u, minDist).

(** Lines 316-323: the unvisited node of minimum distance, the first one
    in ascending order among equals. *)
Definition find_min (dist : gmap N D) (unvisited : gset N) : N * D :=
  fold_left (find_min_step dist) (set_ascending unvisited) (UINT32_MAX, dinf).

(** Lines 338-348: relaxation of the edge from [u] to the neighbour [v]. *)
Definition relax_edge (w : gmap (N * N) D) (u : N) (st : DijkstraState) (v : N)
    : DijkstraState :=
  if decide (v ∈ unvisited st) then
    let weight := default dinf (w !! (u, v)) in
    let alt := dadd (dist_at (dist st) u) weight in
    if dltb alt (dist_at (dist st) v) then
      {| dist := <[v := alt]> (dist st); prev := <[v := u]> (prev st);
         unvisited := unvisited st |}
    else st
  else st.

Definition relax_all (g : gmap N (gset N)) (w : gmap (N * N) D) (u : N)
    (st : DijkstraState) : DijkstraState :=
  match g !! u with
  | Some nbrs => fold_left (relax_edge w u) (set_ascending nbrs) st
  | None => st
  end.

(** The [while (!unvisited.empty())] loop, lines 314-351.  Each iteration
    that does not leave the loop erases one node from [unvisited]; [fuel]
    bounds the number of iterations. *)
Fixpoint dijkstra_loop (g : gmap N (gset N)) (w : gmap (N * N) D) (dest : N)
    (fuel : nat) (st : DijkstraState) : DijkstraState :=
  match fuel with
  | O => st
  | S fuel' =>
      if decide (unvisited st = ∅) then st
      else
        let '(u, minDist) := find_min (dist st) (unvisited st) in
        if (u =? UINT32_MAX) || deqb minDist dinf then st
        else if u =? dest then st
        else
          dijkstra_loop g w dest fuel'
            (relax_all g w u
               {| dist := dist st; prev := prev st;
                  unvisited := unvisited st ∖ {[u]} |})
  end.

(** Lines 355-360: follow [prev] from the destination, then reverse.
    [None] when [fuel] steps did not reach [UINT32_MAX]. *)
Fixpoint reconstruct (prev : gmap N N) (fuel : nat) (current : N) (acc : list N)
    : option (list N) :=
  match fuel with
  | O => None
  | S fuel' =>
      if current =? UINT32_MAX then Some acc
      else reconstruct prev fuel' (prev_at prev current) (current :: acc)
  end.

(** [CalculatePath]; [None] stands for a loop that would not end within
    the number of nodes of the graph. *)
Definition CalculatePath (e : RoutingEngine) (source dest : N) : option (list N) :=
  let g := m_graph e in
  if decide (source ∈ dom g ∧ dest ∈ dom g) then
    let st := dijkstra_loop g (m_weights e) dest (size (dom g)) (dijkstra_init g source) in
    if negb (deqb (dist_at (dist st) dest) dinf) then
      reconstruct (prev st) (S (size (dom g))) dest []
    else Some []
  else Some [].

End Program.

Arguments LinkMetric : clear implicits.
Arguments BlockchainLedger : clear implicits.
Arguments Vector : clear implicits.
Arguments NodeContainer : clear implicits.
Arguments RoutingEngine : clear implicits.
Arguments DijkstraState : clear implicits.

(** ** Parsing the trace context (lines 403-418) *)

Inductive exn : Set :=
  | invalid_argument
  | out_of_range.

(** Outcome of a C++ call that either returns or leaves by an exception. *)
Inductive result (A : Type) : Type :=
  | Returns (a : A)
  | Throws (e : exn).

Arguments Returns {A} a.
Arguments Throws {A} e.

(** [std::isspace] in the "C" locale. *)
Definition isspace (c : ascii) : bool :=
  let n := N_of_ascii c in (n =? 32) || ((9 <=? n) && (n <=? 13)).

Fixpoint skip_space (s : string) : string :=
  match s with
  | String c s' => if isspace c then skip_space s' else s
  | EmptyString => s
  end.

Definition digit_of (c : ascii) : option N :=
  let n := N_of_ascii c in
  if (48 <=? n) && (n <=? 57) then Some (n - 48) else None.

(** The longest prefix of decimal digits: its value and its length. *)
Fixpoint read_digits (s : string) (acc : N) (count : nat) : N * nat :=
  match s with
  | String c s' =>
      match digit_of c with
      | Some d => read_digits s' (10 * acc + d) (S count)
      | None => (acc, count)
      end
  | EmptyString => (acc, count)
  end.

(** [unsigned long] has 64 bits on the LP64 platforms ns-3 runs on. *)
Definition ULONG_MAX : N := 2 ^ 64 - 1.

(** [std::stoul(str)] (base 10), as the C++ standard defines it through
    [strtoul]: leading white space is skipped, one sign is accepted, the
    longest run of digits is converted and what follows is ignored.  It
    throws [std::invalid_argument] when there is no digit to convert and
    [std::out_of_range] when the value does not fit [unsigned long]; a
    leading minus negates the value in [unsigned long]. *)
Definition stoul (str : string) : result N :=
  let s1 := skip_space str in
  let '(neg, s2) :=
    match s1 with
    | String "-"%char r => (true, r)
    | String "+"%char r => (false, r)
    | _ => (false, s1)
    end in
  let '(v, n) := read_digits s2 0 0 in
  match n with
  | O => Throws invalid_argument
  | S _ =>
      if ULONG_MAX <? v then Throws out_of_range
      else Returns (if neg then (2 ^ 64 - v) mod 2 ^ 64 else v)
  end.

Definition ParseNodeIdFromContext (context : string) : result N :=
  match index 0 "/NodeList/"%string context with
  | None => Returns UINT32_MAX
  | Some nodeListPos =>
      let startPos := (nodeListPos + 10)%nat in
      match index startPos "/"%string context with
      | None => Returns UINT32_MAX
      | Some endPos =>
          let nodeIdStr := substring startPos (endPos - startPos)%nat context in
          match stoul nodeIdStr with
          | Returns v => Returns (v mod 2 ^ 32)   (* static_cast<uint32_t> *)
          | Throws e => Throws e
          end
      end
  end.

(** ** The simulation context and the trace callbacks (lines 378-675) *)

Section Callbacks.
Context {D : Type} {Ar : Arith D}.

(** [netDevices] only serves route installation and is left out;
    [ipv4Interfaces] lists the address of each node. *)
Record SimulationContext := {
  nodes : NodeContainer D;
  ipv4Interfaces : list N;
  ledger : BlockchainLedger D;
  routingEngine : RoutingEngine D;
  activeFlows : list (N * N);
  blackholeNodes : gset N;
  maxRadioRange : D;
  defaultSnr : D;
  useBlockchain : bool
}.

(** The mutable program state: the global counters and [g_context]. *)
Definition World : Type := Globals * SimulationContext.

Definition set_ctx_ledger (c : SimulationContext) (l : BlockchainLedger D) : SimulationContext :=
  {| nodes := nodes c; ipv4Interfaces := ipv4Interfaces c; ledger := l;
     routingEngine := routingEngine c; activeFlows := activeFlows c;
     blackholeNodes := blackholeNodes c; maxRadioRange := maxRadioRange c;
     defaultSnr := defaultSnr c; useBlockchain := useBlockchain c |}.

Definition set_ctx_nodes (c : SimulationContext) (n : NodeContainer D) : SimulationContext :=
  {| nodes := n; ipv4Interfaces := ipv4Interfaces c; ledger := ledger c;
     routingEngine := routingEngine c; activeFlows := activeFlows c;
     blackholeNodes := blackholeNodes c; maxRadioRange := maxRadioRange c;
     defaultSnr := defaultSnr c; useBlockchain := useBlockchain c |}.

Definition set_ctx_engine (c : SimulationContext) (e : RoutingEngine D) : SimulationContext :=
  {| nodes := nodes c; ipv4Interfaces := ipv4Interfaces c; ledger := ledger c;
     routingEngine := e; activeFlows := activeFlows c;
     blackholeNodes := blackholeNodes c; maxRadioRange := maxRadioRange c;
     defaultSnr := defaultSnr c; useBlockchain := useBlockchain c |}.

(** [g_context.ledger.UpdateMetric(src, dst, snr, isDrop, g_context.useBlockchain)] *)
Definition ledger_update (src dst : N) (snr : D) (isDrop : bool) (w : World) : World :=
  let '(g, c) := w in
  let '(g', l') := UpdateMetric src dst snr isDrop (useBlockchain c) (g, ledger c) in
  (g', set_ctx_ledger c l').

(** The first flow whose destination is the receiving node gives the
    source; [UINT32_MAX] when there is none. *)
Definition flow_source (flows : list (N * N)) (receivingNodeId : N) : N :=
  match find (fun flow => snd flow =? receivingNodeId) flows with
  | Some flow => fst flow
  | None => UINT32_MAX
  end.

(** [defaultSnr - distance / 10.0], not below [5.0]. *)
Definition estimate_snr (defaultSnr : D) (pos1 pos2 : Vector D) : D :=
  let estimatedSnr := dsub defaultSnr (ddiv (distance pos1 pos2) d10) in
  if dltb estimatedSnr d5 then d5 else estimatedSnr.

(** The guard every callback starts with. *)
Definition invalid_node (c : SimulationContext) (receivingNodeId : N) : bool :=
  (receivingNodeId =? UINT32_MAX) || (GetN (nodes c) <=? receivingNodeId).

(** Lines 460-481: credit every node in range of the receiver. *)
Definition rx_fanout (receivingNodeId : N) (w : World) : World :=
  fold_left
    (fun w i =>
       if negb (i =? receivingNodeId) then
         match GetMobility (nodes (snd w)) i, GetMobility (nodes (snd w)) receivingNodeId with
         | Some pos1, Some pos2 =>
             if dltb (distance pos1 pos2) (maxRadioRange (snd w)) then
               ledger_update i receivingNodeId
                 (estimate_snr (defaultSnr (snd w)) pos1 pos2) false w
             else w
         | _, _ => w
         end
       else w)
    (u32_range 0 (GetN (nodes (snd w)))) w.

(** Lines 573-590 and 656-673: penalise every link in range of the
    receiver. *)
Definition drop_fanout (receivingNodeId : N) (w : World) : World :=
  fold_left
    (fun w i =>
       if negb (i =? receivingNodeId) then
         match GetMobility (nodes (snd w)) i, GetMobility (nodes (snd w)) receivingNodeId with
         | Some pos1, Some pos2 =>
             if dltb (distance pos1 pos2) (maxRadioRange (snd w)) then
               ledger_update i receivingNodeId d0 true w
             else w
         | _, _ => w
         end
       else w)
    (u32_range 0 (GetN (nodes (snd w)))) w.

Definition PhyRxEndCallback (context : string) (w : World) : result World :=
  match ParseNodeIdFromContext context with
  | Throws e => Throws e
  | Returns receivingNodeId =>
      if invalid_node (snd w) receivingNodeId then Returns w
      else
        let sourceNodeId := flow_source (activeFlows (snd w)) receivingNodeId in
        if negb (sourceNodeId =? UINT32_MAX) then
          let estimatedSnr :=
            match GetMobility (nodes (snd w)) sourceNodeId,
                  GetMobility (nodes (snd w)) receivingNodeId with
            | Some pos1, Some pos2 => estimate_snr (defaultSnr (snd w)) pos1 pos2
            | _, _ => defaultSnr (snd w)
            end in
          Returns (ledger_update sourceNodeId receivingNodeId estimatedSnr false w)
        else Returns (rx_fanout receivingNodeId w)
  end.

(** Lines 561-566: the node whose address is the source address of the
    dropped packet. *)
Definition address_source (addrs : list N) (numNodes : N) (srcAddr : N) : N :=
  match find (fun i => bool_decide (addrs !! N.to_nat i = Some srcAddr)) (u32_range 0 numNodes) with
  | Some i => i
  | None => UINT32_MAX
  end.

Definition Ipv4L3DropCallback (context : string) (srcAddr : N) (w : World) : result World :=
  match ParseNodeIdFromContext context with
  | Throws e => Throws e
  | Returns receivingNodeId =>
      if invalid_node (snd w) receivingNodeId then Returns w
      else
        let g1 := incr_l3Drops (fst w) in
        let isExplicitBlackhole := bool_decide (receivingNodeId ∈ blackholeNodes (snd w)) in
        let g2 := if isExplicitBlackhole then incr_blackholeL3 g1 else g1 in
        let isDetectedBlackhole := IsBlackhole (ledger (snd w)) receivingNodeId in
        let w2 : World := (g2, snd w) in
        let sourceNodeId :=
          address_source (ipv4Interfaces (snd w)) (GetN (nodes (snd w))) srcAddr in
        if negb (sourceNodeId =? UINT32_MAX) then
          Returns (ledger_update sourceNodeId receivingNodeId d0 true w2)
        else Returns (drop_fanout receivingNodeId w2)
  end.

Definition PhyRxDropCallback (context : string) (w : World) : result World :=
  match ParseNodeIdFromContext context with
  | Throws e => Throws e
  | Returns receivingNodeId =>
      if invalid_node (snd w) receivingNodeId then Returns w
      else
        let w1 : World := (incr_phyDrops (fst w), snd w) in
        let sourceNodeId := flow_source (activeFlows (snd w)) receivingNodeId in
        if negb (sourceNodeId =? UINT32_MAX) then
          Returns (ledger_update sourceNodeId receivingNodeId d0 true w1)
        else Returns (drop_fanout receivingNodeId w1)
  end.

(** *** The heartbeat (lines 681-778) *)

(** Step 1 of [SimulationHeartbeat] (lines 687-689): the topology is
    rebuilt from the current positions and ledger; the ground-truth
    set of malicious nodes is passed along. *)
Definition Heartbeat_BuildGraph (w : World) : World :=
  let '(g, c) := w in
  (g, set_ctx_engine c
        (BuildGraph (nodes c) (ledger c) (maxRadioRange c) (blackholeNodes c)
                    (defaultSnr c) (routingEngine c))).

(** [g_routeSkips++; g_maliciousDrops++;] (lines 723 and 730). *)
Definition incr_routeSkips (g : Globals) : Globals :=
  {| g_phyDrops := g_phyDrops g; g_l3Drops := g_l3Drops g;
     g_blackholeL3Drops := g_blackholeL3Drops g;
     g_routeSkips := u64_incr (g_routeSkips g);
     g_trustPenalties := g_trustPenalties g;
     g_maliciousDrops := u64_incr (g_maliciousDrops g) |}.

(** One iteration of the loop of lines 714-772, at [currentNode] with
    [nextNode] after it on the path.  A node of the ground-truth set is
    skipped and counted.  On any other node the route to the destination
    is replaced in the node's static routing table (every node has one,
    lines 933-936), which is the simulator's and not part of this state;
    [nodes.Get(currentNode)], [netDevices.Get(currentNode)] and
    [ipv4Interfaces.GetAddress(nextNode)] index their containers
    unchecked ([netDevices] has a device for each node, line 885), so
    the iteration has no defined result, [None], when an index is out of
    range. *)
Definition install_hop (c : SimulationContext) (g : Globals) (currentNode nextNode : N)
    : option Globals :=
  if bool_decide (currentNode ∈ blackholeNodes c) then Some (incr_routeSkips g)
  else if (currentNode <? GetN (nodes c))
          && (nextNode <? N.of_nat (length (ipv4Interfaces c)))
       then Some g
       else None.

(** The loop of lines 714-772: [i] runs over the path, its last index
    apart. *)
Fixpoint install_hops (c : SimulationContext) (path : list N) (g : Globals)
    : option Globals :=
  match path with
  | currentNode :: ((nextNode :: _) as rest) =>
      match install_hop c g currentNode nextNode with
      | Some g' => install_hops c rest g'
      | None => None
      end
  | _ => Some g
  end.

(** Lines 699-773: a path of more than one node is installed, after the
    address of [dest] is read (line 710). *)
Definition install_path (c : SimulationContext) (dest : N) (g : Globals)
    (path : list N) : option Globals :=
  if (1 <? length path)%nat then
    if dest <? N.of_nat (length (ipv4Interfaces c)) then install_hops c path g else None
  else Some g.

(** Step 2 of [SimulationHeartbeat] (lines 692-774), over the flows.
    [None] also stands for a [CalculatePath] that would not return. *)
Fixpoint install_flows (c : SimulationContext) (flows : list (N * N)) (g : Globals)
    : option Globals :=
  match flows with
  | [] => Some g
  | flow :: flows' =>
      match CalculatePath (routingEngine c) (fst flow) (snd flow) with
      | Some path =>
          match install_path c (snd flow) g path with
          | Some g' => install_flows c flows' g'
          | None => None
          end
      | None => None
      end
  end.

(** [SimulationHeartbeat] on the program state; the next heartbeat is
    scheduled by the simulator. *)
Definition SimulationHeartbeat (w : World) : option World :=
  let w1 := Heartbeat_BuildGraph w in
  match install_flows (snd w1) (activeFlows (snd w1)) (fst w1) with
  | Some g => Some (g, snd w1)
  | None => None
  end.

(** *** Events *)

(** What the simulator does to the core: it fires one of the three
    traces, runs the heartbeat, or moves the nodes (the mobility models
    report new positions). *)
Inductive Event : Type :=
  | EvPhyRxEnd (context : string)
  | EvPhyRxDrop (context : string)
  | EvIpv4L3Drop (context : string) (srcAddr : N)
  | EvHeartbeat
  | EvMobility (positions : NodeContainer D).

(** The outcome of one event: [None] when the heartbeat has no defined
    result, else what the handler returns or throws. *)
Definition deliver (ev : Event) (w : World) : option (result World) :=
  match ev with
  | EvPhyRxEnd context => Some (PhyRxEndCallback context w)
  | EvPhyRxDrop context => Some (PhyRxDropCallback context w)
  | EvIpv4L3Drop context srcAddr => Some (Ipv4L3DropCallback context srcAddr w)
  | EvHeartbeat =>
      match SimulationHeartbeat w with
      | Some w' => Some (Returns w')
      | None => None
      end
  | EvMobility positions => Some (Returns (fst w, set_ctx_nodes (snd w) positions))
  end.

(** A run of events; an exception ends the run. *)
Fixpoint run (evs : list Event) (w : World) : option (result World) :=
  match evs with
  | [] => Some (Returns w)
  | ev :: evs' =>
      match deliver ev w with
      | Some (Returns w') => run evs' w'
      | Some (Throws e) => Some (Throws e)
      | None => None
      end
  end.

End Callbacks.

Arguments SimulationContext : clear implicits.
Arguments World : clear implicits.
Arguments Event : clear implicits.

(** ** The rest of the ledger's interface *)

(** [SetBlackhole] (lines 119-124) only logs a warning. *)
Definition SetBlackhole {D} (nodeId : N) (l : BlockchainLedger D) : BlockchainLedger D := l.

(** ** The set-up of [main]: malicious nodes and flows (lines 949-1010) *)

(** [auto it = s.begin(); std::advance(it, idx); *it] on a
    [std::set<uint32_t>]: the element of rank [idx] in ascending order.
    [None] when [idx] is not below the size: the iterator is then at or
    past the end and reading it is undefined. *)
Definition set_nth (X : gset N) (idx : N) : option N := set_ascending X !! N.to_nat idx.

(** The set of lines 957-960: all node indices. *)
Definition all_nodes (numNodes : N) : gset N := list_to_set (u32_range 0 numNodes).

(** Lines 966-976: the choice of the malicious nodes.  [rng k] is the
    index the random stream yields at its draw number [k], after the
    cast to [uint32_t]; [rounds] is what is left of [numBlackholes]. *)
Fixpoint select_blackholes (rounds : nat) (rng : nat → N) (k : nat)
    (candidateNodes blackholeNodes : gset N) : option (gset N) :=
  match rounds with
  | O => Some blackholeNodes
  | S rounds' =>
      if decide (candidateNodes = ∅) then Some blackholeNodes
      else
        match set_nth candidateNodes (rng k) with
        | Some maliciousId =>
            select_blackholes rounds' rng (S k) (candidateNodes ∖ {[maliciousId]})
              ({[maliciousId]} ∪ blackholeNodes)
        | None => None
        end
  end.

(** Lines 993-1010: the choice of the flows, two draws for each. *)
Fixpoint select_flows (rounds : nat) (rng : nat → N) (k : nat)
    (availableNodes : gset N) (activeFlows : list (N * N)) : option (list (N * N)) :=
  match rounds with
  | O => Some activeFlows
  | S rounds' =>
      if (size availableNodes <? 2)%nat then Some activeFlows
      else
        match set_nth availableNodes (rng k) with
        | Some source =>
            let availableNodes := availableNodes ∖ {[source]} in
            if decide (availableNodes = ∅) then Some activeFlows
            else
              match set_nth availableNodes (rng (S k)) with
              | Some dest =>
                  select_flows rounds' rng (S (S k)) (availableNodes ∖ {[dest]})
                    (activeFlows ++ [(source, dest)])
              | None => None
              end
        | None => None
        end
  end.

(** Steps 5 and 6 of [main]: the ground-truth set, then the flows among
    the nodes that are not in it, each from its random stream. *)
Definition setup (numNodes numFlows numBlackholes : N) (rngB rngF : nat → N)
    : option (gset N * list (N * N)) :=
  match select_blackholes (N.to_nat numBlackholes) rngB 0 (all_nodes numNodes) ∅ with
  | Some blackholeNodes =>
      match select_flows (N.to_nat numFlows) rngF 0
              (filter (fun i => i ∉ blackholeNodes) (all_nodes numNodes)) [] with
      | Some activeFlows => Some (blackholeNodes, activeFlows)
      | None => None
      end
  | None => None
  end.

(** * Vocabulary of the specification *)

(** ** Sequences of ledger updates *)

(** A recorded call of [UpdateMetric] and the effect of a sequence of
    calls. *)
Record Call (D : Type) := {
  c_src : N;
  c_dst : N;
  c_snr : D;
  c_isDrop : bool;
  c_useBlockchain : bool
}.

Arguments c_src {D} _.
Arguments c_dst {D} _.
Arguments c_snr {D} _.
Arguments c_isDrop {D} _.
Arguments c_useBlockchain {D} _.

Definition apply_call {D} {Ar : Arith D} (gl : Globals * BlockchainLedger D) (c : Call D)
    : Globals * BlockchainLedger D :=
  UpdateMetric (c_src c) (c_dst c) (c_snr c) (c_isDrop c) (c_useBlockchain c) gl.

Definition apply_calls {D} {Ar : Arith D} (calls : list (Call D))
    (gl : Globals * BlockchainLedger D) : Globals * BlockchainLedger D :=
  fold_left apply_call calls gl.

(** The record a call leaves at its key, from the record found there. *)
Definition updated_metric {D} {Ar : Arith D} (snr : D) (isDrop useBlockchain : bool)
    (m : LinkMetric D) : LinkMetric D :=
  {| movingAvgSnr :=
       if dltb d0 snr then dadd (dmul d0_3 snr) (dmul (dsub d1 d0_3) (movingAvgSnr m))
       else movingAvgSnr m;
     drops := if isDrop then u32_incr (drops m) else drops m;
     trust := if isDrop && useBlockchain then dmax d0_3 (dmul (trust m) d0_5)
              else trust m |}.

(** The positive SNR values a sequence of calls reports on the link
    between [a] and [b]. *)
Definition observed {D} {Ar : Arith D} (a b : N) (calls : list (Call D)) : list D :=
  map c_snr
    (filter (fun c => MakeKey (c_src c) (c_dst c) = MakeKey a b ∧ dltb d0 (c_snr c) = true)
            calls).


(** [avg_snr] of the link between [a] and [b] in a ledger. *)
Definition avg_snr_of {D} {Ar : Arith D} (l : BlockchainLedger D) (a b : N) : D :=
  movingAvgSnr (metric_at (m_ledger l) (MakeKey a b)).

(** Trust after [k] penalised drops on a link that starts at 1.0. *)
Definition decay_curve {D} {Ar : Arith D} (k : nat) : D :=
  match k with
  | O => d1
  | S O => d0_5
  | S (S _) => d0_3
  end.

(** [k] drop updates in Proposed mode on the link between [a] and [b],
    with the SNR arguments [snrs]. *)
Definition drop_calls {D} (a b : N) (snrs : list D) : list (Call D) :=
  map (fun snr => {| c_src := a; c_dst := b; c_snr := snr;
                      c_isDrop := true; c_useBlockchain := true |}) snrs.

(** ** Trust and the moving average *)

(** The values trust takes: 1.0 at creation, 0.5 after one penalty and
    the floor 0.3 from the second penalty on. *)
Definition trust_level (t : float) : Prop :=
  t = 1%float ∨ t = 0.5%float ∨ t = 0.3%float.

(** One penalty, as line 101 computes it. *)
Definition penalty (t : float) : float := dmax d0_3 (dmul t d0_5).

Definition xq_nonneg (x : xq) : Prop :=
  match x with
  | XFin q => (0 <= q)%Q
  | XPInf => True
  | _ => False
  end.

(** One step of the moving average, line 83:
    [alpha * snr + (1.0 - alpha) * avg] with [alpha = 0.3]. *)
Definition ema {D} {Ar : Arith D} (snr avg : D) : D :=
  dadd (dmul d0_3 snr) (dmul (dsub d1 d0_3) avg).

(** ** Order laws of the arithmetic *)

(** A number that is not negative (and so not a NaN): [0.0 <= x]. *)
Definition nonneg {D} {Ar : Arith D} (x : D) : Prop := dleb d0 x = true.

(** [x <= y] read off the comparison the code uses: [y < x] is false. *)
Definition dle {D} {Ar : Arith D} (x y : D) : Prop := dltb y x = false.

(** [x < infinity]. *)
Definition finite {D} {Ar : Arith D} (x : D) : Prop := dltb x dinf = true.

(** What Dijkstra's algorithm needs of the numbers that are not negative:
    they are totally preordered by [<], bounded by 0.0 and infinity, and
    addition is monotone and never decreases its left argument.  IEEE-754
    arithmetic with rounding to nearest has these properties; the exact
    instance is proved to have them below. *)
Class CostLaws {D} (Ar : Arith D) : Prop := {
  nonneg_d0 : nonneg d0;
  nonneg_dinf : nonneg dinf;
  nonneg_dadd : ∀ x y, nonneg x → nonneg y → nonneg (dadd x y);
  dle_refl : ∀ x, nonneg x → dle x x;
  dle_trans : ∀ x y z, nonneg x → nonneg y → nonneg z → dle x y → dle y z → dle x z;
  dlt_dle : ∀ x y, nonneg x → nonneg y → dltb x y = true → dle x y;
  d0_least : ∀ x, nonneg x → dle d0 x;
  dinf_greatest : ∀ x, nonneg x → dle x dinf;
  deqb_dinf : ∀ x, nonneg x → deqb x dinf = negb (dltb x dinf);
  dadd_mono : ∀ x y w, nonneg x → nonneg y → nonneg w → dle x y → dle (dadd x w) (dadd y w);
  dadd_infl : ∀ x w, nonneg x → nonneg w → dle x (dadd x w);
  d0_finite : finite d0
}.

(** What [BuildGraph] needs to produce weights that are not negative: the
    constants it compares with are positive, [<=] and [<] agree, and a
    finite numerator over a positive denominator is not negative. *)
Class WeightLaws {D} (Ar : Arith D) : Prop := {
  nonneg_d0_3 : nonneg d0_3;
  nonneg_d1 : nonneg d1;
  d0_3_pos : dltb d0 d0_3 = true;
  d1_pos : dltb d0 d1 = true;
  d20_pos : dltb d0 d20 = true;
  dlt_nonneg : ∀ x y, nonneg x → dltb x y = true → nonneg y;
  pos_not_dleb : ∀ x, dltb d0 x = true → dleb x d0 = false;
  nonneg_pos : ∀ x, nonneg x → dleb x d0 = false → dltb d0 x = true;
  ddiv_nonneg : ∀ a b, nonneg a → finite a → dltb d0 b = true → nonneg (ddiv a b)
}.

(** Arithmetic without overflow: finite operands give finite results.
    The exact instance has this property; binary64 does not. *)
Class NoOverflow {D} (Ar : Arith D) : Prop := {
  d1_finite : finite d1;
  ddiv_finite : ∀ a b, nonneg a → finite a → dltb d0 b = true → finite (ddiv a b);
  dadd_finite : ∀ x y, nonneg x → nonneg y → finite x → finite y → finite (dadd x y)
}.

(** What the weights and the moving average need of rounding.  An
    IEEE-754 operation is the exact one followed by rounding to nearest,
    and rounding is monotone: a quotient does not grow with its
    denominator, and a product or a sum does not shrink when an operand
    grows.  The moving average of a constant signal does not exceed the
    signal: the rounded coefficients [0.3] and [1.0 - 0.3] add up to at
    most one.  The other laws are facts about constants, among them the
    three steps of the trust decay. *)
Class RoundingLaws {D} (Ar : Arith D) : Prop := {
  dleb_dle : ∀ x y, nonneg x → nonneg y → dle x y → dleb x y = true;
  dadd_mono_r : ∀ x y z, nonneg x → nonneg y → nonneg z →
                dle y z → dle (dadd x y) (dadd x z);
  dmul_nonneg : ∀ c x, dltb d0 c = true → finite c → nonneg x → nonneg (dmul c x);
  dmul_mono : ∀ c x y, dltb d0 c = true → finite c → nonneg x → nonneg y →
              dle x y → dle (dmul c x) (dmul c y);
  ddiv_anti : ∀ a b c, nonneg a → finite a → dltb d0 b = true → nonneg c →
              dle b c → dle (ddiv a c) (ddiv a b);
  ema_contracts : ∀ x, nonneg x → dle (ema x x) x;
  d0_3_finite : finite d0_3;
  keep_pos : dltb d0 (dsub d1 d0_3) = true;
  keep_finite : finite (dsub d1 d0_3);
  d0_5_pos : dltb d0 d0_5 = true;
  d0_3_le_d0_5 : dle d0_3 d0_5;
  d0_5_le_d1 : dle d0_5 d1;
  halve_d1 : dmax d0_3 (dmul d1 d0_5) = d0_5;
  halve_d0_5 : dmax d0_3 (dmul d0_5 d0_5) = d0_3;
  halve_d0_3 : dmax d0_3 (dmul d0_3 d0_5) = d0_3
}.

(** Two counter records agree up to the three counters fed from the
    ground-truth set: [g_blackholeL3Drops] and [g_maliciousDrops] (the L3
    callback and the heartbeat) and [g_routeSkips] (the heartbeat). *)
Definition globals_agree (g1 g2 : Globals) : Prop :=
  g_phyDrops g1 = g_phyDrops g2
  ∧ g_l3Drops g1 = g_l3Drops g2
  ∧ g_trustPenalties g1 = g_trustPenalties g2.

(** ** Graphs, walks and their cost *)

Section Vocabulary.
Context {D : Type} {Ar : Arith D}.

(** The neighbours [m_graph[u]] and the weight looked up at line 340. *)
Definition nbrs (g : gmap N (gset N)) (u : N) : gset N := default ∅ (g !! u).
Definition weight (w : gmap (N * N) D) (u v : N) : D := default dinf (w !! (u, v)).

(** [walk g w s v p c]: [p] is the sequence of nodes of a walk from [s]
    to [v] along edges of [g], and [c] is its cost, the weights added
    up from the source on, as the relaxation at line 343 adds them. *)
Inductive walk (g : gmap N (gset N)) (w : gmap (N * N) D) (s : N)
    : N → list N → D → Prop :=
  | walk_start : s ∈ dom g → walk g w s s [s] d0
  | walk_step (u v : N) (p : list N) (c : D) :
      walk g w s u p c → v ∈ nbrs g u → walk g w s v (p ++ [v]) (dadd c (weight w u v)).

(** The cost of a node sequence, computed. *)
Fixpoint cost_from (w : gmap (N * N) D) (acc : D) (u : N) (rest : list N) : D :=
  match rest with
  | [] => acc
  | v :: rest' => cost_from w (dadd acc (weight w u v)) v rest'
  end.

Definition path_cost (w : gmap (N * N) D) (p : list N) : D :=
  match p with
  | [] => d0
  | s :: rest => cost_from w d0 s rest
  end.

(** What [CalculatePath] relies on in the graph it is given: neighbours
    are nodes of the graph, every edge has a weight that is not negative,
    and no node is called [UINT32_MAX]. *)
Record wf_graph (g : gmap N (gset N)) (w : gmap (N * N) D) : Prop := {
  wf_nbrs : ∀ u v, v ∈ nbrs g u → v ∈ dom g;
  wf_weight : ∀ u v, v ∈ nbrs g u → nonneg (weight w u v);
  wf_max : UINT32_MAX ∉ dom g
}.

(** ** Dijkstra's loop *)

(** The distance line 343 offers to [v] through [u]. *)
Definition alt_of (w : gmap (N * N) D) (st : DijkstraState D) (u v : N) : D :=
  dadd (dist_at (dist st) u) (weight w u v).

(** The test of lines 338 and 344. *)
Definition improves (w : gmap (N * N) D) (st : DijkstraState D) (u v : N) : Prop :=
  v ∈ unvisited st ∧ dltb (alt_of w st u v) (dist_at (dist st) v) = true.

(** [tree_walk g w s st v p]: following [prev] back from [v] visits the nodes
    of [p] in reverse and ends at the source; every node of [p] before
    [v] has been visited, and the distances recorded along [p] add up. *)
Inductive tree_walk (g : gmap N (gset N)) (w : gmap (N * N) D) (s : N)
    (st : DijkstraState D) : N → list N → Prop :=
  | tw_src : tree_walk g w s st s [s]
  | tw_step (u v : N) (p : list N) :
      tree_walk g w s st u p → u ∉ unvisited st → v ∈ nbrs g u → v ∉ p →
      prev_at (prev st) v = u →
      dist_at (dist st) v = alt_of w st u v →
      tree_walk g w s st v (p ++ [v]).

(** The invariant of the loop, for the graph [g] with weights [w] and the
    source [s]. *)
Record Inv (g : gmap N (gset N)) (w : gmap (N * N) D) (s : N)
    (st : DijkstraState D) : Prop := {
  inv_unvisited : unvisited st ⊆ dom g;
  inv_nonneg : ∀ v, v ∈ dom g → nonneg (dist_at (dist st) v);
  inv_src_dist : dist_at (dist st) s = d0;
  inv_src_prev : prev_at (prev st) s = UINT32_MAX;
  inv_tree : ∀ v, v ∈ dom g → finite (dist_at (dist st) v) → ∃ p, tree_walk g w s st v p;
  inv_relaxed : ∀ u v, u ∈ dom g → u ∉ unvisited st → v ∈ nbrs g u → v ∈ unvisited st →
                dle (dist_at (dist st) v) (alt_of w st u v);
  inv_optimal : ∀ u q c, u ∈ dom g → u ∉ unvisited st → walk g w s u q c →
                dle (dist_at (dist st) u) c;
  inv_visited_finite : ∀ u, u ∈ dom g → u ∉ unvisited st → finite (dist_at (dist st) u);
  inv_fresh : unvisited st = dom g →
              ∀ v, v ∈ dom g → v ≠ s → dltb (dist_at (dist st) v) dinf = false;
  inv_started : unvisited st ≠ dom g → s ∉ unvisited st
}.

(** The state in which the loop is left: either no unvisited node is at
    a finite distance (lines 325-327, or [unvisited] is empty), or the
    destination is the unvisited node of least distance (lines 329-331). *)
Definition Done (dest : N) (st : DijkstraState D) : Prop :=
  (∀ v, v ∈ unvisited st → dltb (dist_at (dist st) v) dinf = false)
  ∨ (dest ∈ unvisited st ∧ finite (dist_at (dist st) dest)
     ∧ ∀ v, v ∈ unvisited st → dle (dist_at (dist st) dest) (dist_at (dist st) v)).

(** ** The topology builder *)

(** The edge test of [BuildGraph] (lines 220-235): both nodes have a
    mobility model and their distance is below [maxRange]. *)
Definition within_range (nodes : NodeContainer D) (maxRange : D) (i j : N) : bool :=
  match GetMobility nodes i, GetMobility nodes j with
  | Some pos1, Some pos2 => dltb (distance pos1 pos2) maxRange
  | _, _ => false
  end.

(** The adjacency list alone, as the loops of [BuildGraph] fill it. *)
Definition topology_pair (nodes : NodeContainer D) (maxRange : D) (i j : N) (g : gmap N (gset N))
    : gmap N (gset N) :=
  if within_range nodes maxRange i j then graph_insert j i (graph_insert i j g) else g.

Definition topology (nodes : NodeContainer D) (maxRange : D) : gmap N (gset N) :=
  fold_left
    (fun g i => fold_left (fun g j => topology_pair nodes maxRange i j g)
                          (u32_range (i + 1) (GetN nodes)) g)
    (u32_range 0 (GetN nodes)) ∅.

(** The weight parameters of the engine are finite and not negative
    (they are 1.0 and 500.0 in the simulation context). *)
Definition sane_params (e : RoutingEngine D) : Prop :=
  nonneg (m_alpha e) ∧ finite (m_alpha e) ∧ nonneg (m_beta e) ∧ finite (m_beta e).

(** What the weights need of the ledger: a positive default SNR and
    trust values that are numbers and not negative. *)
Definition ledger_ok (l : BlockchainLedger D) : Prop :=
  dltb d0 (m_defaultSnr l) = true
  ∧ nonneg (m_defaultTrust l)
  ∧ map_Forall (fun _ m => nonneg (trust m)) (m_ledger l).

(** ** Agreement of two states up to the set of malicious nodes *)

(** Two ledgers agree up to their member [m_blackholes]. *)
Definition ledger_agree (l1 l2 : BlockchainLedger D) : Prop :=
  m_ledger l1 = m_ledger l2
  ∧ m_lossThreshold l1 = m_lossThreshold l2
  ∧ m_defaultTrust l1 = m_defaultTrust l2
  ∧ m_defaultSnr l1 = m_defaultSnr l2.

(** Two contexts agree up to [blackholeNodes]. *)
Definition ctx_agree (c1 c2 : SimulationContext D) : Prop :=
  nodes c1 = nodes c2
  ∧ ipv4Interfaces c1 = ipv4Interfaces c2
  ∧ ledger_agree (ledger c1) (ledger c2)
  ∧ routingEngine c1 = routingEngine c2
  ∧ activeFlows c1 = activeFlows c2
  ∧ maxRadioRange c1 = maxRadioRange c2
  ∧ defaultSnr c1 = defaultSnr c2
  ∧ useBlockchain c1 = useBlockchain c2.

Definition world_agree (w1 w2 : World D) : Prop :=
  globals_agree (fst w1) (fst w2) ∧ ctx_agree (snd w1) (snd w2).

(** Two outcomes agree: both return, in states that agree, or both throw
    the same exception. *)
Definition result_agree (r1 r2 : result (World D)) : Prop :=
  match r1, r2 with
  | Returns w1, Returns w2 => world_agree w1 w2
  | Throws e1, Throws e2 => e1 = e2
  | _, _ => False
  end.

(** The same for runs, which may have no defined result; of such a run
    nothing is said. *)
Definition outcome_agree (o1 o2 : option (result (World D))) : Prop :=
  match o1, o2 with
  | Some r1, Some r2 => result_agree r1 r2
  | _, _ => True
  end.

(** A state in which the heartbeat is defined: the identifiers fit
    [uint32_t], every node has an address, and the weights are fit for
    the path solver. *)
Definition healthy (w : World D) : Prop :=
  GetN (nodes (snd w)) ≤ UINT32_MAX
  ∧ GetN (nodes (snd w)) ≤ N.of_nat (length (ipv4Interfaces (snd w)))
  ∧ sane_params (routingEngine (snd w))
  ∧ ledger_ok (ledger (snd w)).

(** A move reports new positions of the [n] nodes there are. *)
Definition keeps_nodes (n : N) (ev : Event D) : Prop :=
  match ev with
  | EvMobility positions => GetN positions = n
  | _ => True
  end.

End Vocabulary.

(** ** Histories of a link *)

(** The calls of a sequence that address the link between [a] and [b],
    in either direction. *)
Definition on_link {D} (a b : N) (calls : list (Call D)) : list (Call D) :=
  filter (fun c => MakeKey (c_src c) (c_dst c) = MakeKey a b) calls.

(** What one call does to the record it addresses. *)
Definition call_effect {D} {Ar : Arith D} (m : LinkMetric D) (c : Call D) : LinkMetric D :=
  updated_metric (c_snr c) (c_isDrop c) (c_useBlockchain c) m.

(** The number of drops a sequence reports, and the number of those that
    are penalised (Proposed mode). *)
Definition count_drops {D} (calls : list (Call D)) : nat :=
  length (filter (fun c => c_isDrop c = true) calls).

Definition count_penalties {D} (calls : list (Call D)) : nat :=
  length (filter (fun c => c_isDrop c && c_useBlockchain c = true) calls).

(** The drop a callback reports on the link between [src] and [dst] in
    Proposed mode: [UpdateMetric(src, dst, 0.0, true, true)]. *)
Definition penalised_drop {D} {Ar : Arith D} (src dst : N) : Call D :=
  {| c_src := src; c_dst := dst; c_snr := d0; c_isDrop := true; c_useBlockchain := true |}.

(** A call of the ledger's mutating interface. *)
Inductive LedgerOp (D : Type) : Type :=
  | OpUpdateMetric (c : Call D)
  | OpSetBlackhole (nodeId : N).

Arguments OpUpdateMetric {D} c.
Arguments OpSetBlackhole {D} nodeId.

Definition apply_op {D} {Ar : Arith D} (gl : Globals * BlockchainLedger D) (op : LedgerOp D)
    : Globals * BlockchainLedger D :=
  match op with
  | OpUpdateMetric c => apply_call gl c
  | OpSetBlackhole nodeId => (fst gl, SetBlackhole nodeId (snd gl))
  end.

Definition apply_ops {D} {Ar : Arith D} (ops : list (LedgerOp D))
    (gl : Globals * BlockchainLedger D) : Globals * BlockchainLedger D :=
  fold_left apply_op ops gl.

(** The [UpdateMetric] calls among a sequence of operations. *)
Definition updates_of {D} (ops : list (LedgerOp D)) : list (Call D) :=
  omap (fun op => match op with OpUpdateMetric c => Some c | OpSetBlackhole _ => None end) ops.

(** ** Weights and hops *)

(** The weight lines 275 and 279 compute when none of the guards of lines
    252-263 fires. *)
Definition plain_cost {D} {Ar : Arith D} (e : RoutingEngine D) (ledger : BlockchainLedger D)
    (i j : N) : D :=
  if m_useBlockchain e
  then dadd (ddiv (m_alpha e) (GetSnr ledger i j)) (ddiv (m_beta e) (GetTrust ledger i j))
  else d1.

(** The number of hops of a node sequence. *)
Definition hops (p : list N) : nat := (length p - 1)%nat.

(** The nodes of a path that cost a route skip: those in the ground-truth
    set, the last node of the path apart. *)
Definition path_skips (blackholes : gset N) (path : list N) : nat :=
  length (filter (fun x => x ∈ blackholes) (take (length path - 1) path)).

(** ** Contexts of the trace sources *)

(** Decimal numerals: the character of a digit, the string of a list of
    digits and the number it denotes. *)
Definition digit_char (d : N) : ascii := ascii_of_N (48 + d).

Fixpoint digits_string (ds : list N) : string :=
  match ds with
  | [] => EmptyString
  | d :: ds' => String (digit_char d) (digits_string ds')
  end.

Definition digits_value (ds : list N) : N := fold_left (fun acc d => 10 * acc + d) ds 0.

(** The context ns-3 passes to a trace sink of the node whose index is
    written [ds]: the config path of the trace source, which starts with
    the index of the node in [NodeList]. *)
Definition node_context (ds : list N) (rest : string) : string :=
  ("/NodeList/" ++ digits_string ds ++ "/" ++ rest)%string.

(** ** What the events do to the state *)

(** What the ledger shares with the penalty counter: the pair the calls of
    [UpdateMetric] read and write. *)
Definition ledger_state {D} (w : World D) : N * BlockchainLedger D :=
  (g_trustPenalties (fst w), ledger (snd w)).

Definition calls_state {D} (gl : Globals * BlockchainLedger D) : N * BlockchainLedger D :=
  (g_trustPenalties (fst gl), snd gl).

(** A call as a callback issues it in a context whose routing mode is
    [ub]: in that mode, and a drop carries the SNR 0.0. *)
Definition callback_call {D} {Ar : Arith D} (ub : bool) (c : Call D) : Prop :=
  c_useBlockchain c = ub ∧ (c_isDrop c = true → c_snr c = d0).

(** [effect Q w w']: the ledger and the penalty counter of [w'] are those
    of [w] after a sequence of [UpdateMetric] calls that satisfy [Q]. *)
Definition effect {D} {Ar : Arith D} (Q : Call D → Prop) (w w' : World D) : Prop :=
  ∃ calls, Forall Q calls
           ∧ ledger_state w' = calls_state (apply_calls calls (fst w, ledger (snd w))).

(** The kinds of events. *)
Definition is_heartbeat {D} (ev : Event D) : bool :=
  match ev with EvHeartbeat => true | _ => false end.

Definition is_mobility {D} (ev : Event D) : bool :=
  match ev with EvMobility _ => true | _ => false end.

Definition is_reception {D} (ev : Event D) : bool :=
  match ev with EvPhyRxEnd _ => true | _ => false end.

(** Two contexts that differ in the ledger at most. *)
Definition same_but_ledger {D} (c1 c2 : SimulationContext D) : Prop :=
  nodes c1 = nodes c2
  ∧ ipv4Interfaces c1 = ipv4Interfaces c2
  ∧ routingEngine c1 = routingEngine c2
  ∧ activeFlows c1 = activeFlows c2
  ∧ blackholeNodes c1 = blackholeNodes c2
  ∧ maxRadioRange c1 = maxRadioRange c2
  ∧ defaultSnr c1 = defaultSnr c2
  ∧ useBlockchain c1 = useBlockchain c2.

(** The part of the state no event writes. *)
Definition fixed_part {D} (w w' : World D) : Prop :=
  ipv4Interfaces (snd w') = ipv4Interfaces (snd w)
  ∧ activeFlows (snd w') = activeFlows (snd w)
  ∧ blackholeNodes (snd w') = blackholeNodes (snd w)
  ∧ maxRadioRange (snd w') = maxRadioRange (snd w)
  ∧ defaultSnr (snd w') = defaultSnr (snd w)
  ∧ useBlockchain (snd w') = useBlockchain (snd w)
  ∧ m_alpha (routingEngine (snd w')) = m_alpha (routingEngine (snd w))
  ∧ m_beta (routingEngine (snd w')) = m_beta (routingEngine (snd w))
  ∧ m_useBlockchain (routingEngine (snd w')) = m_useBlockchain (routingEngine (snd w))
  ∧ m_defaultTrust (ledger (snd w')) = m_defaultTrust (ledger (snd w))
  ∧ m_defaultSnr (ledger (snd w')) = m_defaultSnr (ledger (snd w))
  ∧ m_blackholes (ledger (snd w')) = m_blackholes (ledger (snd w)).

(** ** The set-up *)

(** The end points of a list of flows. *)
Definition endpoints (flows : list (N * N)) : list N :=
  flat_map (fun flow => [fst flow; snd flow]) flows.

(** Every draw is below the number of elements left to choose from, when
    the choice starts at draw [k] from [n] elements. *)
Definition draws_in_range (rng : nat → N) (k : nat) (n : nat) : Prop :=
  ∀ j, (j < n)%nat → (N.to_nat (rng (k + j)%nat) < n - j)%nat.

(** ** Concrete inputs *)

(** A context whose node field is not a number. *)
Definition non_numeric_context : string :=
  "/NodeList/x/DeviceList/0/$ns3::WifiNetDevice/Phy/PhyRxEnd"%string.


(** Two drops reported in Baseline mode. *)
Definition baseline_drops : list (Call float) :=
  [{| c_src := 0; c_dst := 1; c_snr := 0%float; c_isDrop := true;
      c_useBlockchain := false |};
   {| c_src := 1; c_dst := 2; c_snr := 12%float; c_isDrop := true;
      c_useBlockchain := false |}].

(** The exact instance with a square root that can be run. *)
Definition exact_floor : Arith xq := exact floor_sqrt.

(** Scenario S1: three nodes in a row, 50 m apart, range 70 m. *)
Definition row_of_three : NodeContainer xq :=
  [Some {| vx := XFin 0; vy := XFin 0; vz := XFin 0 |};
   Some {| vx := XFin 50; vy := XFin 0; vz := XFin 0 |};
   Some {| vx := XFin 100; vy := XFin 0; vz := XFin 0 |}].

(** One penalised drop on the link between nodes 0 and 1. *)
Definition one_drop : list (Call xq) :=
  [{| c_src := 0; c_dst := 1; c_snr := XFin 0; c_isDrop := true;
      c_useBlockchain := true |}].

Definition context_engine : RoutingEngine xq := RoutingEngine_new (XFin 1) (XFin 500).


(** Two states of the simulation that differ in the set of malicious
    nodes only. *)
Definition sim_context (blackholes : gset N) : SimulationContext float :=
  {| nodes := [Some {| vx := 0; vy := 0; vz := 0 |};
               Some {| vx := 50; vy := 0; vz := 0 |};
               Some {| vx := 100; vy := 0; vz := 0 |}]%float;
     ipv4Interfaces := [167837697; 167837698; 167837699];
     ledger := BlockchainLedger_new;
     routingEngine := RoutingEngine_new 1%float 500%float;
     activeFlows := [(0, 2)];
     blackholeNodes := blackholes;
     maxRadioRange := 70%float;
     defaultSnr := 20%float;
     useBlockchain := true |}.

Definition l3_drop_then_heartbeat : list (Event float) :=
  [EvIpv4L3Drop "/NodeList/1/$ns3::Ipv4L3Protocol/Drop" 167837697; EvHeartbeat].



(** Scenario S1 as a state of the simulation in exact arithmetic, with a
    fresh ledger and the flow from node 0 to node 2. *)
Definition exact_context (blackholes : gset N) : SimulationContext xq :=
  {| nodes := row_of_three;
     ipv4Interfaces := [167837697; 167837698; 167837699];
     ledger := BlockchainLedger_new (Ar:=exact_floor);
     routingEngine := context_engine;
     activeFlows := [(0, 2)];
     blackholeNodes := blackholes;
     maxRadioRange := XFin 70;
     defaultSnr := XFin 20;
     useBlockchain := true |}.

(** The context of a frame node 2 receives, the context of a node the
    container does not have, and a packet from node 0 that node 1 drops
    at the IP layer. *)
Definition node_2_rx_context : string :=
  "/NodeList/2/DeviceList/0/$ns3::WifiNetDevice/Phy/PhyRxEnd"%string.

Definition unknown_node_context : string :=
  "/NodeList/7/DeviceList/0/$ns3::WifiNetDevice/Phy/PhyRxEnd"%string.

Definition l3_drop_at_1 : Event float :=
  EvIpv4L3Drop "/NodeList/1/$ns3::Ipv4L3Protocol/Drop" 167837697.

(** Two penalised drops on the link between nodes 0 and 1, one reported
    from each end. *)
Definition two_penalised_drops : list (Call float) :=
  [penalised_drop 0 1; penalised_drop 1 0].

(** * Properties of the link ledger *)

Section LedgerFacts.
Context {D : Type} {Ar : Arith D}.

Implicit Types (l : BlockchainLedger D) (g : Globals) (m : LinkMetric D).
Implicit Types (gl : Globals * BlockchainLedger D).

Lemma MakeKey_sym (a b : N) : MakeKey a b = MakeKey b a.
Proof. unfold MakeKey. by rewrite N.min_comm, N.max_comm. Qed.

Lemma UpdateMetric_ledger src dst snr isDrop ub gl :
  m_ledger (snd (UpdateMetric src dst snr isDrop ub gl))
  = <[MakeKey src dst :=
        updated_metric snr isDrop ub (metric_at (m_ledger (snd gl)) (MakeKey src dst))]>
      (m_ledger (snd gl)).
Proof.
  destruct gl as [g l]. unfold UpdateMetric, updated_metric.
  destruct isDrop, ub; simpl; reflexivity.
Qed.

Lemma UpdateMetric_globals src dst snr isDrop ub gl :
  fst (UpdateMetric src dst snr isDrop ub gl)
  = if isDrop && ub then incr_trustPenalties (fst gl) else fst gl.
Proof. destruct gl. unfold UpdateMetric. destruct isDrop, ub; reflexivity. Qed.

Lemma UpdateMetric_defaults src dst snr isDrop ub gl :
  let l' := snd (UpdateMetric src dst snr isDrop ub gl) in
  m_defaultTrust l' = m_defaultTrust (snd gl) ∧ m_defaultSnr l' = m_defaultSnr (snd gl)
  ∧ m_blackholes l' = m_blackholes (snd gl) ∧ m_lossThreshold l' = m_lossThreshold (snd gl).
Proof. destruct gl. unfold UpdateMetric. destruct isDrop, ub; simpl; auto. Qed.

Lemma UpdateMetric_at src dst snr isDrop ub gl :
  metric_at (m_ledger (snd (UpdateMetric src dst snr isDrop ub gl))) (MakeKey src dst)
  = updated_metric snr isDrop ub (metric_at (m_ledger (snd gl)) (MakeKey src dst)).
Proof. rewrite UpdateMetric_ledger. unfold metric_at at 1. by rewrite lookup_insert_eq. Qed.

Lemma UpdateMetric_other src dst snr isDrop ub gl key :
  key ≠ MakeKey src dst →
  m_ledger (snd (UpdateMetric src dst snr isDrop ub gl)) !! key = m_ledger (snd gl) !! key.
Proof. intros Hne. rewrite UpdateMetric_ledger. by rewrite lookup_insert_ne. Qed.

Lemma apply_calls_cons (c : Call D) calls gl :
  apply_calls (c :: calls) gl = apply_calls calls (apply_call gl c).
Proof. reflexivity. Qed.

Lemma apply_calls_app calls1 calls2 gl :
  apply_calls (calls1 ++ calls2) gl = apply_calls calls2 (apply_calls calls1 gl).
Proof. unfold apply_calls. by rewrite fold_left_app. Qed.

(** Every record of a ledger obtained by calls of [UpdateMetric] that
    satisfy [Q] satisfies [P], when [P] holds of [LinkMetric()] and of the
    records at the start, and is kept by every such update of a record. *)
Lemma ledger_records_ind (P : LinkMetric D → Prop) (Q : Call D → Prop) :
  P LinkMetric_new →
  (∀ c m, Q c → P m → P (updated_metric (c_snr c) (c_isDrop c) (c_useBlockchain c) m)) →
  ∀ calls gl,
    Forall Q calls →
    map_Forall (fun _ => P) (m_ledger (snd gl)) →
    map_Forall (fun _ => P) (m_ledger (snd (apply_calls calls gl))).
Proof.
  intros Hnew Hupd calls. induction calls as [|c calls IH]; intros gl HQ Hl; [done|].
  rewrite apply_calls_cons.
  inversion HQ as [|? ? Hc Hcalls]; subst.
  apply IH; [done|]. unfold apply_call.
  rewrite UpdateMetric_ledger. apply map_Forall_insert_2; [|done].
  apply Hupd; [done|]. unfold metric_at.
  destruct (m_ledger (snd gl) !! MakeKey (c_src c) (c_dst c)) as [m|] eqn:Em; simpl; [|done].
  by apply (Hl _ _ Em).
Qed.

Lemma apply_calls_defaults calls gl :
  m_defaultTrust (snd (apply_calls calls gl)) = m_defaultTrust (snd gl)
  ∧ m_defaultSnr (snd (apply_calls calls gl)) = m_defaultSnr (snd gl).
Proof.
  revert gl. induction calls as [|c calls IH]; intros gl; [done|].
  rewrite apply_calls_cons.
  destruct (IH (apply_call gl c)) as [-> ->]. unfold apply_call.
  by destruct (UpdateMetric_defaults (c_src c) (c_dst c) (c_snr c) (c_isDrop c)
                 (c_useBlockchain c) gl) as (-> & -> & _).
Qed.

(** C9: the ledger is keyed by the unordered pair: [GetTrust] and
    [GetSnr] give the same answer in both directions, a call of
    [UpdateMetric] has the same effect in both directions, and it leaves
    a record at [(min(a,b), max(a,b))] and changes no other key. *)
Theorem C9_symmetric_key (a b : N) (snr : D) (isDrop ub : bool) g l :
  GetTrust l a b = GetTrust l b a
  ∧ GetSnr l a b = GetSnr l b a
  ∧ UpdateMetric a b snr isDrop ub (g, l) = UpdateMetric b a snr isDrop ub (g, l)
  ∧ MakeKey a b = (N.min a b, N.max a b)
  ∧ is_Some (m_ledger (snd (UpdateMetric a b snr isDrop ub (g, l))) !! (N.min a b, N.max a b))
  ∧ ∀ key, key ≠ (N.min a b, N.max a b) →
      m_ledger (snd (UpdateMetric a b snr isDrop ub (g, l))) !! key = m_ledger l !! key.
Proof.
  split; [unfold GetTrust; by rewrite (MakeKey_sym a b)|].
  split; [unfold GetSnr; by rewrite (MakeKey_sym a b)|].
  split; [unfold UpdateMetric; by rewrite (MakeKey_sym a b)|].
  split; [done|].
  split.
  - rewrite UpdateMetric_ledger. unfold MakeKey. rewrite lookup_insert_eq. eauto.
  - intros key Hne. by rewrite UpdateMetric_other.
Qed.

End LedgerFacts.

Section Baseline.
Context {D : Type} {Ar : Arith D}.

Lemma baseline_globals (calls : list (Call D)) (gl : Globals * BlockchainLedger D) :
  Forall (fun c => c_useBlockchain c = false) calls →
  fst (apply_calls calls gl) = fst gl.
Proof.
  revert gl. induction calls as [|c calls IH]; intros gl HQ; [done|].
  inversion HQ as [|? ? Hc Hcalls]; subst.
  rewrite apply_calls_cons, IH by done. unfold apply_call.
  by rewrite UpdateMetric_globals, Hc, andb_false_r.
Qed.

(** C6: in Baseline mode ([useBlockchain = false]) no sequence of updates
    of a fresh ledger changes a counter or moves any trust away from 1.0;
    and one drop update whose SNR argument fails the test [snr > 0.0]
    increments [drops] of the record of that link, keeps its [trust] and
    its [movingAvgSnr], and leaves the counters and all other records as
    they were. *)
Theorem C6_baseline_immutability (calls : list (Call D)) (g : Globals)
    (src dst : N) (snr : D) (g2 : Globals) (l2 : BlockchainLedger D) :
  Forall (fun c => c_useBlockchain c = false) calls →
  dltb d0 snr = false →
  let gl := apply_calls calls (g, BlockchainLedger_new) in
  let gl2 := UpdateMetric src dst snr true false (g2, l2) in
  let old := metric_at (m_ledger l2) (MakeKey src dst) in
  (fst gl = g
   ∧ g_trustPenalties (fst gl) = g_trustPenalties g
   ∧ map_Forall (fun _ m => trust m = d1) (m_ledger (snd gl))
   ∧ ∀ a b, GetTrust (snd gl) a b = d1)
  ∧ (fst gl2 = g2
     ∧ m_ledger (snd gl2) !! MakeKey src dst
       = Some {| movingAvgSnr := movingAvgSnr old;
                 drops := u32_incr (drops old);
                 trust := trust old |}
     ∧ delete (MakeKey src dst) (m_ledger (snd gl2))
       = delete (MakeKey src dst) (m_ledger l2)).
Proof.
  intros Hcalls Hsnr gl gl2 old. split.
  - assert (Hg : fst gl = g) by (by apply (baseline_globals calls (g, _))).
    assert (Ht : map_Forall (fun _ m => trust m = d1) (m_ledger (snd gl))).
    { unfold gl.
      apply (ledger_records_ind (fun m => trust m = d1)
               (fun c => c_useBlockchain c = false)); try done.
      intros c m Hc Hm. unfold updated_metric. simpl.
      by rewrite Hc, andb_false_r. }
    repeat split; [done|by rewrite Hg|done|].
    intros a b. unfold GetTrust.
    destruct (m_ledger (snd gl) !! MakeKey a b) as [m|] eqn:Em.
    + by apply (Ht _ _ Em).
    + unfold gl. by destruct (apply_calls_defaults calls (g, BlockchainLedger_new)) as [-> _].
  - unfold gl2. rewrite UpdateMetric_globals, UpdateMetric_ledger. simpl.
    repeat split.
    + rewrite lookup_insert_eq. unfold updated_metric. simpl. by rewrite Hsnr.
    + by rewrite delete_insert_eq.
Qed.

End Baseline.

(** * The ledger in binary64 *)

Section LedgerBinary64.

Abbreviation Ledger64 := (BlockchainLedger float).

Lemma trust_level_penalty (t : float) :
  trust_level t → trust_level (dmax d0_3 (dmul t d0_5)).
Proof.
  intros [-> | [-> | ->]]; unfold trust_level; vm_compute; auto.
Qed.

Lemma trust_level_bounds (t : float) :
  trust_level t → dleb d0_3 t = true ∧ dleb t d1 = true ∧ dltb t d0_3 = false.
Proof. intros [-> | [-> | ->]]; vm_compute; auto. Qed.

Lemma trust_level_records (calls : list (Call float)) g :
  map_Forall (fun _ m => trust_level (trust m))
    (m_ledger (snd (apply_calls calls (g, BlockchainLedger_new)))).
Proof.
  apply (ledger_records_ind (fun m => trust_level (trust m)) (fun _ => True)).
  - left. reflexivity.
  - intros c m _ Hm. unfold updated_metric. simpl.
    destruct (c_isDrop c && c_useBlockchain c); [|done].
    by apply trust_level_penalty.
  - by apply Forall_true.
  - done.
Qed.

(** C1: after construction and after any sequence of calls of
    [UpdateMetric], with any arguments, every record of the ledger has
    [0.3 <= trust <= 1.0], and so has every answer of [GetTrust]. *)
Theorem C1_trust_bounds (calls : list (Call float)) (g : Globals) :
  let l := snd (apply_calls calls (g, BlockchainLedger_new)) in
  map_Forall (fun _ m => dleb d0_3 (trust m) = true ∧ dleb (trust m) d1 = true) (m_ledger l)
  ∧ ∀ a b, dleb d0_3 (GetTrust l a b) = true ∧ dleb (GetTrust l a b) d1 = true.
Proof.
  intros l. pose proof (trust_level_records calls g) as Hlev. fold l in Hlev.
  split.
  - intros key m Hm. destruct (trust_level_bounds _ (Hlev _ _ Hm)) as (? & ? & _). done.
  - intros a b. unfold GetTrust.
    destruct (m_ledger l !! MakeKey a b) as [m|] eqn:Em.
    + destruct (trust_level_bounds _ (Hlev _ _ Em)) as (? & ? & _). done.
    + unfold l.
      destruct (apply_calls_defaults calls (g, BlockchainLedger_new (D:=float))) as [-> _].
      vm_compute. done.
Qed.

Lemma drop_calls_trust (a b : N) (snrs : list float) (gl : Globals * Ledger64) :
  trust (metric_at (m_ledger (snd (apply_calls (drop_calls a b snrs) gl))) (MakeKey a b))
  = Nat.iter (length snrs) penalty (trust (metric_at (m_ledger (snd gl)) (MakeKey a b))).
Proof.
  revert gl. induction snrs as [|s snrs IH]; intros gl; [done|].
  simpl drop_calls. rewrite apply_calls_cons, IH. unfold apply_call. simpl c_src.
  simpl c_dst. rewrite UpdateMetric_at.
  change (length (s :: snrs)) with (S (length snrs)).
  rewrite Nat.iter_succ_r. reflexivity.
Qed.

Lemma penalty_iter (k : nat) : Nat.iter k penalty d1 = decay_curve k.
Proof.
  destruct k as [|[|k]]; [reflexivity..|].
  induction k as [|k IH]; [reflexivity|].
  rewrite Nat.iter_succ, IH. reflexivity.
Qed.

Lemma drop_calls_GetTrust (a b : N) (snrs : list float) (gl : Globals * Ledger64) :
  snrs ≠ [] →
  GetTrust (snd (apply_calls (drop_calls a b snrs) gl)) a b
  = trust (metric_at (m_ledger (snd (apply_calls (drop_calls a b snrs) gl))) (MakeKey a b)).
Proof.
  intros Hne. destruct (exists_last Hne) as (snrs' & s & ->).
  unfold drop_calls. rewrite map_app, apply_calls_app.
  change (map _ [s]) with [{| c_src := a; c_dst := b; c_snr := s;
                               c_isDrop := true; c_useBlockchain := true |}].
  rewrite apply_calls_cons. unfold apply_call. simpl.
  change (apply_calls [] ?x) with x.
  unfold GetTrust, metric_at. rewrite UpdateMetric_ledger, lookup_insert_eq. done.
Qed.

(** C2: on a link whose trust is 1.0, [k] drop updates in Proposed mode
    (any SNR arguments) leave trust at the [k]-th value of the sequence
    1.0, 0.5, 0.3, 0.3, ...; so from the third drop on (already from the
    second) trust is the floor 0.3, and one more drop never raises it. *)
Theorem C2_decay_curve (a b : N) (snrs : list float) (g : Globals) (l : Ledger64) :
  GetTrust l a b = d1 →
  let after := fun s => GetTrust (snd (apply_calls (drop_calls a b s) (g, l))) a b in
  after snrs = decay_curve (length snrs)
  ∧ ((3 ≤ length snrs)%nat → after snrs = d0_3)
  ∧ ∀ snr, dleb (after (snrs ++ [snr])) (after snrs) = true.
Proof.
  intros H1 after.
  assert (Hmetric : trust (metric_at (m_ledger l) (MakeKey a b)) = d1).
  { revert H1. unfold GetTrust, metric_at.
    destruct (m_ledger l !! MakeKey a b); simpl; [done|]. intros _. reflexivity. }
  assert (Hcurve : ∀ s, after s = decay_curve (length s)).
  { intros s. unfold after. destruct s as [|x s].
    - simpl. exact H1.
    - rewrite drop_calls_GetTrust by done.
      rewrite drop_calls_trust. simpl snd. by rewrite Hmetric, penalty_iter. }
  split; [apply Hcurve|]. split.
  - intros Hlen. rewrite Hcurve.
    destruct (length snrs) as [|[|k]]; [lia..|reflexivity].
  - intros snr. rewrite !Hcurve, length_app. simpl.
    destruct (length snrs) as [|[|k]]; vm_compute; reflexivity.
Qed.

(** The ratio test of [IsBlackhole] fails when no link is counted as
    low: [0.0 / y > 0.5] is false for every [y], also for [y = 0.0]
    (the quotient is a NaN). *)
Lemma zero_ratio_not_above_half (y : float) :
  dltb d0_5 (ddiv (d_of_u32 0) y) = false.
Proof.
  change (PrimFloat.ltb 0.5%float (PrimFloat.div 0%float y) = false).
  rewrite FloatAxioms.ltb_spec, FloatAxioms.div_spec.
  destruct (Prim2SF y) as [s|s| |s m e]; try destruct s; reflexivity.
Qed.

Lemma IsBlackhole_count_low (n : N) (entries : list (N * N * LinkMetric float)) (low total : N) :
  Forall (fun entry => dltb (trust entry.2) d0_3 = false) entries →
  fst (fold_left (IsBlackhole_step n) entries (low, total)) = low.
Proof.
  revert total. induction entries as [|[[n1 n2] m] entries IH]; intros total HF; [done|].
  inversion HF as [|? ? Hm Hrest]; subst. simpl in Hm. simpl.
  rewrite Hm. destruct ((n1 =? n) || (n2 =? n)); by apply IH.
Qed.

(** C10: on a ledger obtained from a fresh one by calls of
    [UpdateMetric], [IsBlackhole] answers [false] for every node: every
    stored trust is at least 0.3, and the classifier counts only the
    records with trust below 0.3. *)
Theorem C10_IsBlackhole_never (calls : list (Call float)) (g : Globals) (n : N) :
  let l := snd (apply_calls calls (g, BlockchainLedger_new)) in
  map_Forall (fun _ m => dltb (trust m) d0_3 = false) (m_ledger l)
  ∧ fst (IsBlackhole_count l n) = 0
  ∧ IsBlackhole l n = false.
Proof.
  intros l. pose proof (trust_level_records calls g) as Hlev. fold l in Hlev.
  assert (Hlow : map_Forall (fun _ m => dltb (trust m) d0_3 = false) (m_ledger l)).
  { intros key m Hm. by destruct (trust_level_bounds _ (Hlev _ _ Hm)) as (_ & _ & ?). }
  assert (Hcount : fst (IsBlackhole_count l n) = 0).
  { unfold IsBlackhole_count. apply IsBlackhole_count_low.
    apply Forall_forall. intros [key m] Hin. simpl.
    apply elem_of_map_to_list in Hin. by apply (Hlow _ _ Hin). }
  repeat split; [done..|].
  unfold IsBlackhole. destruct (IsBlackhole_count l n) as [low total].
  simpl in Hcount. subst low.
  by rewrite zero_ratio_not_above_half, andb_false_r.
Qed.

End LedgerBinary64.

(** * The moving average of the SNR *)

(** ** Order of the exact instance *)

Lemma Qcompare_Lt_iff (a b : Q) : Qcompare a b = Lt ↔ (a < b)%Q.
Proof. symmetry. apply Qlt_alt. Qed.

Lemma xq_ltb_fin (a b : Q) : xq_ltb (XFin a) (XFin b) = true ↔ (a < b)%Q.
Proof.
  simpl. rewrite <- Qcompare_Lt_iff. destruct (Qcompare a b); split; congruence.
Qed.

Lemma xq_ltb_fin_false (a b : Q) : xq_ltb (XFin a) (XFin b) = false ↔ (b <= a)%Q.
Proof.
  rewrite <- not_true_iff_false, xq_ltb_fin. split; [apply Qnot_lt_le|apply Qle_not_lt].
Qed.

Lemma xq_leb_fin (a b : Q) : xq_leb (XFin a) (XFin b) = true ↔ (a <= b)%Q.
Proof.
  unfold xq_leb. rewrite orb_true_iff, xq_ltb_fin. simpl. rewrite Qeq_bool_iff.
  rewrite Qle_lteq. tauto.
Qed.

Lemma xq_leb_trans (x y z : xq) :
  xq_leb x y = true → xq_leb y z = true → xq_leb x z = true.
Proof.
  destruct x as [a| | |], y as [b| | |], z as [c| | |]; try (vm_compute; congruence);
    try (intros; reflexivity).
  rewrite !xq_leb_fin. apply Qle_trans.
Qed.

Lemma xq_leb_refl (x : xq) : xq_nonneg x → xq_leb x x = true.
Proof.
  destruct x as [a| | |]; simpl; try done. intros _. apply xq_leb_fin. apply Qle_refl.
Qed.

(** ** The moving average stays between 0.0 and the greatest observation *)

Section MovingAverage.
Context {D : Type} {Ar : Arith D}.
Context {CL : CostLaws Ar} {WL : WeightLaws Ar} {RL : RoundingLaws Ar}.

Lemma pos_nonneg (x : D) : dltb d0 x = true → nonneg x.
Proof. apply (dlt_nonneg d0 x nonneg_d0). Qed.





End MovingAverage.


(** * Order laws of the arithmetic *)

(** ** The exact instance satisfies the laws *)

Section ExactLaws.
Variable sqrt_model : Q → Q.

Let Ax : Arith xq := exact sqrt_model.
#[local] Existing Instance Ax.

Lemma nonneg_xq (x : xq) : nonneg x ↔ xq_nonneg x.
Proof.
  unfold nonneg. change (xq_leb (XFin 0) x = true ↔ xq_nonneg x).
  destruct x as [a| | |]; simpl xq_nonneg.
  - apply xq_leb_fin.
  - split; [done|reflexivity].
  - split; [discriminate|done].
  - split; [discriminate|done].
Qed.

Lemma xq_add_fin (a b : Q) : ∃ r, xq_add (XFin a) (XFin b) = XFin r ∧ (r == a + b)%Q.
Proof. eexists. split; [reflexivity|]. apply Qred_correct. Qed.

Lemma xq_div_fin (a b : Q) :
  (0 < b)%Q → ∃ r, xq_div (XFin a) (XFin b) = XFin r ∧ (r == a / b)%Q.
Proof.
  intros Hb. unfold xq_div.
  assert (E : Qcompare b 0 = Gt) by (apply Qgt_alt; exact Hb).
  rewrite E. eexists. split; [reflexivity|]. apply Qred_correct.
Qed.

#[local] Instance exact_CostLaws : CostLaws Ax.
Proof.
  split.
  - reflexivity.
  - reflexivity.
  - intros x y Hx Hy. apply nonneg_xq in Hx, Hy. apply nonneg_xq.
    destruct x as [a| | |], y as [b| | |]; simpl in Hx, Hy; try done.
    change (dadd (XFin a) (XFin b)) with (xq_add (XFin a) (XFin b)).
    destruct (xq_add_fin a b) as (r & -> & Hr). simpl. lra.
  - intros x Hx. apply nonneg_xq in Hx. unfold dle. change (xq_ltb x x = false).
    destruct x as [a| | |]; try done. apply xq_ltb_fin_false. lra.
  - intros x y z Hx Hy Hz. apply nonneg_xq in Hx, Hy, Hz. unfold dle.
    change (xq_ltb y x = false → xq_ltb z y = false → xq_ltb z x = false).
    destruct x as [a| | |], y as [b| | |], z as [c| | |]; simpl in Hx, Hy, Hz; try done.
    rewrite !xq_ltb_fin_false. lra.
  - intros x y Hx Hy. apply nonneg_xq in Hx, Hy. unfold dle.
    change (xq_ltb x y = true → xq_ltb y x = false).
    destruct x as [a| | |], y as [b| | |]; simpl in Hx, Hy; try done.
    rewrite xq_ltb_fin, xq_ltb_fin_false. lra.
  - intros x Hx. apply nonneg_xq in Hx. unfold dle. change (xq_ltb x (XFin 0) = false).
    destruct x as [a| | |]; simpl in Hx; try done. apply xq_ltb_fin_false. lra.
  - intros x Hx. apply nonneg_xq in Hx. unfold dle. change (xq_ltb XPInf x = false).
    destruct x as [a| | |]; simpl in Hx; done.
  - intros x Hx. apply nonneg_xq in Hx.
    change (xq_eqb x XPInf = negb (xq_ltb x XPInf)).
    destruct x as [a| | |]; simpl in Hx; done.
  - intros x y w Hx Hy Hw. apply nonneg_xq in Hx, Hy, Hw. unfold dle.
    change (xq_ltb y x = false → xq_ltb (xq_add y w) (xq_add x w) = false).
    destruct x as [a| | |], y as [b| | |], w as [c| | |]; simpl in Hx, Hy, Hw; try done.
    destruct (xq_add_fin a c) as (r1 & -> & Hr1).
    destruct (xq_add_fin b c) as (r2 & -> & Hr2).
    rewrite !xq_ltb_fin_false. lra.
  - intros x w Hx Hw. apply nonneg_xq in Hx, Hw. unfold dle.
    change (xq_ltb (xq_add x w) x = false).
    destruct x as [a| | |], w as [c| | |]; simpl in Hx, Hw; try done.
    destruct (xq_add_fin a c) as (r1 & -> & Hr1).
    rewrite !xq_ltb_fin_false. lra.
  - reflexivity.
Qed.

#[local] Instance exact_WeightLaws : WeightLaws Ax.
Proof.
  split; try reflexivity.
  - intros x y Hx. apply nonneg_xq in Hx. rewrite nonneg_xq.
    change (xq_ltb x y = true → xq_nonneg y).
    destruct x as [a| | |], y as [b| | |]; simpl in Hx; try done;
      try (intros _; exact I); try (simpl; discriminate).
    rewrite xq_ltb_fin. simpl. lra.
  - intros x. change (xq_ltb (XFin 0) x = true → xq_leb x (XFin 0) = false).
    destruct x as [a| | |]; try done.
    rewrite xq_ltb_fin, <- not_true_iff_false, xq_leb_fin. lra.
  - intros x Hx. apply nonneg_xq in Hx.
    change (xq_leb x (XFin 0) = false → xq_ltb (XFin 0) x = true).
    destruct x as [a| | |]; simpl in Hx; try done.
    rewrite xq_ltb_fin, <- not_true_iff_false, xq_leb_fin. lra.
  - intros a b Ha Hfa. apply nonneg_xq in Ha. rewrite nonneg_xq.
    unfold finite in Hfa. change (xq_ltb a XPInf = true) in Hfa.
    change (xq_ltb (XFin 0) b = true → xq_nonneg (xq_div a b)).
    destruct a as [a| | |], b as [b| | |]; simpl in Ha; try done.
    rewrite xq_ltb_fin. intros Hb.
    destruct (xq_div_fin a b Hb) as (r & -> & Hr). simpl. rewrite Hr.
    apply Qle_shift_div_l; lra.
Qed.

Lemma xq_mul_fin (a b : Q) : ∃ r, xq_mul (XFin a) (XFin b) = XFin r ∧ (r == a * b)%Q.
Proof. eexists. split; [reflexivity|]. apply Qred_correct. Qed.

Lemma ema_fin (s a : Q) :
  ∃ r, ema (XFin s) (XFin a) = XFin r ∧ (r == (3 # 10) * s + (7 # 10) * a)%Q.
Proof.
  eexists. split; [reflexivity|].
  rewrite !Qred_correct.
  change (Qred (1 + Qred (- (3 # 10)))) with (7 # 10). reflexivity.
Qed.

#[local] Instance exact_RoundingLaws : RoundingLaws Ax.
Proof.
  split; try reflexivity.
  - intros x y Hx Hy. apply nonneg_xq in Hx, Hy. unfold dle.
    change (xq_ltb y x = false → xq_leb x y = true).
    destruct x as [a| | |], y as [b| | |]; simpl in Hx, Hy; try done.
    rewrite xq_ltb_fin_false, xq_leb_fin. done.
  - intros x y z Hx Hy Hz. apply nonneg_xq in Hx, Hy, Hz. unfold dle.
    change (xq_ltb z y = false → xq_ltb (xq_add x z) (xq_add x y) = false).
    destruct x as [a| | |], y as [b| | |], z as [c| | |]; simpl in Hx, Hy, Hz; try done.
    destruct (xq_add_fin a b) as (r1 & -> & Hr1).
    destruct (xq_add_fin a c) as (r2 & -> & Hr2).
    rewrite !xq_ltb_fin_false. lra.
  - intros c x Hc Hcf Hx. apply nonneg_xq in Hx. rewrite nonneg_xq.
    change (xq_ltb (XFin 0) c = true) in Hc. change (xq_ltb c XPInf = true) in Hcf.
    change (xq_nonneg (xq_mul c x)).
    destruct c as [c| | |], x as [a| | |]; simpl in Hx; try done.
    + apply xq_ltb_fin in Hc. destruct (xq_mul_fin c a) as (r & -> & Hr). simpl.
      rewrite Hr. apply Qmult_le_0_compat; lra.
    + apply xq_ltb_fin in Hc. unfold xq_mul. simpl.
      assert (E : Qcompare c 0 = Gt) by (by apply Qgt_alt). by rewrite E.
  - intros c x y Hc Hcf Hx Hy. apply nonneg_xq in Hx, Hy. unfold dle.
    change (xq_ltb (XFin 0) c = true) in Hc. change (xq_ltb c XPInf = true) in Hcf.
    change (xq_ltb y x = false → xq_ltb (xq_mul c y) (xq_mul c x) = false).
    destruct c as [c| | |]; try done. apply xq_ltb_fin in Hc.
    assert (E : Qcompare c 0 = Gt) by (by apply Qgt_alt).
    destruct x as [a| | |], y as [b| | |]; simpl in Hx, Hy; try done.
    + destruct (xq_mul_fin c a) as (r1 & -> & Hr1).
      destruct (xq_mul_fin c b) as (r2 & -> & Hr2).
      rewrite !xq_ltb_fin_false. intros Hab. rewrite Hr1, Hr2.
      apply Qmult_le_l; done.
    + intros _. unfold xq_mul. simpl. rewrite E.
      by destruct (Qred (c * a)).
    + intros _. unfold xq_mul. simpl. by rewrite E.
  - intros a b c Ha Hfa Hb Hc. apply nonneg_xq in Ha, Hc. unfold dle.
    change (xq_ltb a XPInf = true) in Hfa. change (xq_ltb (XFin 0) b = true) in Hb.
    change (xq_ltb c b = false → xq_ltb (xq_div a b) (xq_div a c) = false).
    destruct a as [a| | |]; simpl in Ha; try done.
    destruct b as [b| | |]; try done.
    + apply xq_ltb_fin in Hb. destruct c as [c| | |]; simpl in Hc; try done.
      * rewrite xq_ltb_fin_false. intros Hbc.
        assert (Hcpos : (0 < c)%Q) by lra.
        destruct (xq_div_fin a b Hb) as (r1 & -> & Hr1).
        destruct (xq_div_fin a c Hcpos) as (r2 & -> & Hr2).
        rewrite xq_ltb_fin_false, Hr1, Hr2.
        assert (Hq : (0 <= a / b)%Q) by (apply Qle_shift_div_l; lra).
        assert (E : (b * (a / b) == a)%Q) by (field; lra).
        apply Qle_shift_div_r; [done|].
        rewrite <- E at 1. rewrite (Qmult_comm (a / b) c).
        by apply Qmult_le_compat_r.
      * intros _. destruct (xq_div_fin a b Hb) as (r1 & -> & Hr1).
        simpl xq_div. rewrite xq_ltb_fin_false, Hr1. apply Qle_shift_div_l; lra.
    + destruct c as [c| | |]; simpl in Hc; done.
  - intros x Hx. apply nonneg_xq in Hx. unfold dle.
    change (xq_ltb x (ema x x) = false).
    destruct x as [a| | |]; simpl in Hx; try done.
    destruct (ema_fin a a) as (r & -> & Hr). rewrite xq_ltb_fin_false, Hr. lra.
Qed.

#[local] Instance exact_NoOverflow : NoOverflow Ax.
Proof.
  split.
  - reflexivity.
  - intros a b Ha Hfa. apply nonneg_xq in Ha. unfold finite in *.
    change (xq_ltb a XPInf = true) in Hfa.
    change (xq_ltb (XFin 0) b = true → xq_ltb (xq_div a b) XPInf = true).
    destruct a as [a| | |], b as [b| | |]; simpl in Ha; try done.
    rewrite xq_ltb_fin. intros Hb.
    destruct (xq_div_fin a b Hb) as (r & -> & Hr). reflexivity.
  - intros x y Hx Hy. apply nonneg_xq in Hx, Hy. unfold finite.
    change (xq_ltb x XPInf = true → xq_ltb y XPInf = true →
            xq_ltb (xq_add x y) XPInf = true).
    destruct x as [a| | |], y as [b| | |]; simpl in Hx, Hy; done.
Qed.

End ExactLaws.

(** * The path solver *)

(** ** Graphs, walks and their cost *)

Section Walks.
Context {D : Type} {Ar : Arith D}.

Lemma set_ascending_perm (X : gset N) : set_ascending X ≡ₚ elements X.
Proof. unfold set_ascending. apply merge_sort_Permutation. Qed.

Lemma elem_of_set_ascending (X : gset N) (x : N) : x ∈ set_ascending X ↔ x ∈ X.
Proof. rewrite set_ascending_perm. apply elem_of_elements. Qed.

Lemma NoDup_set_ascending (X : gset N) : NoDup (set_ascending X).
Proof. rewrite set_ascending_perm. apply NoDup_elements. Qed.

Lemma nbrs_dom (g : gmap N (gset N)) (u v : N) : v ∈ nbrs g u → u ∈ dom g.
Proof.
  unfold nbrs. destruct (g !! u) eqn:E; simpl; [|set_solver].
  intros _. apply elem_of_dom. eauto.
Qed.

Lemma last_cons (x : N) (p : list N) (d : N) : List.last (x :: p) d = List.last p x.
Proof.
  revert x d. induction p as [|y p IH]; intros x d; [done|].
  change (List.last (y :: p) d = List.last (y :: p) x). by rewrite !IH.
Qed.

Lemma cost_from_app w acc u p v :
  cost_from w acc u (p ++ [v]) = dadd (cost_from w acc u p) (weight w (List.last p u) v).
Proof.
  revert acc u. induction p as [|x p IH]; intros acc u; [done|].
  simpl app. simpl cost_from. by rewrite IH, last_cons.
Qed.

Lemma walk_shape g w s v p c :
  walk g w s v p c → ∃ rest, p = s :: rest ∧ List.last rest s = v.
Proof.
  induction 1 as [Hs|u v p c Hw (rest & -> & Hlast) Hv].
  - by exists [].
  - exists (rest ++ [v]). split; [done|]. by rewrite List.last_last.
Qed.

(** The cost carried by [walk] is the computed cost of its node sequence. *)
Lemma walk_path_cost g w s v p c : walk g w s v p c → path_cost w p = c.
Proof.
  induction 1 as [Hs|u v p c Hw IH Hv]; [done|].
  destruct (walk_shape _ _ _ _ _ _ Hw) as (rest & -> & Hlast).
  simpl in IH |- *. by rewrite cost_from_app, IH, Hlast.
Qed.



End Walks.

(** ** Consequences of the order laws *)

Section Order.
Context {D : Type} {Ar : Arith D} {CL : CostLaws Ar}.

Lemma dlt_dle_trans (x y z : D) :
  nonneg x → nonneg y → nonneg z → dltb x y = true → dle y z → dltb x z = true.
Proof.
  intros Hx Hy Hz Hxy Hyz. destruct (dltb x z) eqn:E; [done|].
  pose proof (dle_trans y z x Hy Hz Hx Hyz E) as H. unfold dle in H. congruence.
Qed.

Lemma dle_dlt_trans (x y z : D) :
  nonneg x → nonneg y → nonneg z → dle x y → dltb y z = true → dltb x z = true.
Proof.
  intros Hx Hy Hz Hxy Hyz. destruct (dltb x z) eqn:E; [done|].
  pose proof (dle_trans z x y Hz Hx Hy E Hxy) as H. unfold dle in H. congruence.
Qed.

Lemma dinf_not_finite : dltb dinf dinf = false.
Proof. apply (dle_refl dinf), nonneg_dinf. Qed.

Lemma walk_cost_nonneg g w s v p c :
  wf_graph g w → walk g w s v p c → nonneg c.
Proof.
  intros Hwf. induction 1 as [Hs|u v p c Hw IH Hv]; [apply nonneg_d0|].
  apply nonneg_dadd; [done|]. by apply (wf_weight _ _ Hwf).
Qed.

(** The minimum search: either no unvisited node is at a finite
    distance, or the node found is at a finite distance that no unvisited
    node undercuts. *)
Lemma find_min_spec (dist : gmap N D) (U : gset N) (u : N) (m : D) :
  (∀ v, v ∈ U → nonneg (dist_at dist v)) →
  find_min dist U = (u, m) →
  (u = UINT32_MAX ∧ m = dinf ∧ ∀ v, v ∈ U → dltb (dist_at dist v) dinf = false)
  ∨ (u ∈ U ∧ m = dist_at dist u ∧ finite m ∧ ∀ v, v ∈ U → dle (dist_at dist u) (dist_at dist v)).
Proof.
  intros Hok. unfold find_min.
  set (step := find_min_step dist).
  set (P := fun (S : N → Prop) (acc : N * D) =>
     (acc.1 = UINT32_MAX ∧ acc.2 = dinf ∧ ∀ v, S v → dltb (dist_at dist v) dinf = false)
     ∨ (S acc.1 ∧ acc.2 = dist_at dist acc.1 ∧ finite acc.2
        ∧ ∀ v, S v → dle (dist_at dist acc.1) (dist_at dist v))).
  assert (Hfold : ∀ L S acc,
             (∀ v, v ∈ L → nonneg (dist_at dist v)) →
             (∀ v, S v → nonneg (dist_at dist v)) →
             P S acc → P (fun v => S v ∨ v ∈ L) (fold_left step L acc)).
  { induction L as [|x L IH]; intros S acc HL HS HP.
    - simpl. destruct HP as [(? & ? & H3)|(H1 & ? & ? & H4)]; [left|right]; repeat split;
        try done; try (by left).
      + intros v [Hv|Hv]; [by apply H3|]. by apply elem_of_nil in Hv.
      + intros v [Hv|Hv]; [by apply H4|]. by apply elem_of_nil in Hv.
    - simpl fold_left.
      assert (Hx : nonneg (dist_at dist x)) by (apply HL; left).
      assert (HP' : P (fun v => S v ∨ v = x) (step acc x)).
      { destruct acc as [u0 m0]. unfold step, find_min_step.
        destruct (dltb (dist_at dist x) m0) eqn:E.
        - right. simpl. split; [by right|]. split; [done|].
          destruct HP as [(? & Hm & H3)|(H1 & Hm & Hf & H4)]; simpl in *; subst m0.
          + split; [exact E|]. intros v [Hv | ->]; [|by apply dle_refl].
            apply (dle_trans _ dinf); auto using nonneg_dinf.
            * by apply dinf_greatest.
            * by apply H3.
          + split.
            * apply (dlt_dle_trans _ (dist_at dist u0) _); auto using nonneg_dinf.
              apply dinf_greatest; auto.
            * intros v [Hv | ->]; [|by apply dle_refl].
              apply (dle_trans _ (dist_at dist u0)); auto. by apply dlt_dle; auto.
        - destruct HP as [(? & Hm & H3)|(H1 & Hm & Hf & H4)]; simpl in *; subst m0.
          + left. repeat split; try done. intros v [Hv | ->]; [by apply H3|done].
          + right. repeat split; try done; [by left|].
            intros v [Hv | ->]; [by apply H4|done]. }
      specialize (IH (fun v => S v ∨ v = x) (step acc x)).
      assert (Hgoal : P (fun v => (S v ∨ v = x) ∨ v ∈ L) (fold_left step L (step acc x))).
      { apply IH; [intros v Hv; apply HL; by right| |done].
        intros v [Hv | ->]; auto. }
      destruct Hgoal as [(? & ? & H3)|(H1 & ? & ? & H4)]; [left|right]; repeat split; try done.
      + intros v [Hv|Hv]; [apply H3; by left; left|].
        apply elem_of_cons in Hv as [-> | Hv]; apply H3; [left; by right|by right].
      + destruct H1 as [[H1|H1]|H1]; [by left|right; rewrite H1; left|right; by right].
      + intros v [Hv|Hv]; [apply H4; by left; left|].
        apply elem_of_cons in Hv as [-> | Hv]; apply H4; [left; by right|by right]. }
  intros Hres.
  specialize (Hfold (set_ascending U) (fun _ => False) (UINT32_MAX, dinf)).
  rewrite Hres in Hfold. simpl in Hfold.
  destruct Hfold as [(? & ? & H3)|(H1 & ? & ? & H4)].
  - intros v Hv. apply Hok. by apply elem_of_set_ascending.
  - done.
  - left. done.
  - left. repeat split; try done. intros v Hv. apply H3. right.
    by apply elem_of_set_ascending.
  - right. repeat split; try done.
    + destruct H1 as [[]|H1]. by apply elem_of_set_ascending.
    + intros v Hv. apply H4. right. by apply elem_of_set_ascending.
Qed.

End Order.

(** ** Relaxation *)

Section Relax.
Context {D : Type} {Ar : Arith D}.

Implicit Types (st : DijkstraState D) (w : gmap (N * N) D) (g : gmap N (gset N)).

Lemma relax_edge_spec w u st x :
  u ∉ unvisited st →
  unvisited (relax_edge w u st x) = unvisited st
  ∧ dist_at (dist (relax_edge w u st x)) u = dist_at (dist st) u
  ∧ (∀ v, v ≠ x → dist (relax_edge w u st x) !! v = dist st !! v
                  ∧ prev (relax_edge w u st x) !! v = prev st !! v)
  ∧ (improves w st u x →
       dist (relax_edge w u st x) !! x = Some (alt_of w st u x)
       ∧ prev (relax_edge w u st x) !! x = Some u)
  ∧ (¬ improves w st u x →
       dist (relax_edge w u st x) !! x = dist st !! x
       ∧ prev (relax_edge w u st x) !! x = prev st !! x).
Proof.
  intros Hu. unfold relax_edge, improves, alt_of, weight.
  destruct (decide (x ∈ unvisited st)) as [Hx|Hx].
  - destruct (dltb _ _) eqn:E; simpl.
    + assert (Hne : x ≠ u) by (intros ->; done).
      split_and!.
      * done.
      * unfold dist_at. by rewrite lookup_insert_ne.
      * intros v Hv. by rewrite !lookup_insert_ne.
      * intros _. by rewrite !lookup_insert_eq.
      * intros Hno. exfalso. by apply Hno.
    + split_and!; try done. intros [_ Hlt]. congruence.
  - split_and!; try done. intros [Hin _]. done.
Qed.

Lemma relax_fold_spec w u (L : list N) st :
  NoDup L → u ∉ unvisited st →
  let st' := fold_left (relax_edge w u) L st in
  unvisited st' = unvisited st
  ∧ ∀ v,
      (v ∈ L → improves w st u v →
         dist st' !! v = Some (alt_of w st u v) ∧ prev st' !! v = Some u)
      ∧ (¬ (v ∈ L ∧ improves w st u v) →
           dist st' !! v = dist st !! v ∧ prev st' !! v = prev st !! v).
Proof.
  revert st. induction L as [|x L IH]; intros st HND Hu; simpl.
  - split; [done|]. intros v. split; [|done]. intros Hv. by apply elem_of_nil in Hv.
  - apply NoDup_cons in HND as [HxL HND].
    destruct (relax_edge_spec w u st x Hu) as (HU1 & Hdu & Hother & Himp & Hnot).
    set (st1 := relax_edge w u st x) in *.
    assert (Hu1 : u ∉ unvisited st1) by (by rewrite HU1).
    destruct (IH st1 HND Hu1) as [HU' Hall].
    split; [by rewrite HU', HU1|].
    intros v. destruct (Hall v) as [Hupd Hsame].
    assert (Halt : ∀ y, y ≠ x → alt_of w st1 u y = alt_of w st u y).
    { intros y Hy. unfold alt_of. by rewrite Hdu. }
    assert (Himp_eq : ∀ y, y ≠ x → improves w st1 u y ↔ improves w st u y).
    { intros y Hy. unfold improves. rewrite HU1, Halt by done.
      unfold dist_at. destruct (Hother y Hy) as [-> _]. done. }
    destruct (decide (v = x)) as [->|Hvx].
    + (* the neighbour handled first *)
      destruct (Hsame ltac:(intros [? _]; done)) as [Hd Hp].
      split.
      * intros _ Hi. destruct (Himp Hi) as [? ?]. by rewrite Hd, Hp.
      * intros Hno. assert (Hni : ¬ improves w st u x).
        { intros Hi. apply Hno. split; [left|done]. }
        destruct (Hnot Hni) as [? ?]. by rewrite Hd, Hp.
    + destruct (Hother v Hvx) as [Hd1 Hp1].
      split.
      * intros Hv Hi. apply elem_of_cons in Hv as [?|Hv]; [done|].
        destruct (Hupd Hv) as [Hd Hp]; [by apply Himp_eq|].
        rewrite Hd, Hp, Halt by done. done.
      * intros Hno.
        destruct Hsame as [Hd Hp].
        { intros [Hv Hi]. apply Hno. split; [by right|by apply Himp_eq]. }
        by rewrite Hd, Hp.
Qed.

(** The effect of relaxing all edges out of [u] (lines 336-350), node by
    node. *)
Lemma relax_all_spec g w u st :
  u ∉ unvisited st →
  let st' := relax_all g w u st in
  unvisited st' = unvisited st
  ∧ ∀ v,
      (v ∈ nbrs g u → improves w st u v →
         dist st' !! v = Some (alt_of w st u v) ∧ prev st' !! v = Some u)
      ∧ (¬ (v ∈ nbrs g u ∧ improves w st u v) →
           dist st' !! v = dist st !! v ∧ prev st' !! v = prev st !! v).
Proof.
  intros Hu. unfold relax_all, nbrs.
  destruct (g !! u) as [X|] eqn:E; simpl.
  - destruct (relax_fold_spec w u (set_ascending X) st (NoDup_set_ascending X) Hu)
      as [HU Hall].
    split; [done|]. intros v. destruct (Hall v) as [H1 H2]. split.
    + intros Hv. apply H1. by apply elem_of_set_ascending.
    + intros Hno. apply H2. intros [Hv Hi]. apply Hno. split; [|done].
      by apply elem_of_set_ascending.
  - split; [done|]. intros v. split; [|done]. intros Hv. set_solver.
Qed.

End Relax.

(** ** The invariant of Dijkstra's loop *)

Section Dijkstra.
Context {D : Type} {Ar : Arith D} {CL : CostLaws Ar}.
Variables (g : gmap N (gset N)) (w : gmap (N * N) D) (s : N).
Hypothesis Hwf : wf_graph g w.
Hypothesis Hs : s ∈ dom g.

Implicit Types (st : DijkstraState D).

Lemma tree_walk_walk st v p :
  dist_at (dist st) s = d0 → tree_walk g w s st v p → walk g w s v p (dist_at (dist st) v).
Proof.
  intros H0. induction 1 as [|u v p Ht IH Hu Hv Hnp Hp Hd].
  - rewrite H0. by apply walk_start.
  - rewrite Hd. unfold alt_of. by apply walk_step.
Qed.

Lemma tree_walk_end st v p : tree_walk g w s st v p → v ∈ p.
Proof. destruct 1; [left|apply elem_of_app; right; left]. Qed.

Lemma tree_walk_visited st v p :
  tree_walk g w s st v p → ∀ x, x ∈ p → x = v ∨ x ∉ unvisited st.
Proof.
  induction 1 as [|u v p Ht IH Hu Hv Hnp Hp Hd]; intros x Hx.
  - left. by apply list_elem_of_singleton in Hx.
  - apply elem_of_app in Hx as [Hx|Hx].
    + right. destruct (IH x Hx) as [->|?]; done.
    + left. by apply list_elem_of_singleton in Hx.
Qed.

Lemma tree_walk_NoDup st v p : tree_walk g w s st v p → NoDup p.
Proof.
  induction 1 as [|u v p Ht IH Hu Hv Hnp Hp Hd].
  - apply NoDup_singleton.
  - apply NoDup_app. split; [done|]. split; [|apply NoDup_singleton].
    intros x Hx Hx'. apply list_elem_of_singleton in Hx'. by subst.
Qed.

Lemma tree_walk_dom st v p : tree_walk g w s st v p → ∀ x, x ∈ p → x ∈ dom g.
Proof.
  induction 1 as [|u v p Ht IH Hu Hv Hnp Hp Hd]; intros x Hx.
  - apply list_elem_of_singleton in Hx. by subst.
  - apply elem_of_app in Hx as [Hx|Hx]; [by apply IH|].
    apply list_elem_of_singleton in Hx. subst x. by apply (wf_nbrs _ _ Hwf u).
Qed.

(** A tree walk survives a change of state that touches none of its
    nodes and visits more nodes. *)
Lemma tree_walk_mono st st' v p :
  tree_walk g w s st v p →
  unvisited st' ⊆ unvisited st →
  (∀ x, x ∈ p → dist_at (dist st') x = dist_at (dist st) x
                ∧ prev_at (prev st') x = prev_at (prev st) x) →
  tree_walk g w s st' v p.
Proof.
  intros Ht HU. induction Ht as [|u v p Ht IH Hu Hv Hnp Hp Hd]; intros Hsame.
  - constructor.
  - assert (Hin_v : v ∈ p ++ [v]) by (apply elem_of_app; right; left).
    assert (Hin_u : u ∈ p ++ [v]).
    { apply elem_of_app; left. by eapply tree_walk_end. }
    destruct (Hsame v Hin_v) as [Hdv Hpv]. destruct (Hsame u Hin_u) as [Hdu _].
    apply (tw_step g w s st' u); try done.
    + apply IH. intros x Hx. apply Hsame. apply elem_of_app. by left.
    + intros Hin. apply Hu. by apply HU.
    + by rewrite Hpv.
    + unfold alt_of in *. by rewrite Hdv, Hdu.
Qed.

Lemma tree_walk_length st v p : tree_walk g w s st v p → (length p ≤ size (dom g))%nat.
Proof.
  intros Ht. unfold size, set_size. simpl.
  apply submseteq_length, NoDup_submseteq; [by eapply tree_walk_NoDup|].
  intros x Hx. apply elem_of_elements. by eapply tree_walk_dom.
Qed.

(** [reconstruct] returns the tree walk of the node it starts from. *)
Lemma reconstruct_tree_walk st v p (fuel : nat) (acc : list N) :
  prev_at (prev st) s = UINT32_MAX →
  tree_walk g w s st v p → (length p < fuel)%nat →
  reconstruct (prev st) fuel v acc = Some (p ++ acc).
Proof.
  intros Hsrc Ht. revert fuel acc.
  assert (Hmax : ∀ x, x ∈ dom g → (x =? UINT32_MAX) = false).
  { intros x Hx. apply N.eqb_neq. intros ->. by apply (wf_max _ _ Hwf). }
  induction Ht as [|u v p Ht IH Hu Hv Hnp Hp Hd]; intros fuel acc Hlen.
  - destruct fuel as [|[|fuel]]; simpl in Hlen; [lia..|].
    simpl. by rewrite (Hmax s Hs), Hsrc, N.eqb_refl.
  - rewrite length_app in Hlen. simpl in Hlen.
    destruct fuel as [|fuel]; [lia|]. simpl.
    rewrite (Hmax v) by (by apply (wf_nbrs _ _ Hwf u)).
    rewrite Hp, IH by lia. by rewrite <- app_assoc.
Qed.

Lemma dijkstra_init_dist (v : N) :
  v ∈ dom g →
  dist_at (dist (dijkstra_init g s)) v = if decide (v = s) then d0 else dinf.
Proof.
  intros Hv. unfold dist_at, dijkstra_init. simpl.
  destruct (decide (v = s)) as [->|Hne].
  - by rewrite lookup_insert_eq.
  - rewrite lookup_insert_ne by done.
    by rewrite (proj2 (lookup_gset_to_gmap_Some _ _ _ _) (conj Hv eq_refl)).
Qed.

Lemma dijkstra_init_prev (v : N) :
  v ∈ dom g → prev_at (prev (dijkstra_init g s)) v = UINT32_MAX.
Proof.
  intros Hv. unfold prev_at, dijkstra_init. simpl.
  by rewrite (proj2 (lookup_gset_to_gmap_Some _ _ _ _) (conj Hv eq_refl)).
Qed.

Lemma Inv_init : Inv g w s (dijkstra_init g s).
Proof.
  split.
  - done.
  - intros v Hv. rewrite dijkstra_init_dist by done.
    destruct (decide (v = s)); [apply nonneg_d0|apply nonneg_dinf].
  - rewrite dijkstra_init_dist by done. by rewrite decide_True.
  - by apply dijkstra_init_prev.
  - intros v Hv. rewrite dijkstra_init_dist by done.
    destruct (decide (v = s)) as [->|Hne]; [intros _; eexists; constructor|].
    unfold finite. by rewrite dinf_not_finite.
  - intros u v Hu Hn. done.
  - intros u q c Hu Hn. done.
  - intros u Hu Hn. done.
  - intros _ v Hv Hne. rewrite dijkstra_init_dist by done.
    rewrite decide_False by done. apply dinf_not_finite.
  - done.
Qed.

(** A walk from a visited source to an unvisited node passes an unvisited
    node whose recorded distance is at most the cost of the walk. *)
Lemma crossing st t q c :
  Inv g w s st → s ∉ unvisited st → walk g w s t q c → t ∈ unvisited st →
  ∃ y, y ∈ unvisited st ∧ dle (dist_at (dist st) y) c.
Proof.
  intros HI Hsv Hw. induction Hw as [|u v p c Hw IH Hv]; intros Ht; [done|].
  assert (Hc : nonneg c) by (by eapply walk_cost_nonneg).
  assert (Hwt : nonneg (weight w u v)) by (by apply (wf_weight _ _ Hwf)).
  destruct (decide (u ∈ unvisited st)) as [Hu|Hu].
  - destruct (IH Hu) as (y & Hy & Hle). exists y. split; [done|].
    assert (Hyd : y ∈ dom g) by (by apply (inv_unvisited _ _ _ _ HI)).
    apply (dle_trans _ c); auto using nonneg_dadd, dadd_infl.
    by apply (inv_nonneg _ _ _ _ HI).
  - exists v. split; [done|].
    assert (Hud : u ∈ dom g) by (by eapply nbrs_dom).
    assert (Hvd : v ∈ dom g) by (by apply (wf_nbrs _ _ Hwf u)).
    pose proof (inv_nonneg _ _ _ _ HI u Hud) as Hnu.
    apply (dle_trans _ (alt_of w st u v)); auto using nonneg_dadd.
    + by apply (inv_nonneg _ _ _ _ HI).
    + unfold alt_of. by apply nonneg_dadd.
    + by apply (inv_relaxed _ _ _ _ HI).
    + unfold alt_of. apply dadd_mono; auto. by apply (inv_optimal _ _ _ _ HI u p).
Qed.

(** While the source is unvisited no other node is at a finite distance. *)
Lemma source_first st u :
  Inv g w s st → u ∈ unvisited st → finite (dist_at (dist st) u) → s ∈ unvisited st → u = s.
Proof.
  intros HI Hu Hfin Hsu.
  destruct (decide (unvisited st = dom g)) as [Hall|Hnot].
  - destruct (decide (u = s)) as [|Hne]; [done|].
    pose proof (inv_fresh _ _ _ _ HI Hall u (inv_unvisited _ _ _ _ HI u Hu) Hne) as Hinf.
    unfold finite in Hfin. congruence.
  - by destruct (inv_started _ _ _ _ HI Hnot).
Qed.

(** The unvisited node of least finite distance is at its final distance. *)
Lemma min_optimal st u :
  Inv g w s st → u ∈ unvisited st → finite (dist_at (dist st) u) →
  (∀ v, v ∈ unvisited st → dle (dist_at (dist st) u) (dist_at (dist st) v)) →
  ∀ q c, walk g w s u q c → dle (dist_at (dist st) u) c.
Proof.
  intros HI Hu Hfin Hmin q c Hw.
  assert (Hc : nonneg c) by (by eapply walk_cost_nonneg).
  destruct (decide (s ∈ unvisited st)) as [Hsu|Hsu].
  - rewrite (source_first st u HI Hu Hfin Hsu), (inv_src_dist _ _ _ _ HI). by apply d0_least.
  - destruct (crossing st u q c HI Hsu Hw Hu) as (y & Hy & Hle).
    assert (Hyd : y ∈ dom g) by (by apply (inv_unvisited _ _ _ _ HI)).
    apply (dle_trans _ (dist_at (dist st) y)); auto.
    + apply (inv_nonneg _ _ _ _ HI). by apply (inv_unvisited _ _ _ _ HI).
    + by apply (inv_nonneg _ _ _ _ HI).
Qed.

(** One iteration of the loop body that does not leave the loop keeps
    the invariant. *)
Lemma Inv_step st u :
  Inv g w s st → u ∈ unvisited st → finite (dist_at (dist st) u) →
  (∀ v, v ∈ unvisited st → dle (dist_at (dist st) u) (dist_at (dist st) v)) →
  Inv g w s (relax_all g w u
         {| dist := dist st; prev := prev st; unvisited := unvisited st ∖ {[u]} |}).
Proof.
  intros HI Hu Hfin Hmin.
  set (st1 := {| dist := dist st; prev := prev st; unvisited := unvisited st ∖ {[u]} |}).
  assert (Hu1 : u ∉ unvisited st1) by (simpl; set_solver).
  destruct (relax_all_spec g w u st1 Hu1) as [HU Hall].
  set (st' := relax_all g w u st1) in *.
  assert (Hud : u ∈ dom g) by (by apply (inv_unvisited _ _ _ _ HI)).
  assert (Hnu : nonneg (dist_at (dist st) u)) by (by apply (inv_nonneg _ _ _ _ HI)).
  (* nodes outside the new unvisited set keep their entries *)
  assert (F1 : ∀ v, v ∉ unvisited st ∖ {[u]} →
                dist_at (dist st') v = dist_at (dist st) v
                ∧ prev_at (prev st') v = prev_at (prev st) v).
  { intros v Hv. destruct (Hall v) as [_ Hsame].
    destruct Hsame as [Hd Hp]; [intros [_ [Hin _]]; done|].
    unfold dist_at, prev_at. by rewrite Hd, Hp. }
  (* every node is either untouched or improved through [u] *)
  assert (F2 : ∀ v,
             (dltb (alt_of w st u v) (dist_at (dist st) v) = true
              ∧ v ∈ nbrs g u ∧ v ∈ unvisited st ∖ {[u]}
              ∧ dist_at (dist st') v = alt_of w st u v ∧ prev_at (prev st') v = u)
             ∨ (dist_at (dist st') v = dist_at (dist st) v
                ∧ prev_at (prev st') v = prev_at (prev st) v
                ∧ (v ∈ nbrs g u → v ∈ unvisited st ∖ {[u]} →
                   dltb (alt_of w st u v) (dist_at (dist st) v) = false))).
  { intros v. destruct (Hall v) as [Hupd Hsame].
    destruct (decide (v ∈ nbrs g u)) as [Hn|Hn];
      [destruct (decide (v ∈ unvisited st ∖ {[u]})) as [Hv|Hv];
         [destruct (dltb (alt_of w st u v) (dist_at (dist st) v)) eqn:E|]|].
    - left. destruct Hupd as [Hd Hp]; [done|by split|].
      unfold dist_at, prev_at. rewrite Hd, Hp. done.
    - right. destruct Hsame as [Hd Hp].
      { intros [_ [_ Hlt]]. change (alt_of w st1 u v) with (alt_of w st u v) in Hlt.
        simpl in Hlt. congruence. }
      unfold dist_at, prev_at. by rewrite Hd, Hp.
    - right. destruct (F1 v Hv) as [? ?]. done.
    - right. destruct Hsame as [Hd Hp]; [intros [? _]; done|].
      unfold dist_at, prev_at. by rewrite Hd, Hp. }
  assert (Hsrc : s ∉ unvisited st ∖ {[u]}).
  { intros Hin. apply elem_of_difference in Hin as [Hin Hne].
    apply Hne. apply elem_of_singleton. symmetry. by apply (source_first st u). }
  assert (Halt' : ∀ x v, x ∉ unvisited st ∖ {[u]} → alt_of w st' x v = alt_of w st x v).
  { intros x v Hx. unfold alt_of. by destruct (F1 x Hx) as [-> _]. }
  split.
  - rewrite HU. simpl. pose proof (inv_unvisited _ _ _ _ HI). set_solver.
  - intros v Hv. destruct (F2 v) as [(_ & Hn & _ & -> & _)|(-> & _)].
    + unfold alt_of. apply nonneg_dadd; [done|]. by apply (wf_weight _ _ Hwf).
    + by apply (inv_nonneg _ _ _ _ HI).
  - destruct (F1 s Hsrc) as [-> _]. by apply (inv_src_dist _ _ _ _ HI).
  - destruct (F1 s Hsrc) as [_ ->]. by apply (inv_src_prev _ _ _ _ HI).
  - intros v Hv Hfv.
    assert (Hkeep : ∀ x p, tree_walk g w s st x p → x ∉ unvisited st ∖ {[u]} ∨
                      (dist_at (dist st') x = dist_at (dist st) x
                       ∧ prev_at (prev st') x = prev_at (prev st) x) →
                    tree_walk g w s st' x p).
    { intros x p Ht Hx. apply (tree_walk_mono st); [done|rewrite HU; simpl; set_solver|].
      intros y Hy. destruct (tree_walk_visited st x p Ht y Hy) as [->|Hy'].
      - destruct Hx as [Hx|Hx]; [by apply F1|done].
      - apply F1. set_solver. }
    destruct (F2 v) as [(Hlt & Hn & Hvu & Hd & Hp)|(Hd & Hp & _)].
    + destruct (inv_tree _ _ _ _ HI u Hud Hfin) as [p0 Ht0].
      exists (p0 ++ [v]). apply (tw_step g w s st' u); try done.
      * apply Hkeep; [done|]. left. set_solver.
      * rewrite HU. simpl. set_solver.
      * intros Hin. destruct (tree_walk_visited st u p0 Ht0 v Hin) as [->|Hnv]; set_solver.
      * rewrite Halt' by set_solver. done.
    + rewrite Hd in Hfv. destruct (inv_tree _ _ _ _ HI v Hv Hfv) as [p Ht].
      exists p. apply Hkeep; [done|]. by right.
  - intros x v Hx Hxu Hn Hvu. rewrite HU in Hxu, Hvu. simpl in Hxu, Hvu.
    rewrite Halt' by done.
    assert (Hvd : v ∈ dom g) by (by apply (wf_nbrs _ _ Hwf x)).
    assert (Hnx : nonneg (dist_at (dist st) x)) by (by apply (inv_nonneg _ _ _ _ HI)).
    assert (Hnv : nonneg (dist_at (dist st) v)) by (by apply (inv_nonneg _ _ _ _ HI)).
    assert (Hnalt : ∀ y, v ∈ nbrs g y → y ∈ dom g → nonneg (alt_of w st y v)).
    { intros y Hy Hyd. unfold alt_of. apply nonneg_dadd; [by apply (inv_nonneg _ _ _ _ HI)|].
      by apply (wf_weight _ _ Hwf). }
    destruct (decide (x = u)) as [->|Hne].
    + destruct (F2 v) as [(_ & _ & _ & -> & _)|(-> & _ & Hno)].
      * apply dle_refl. by apply Hnalt.
      * by apply Hno.
    + assert (Hxv : x ∉ unvisited st) by set_solver.
      assert (Hvv : v ∈ unvisited st) by set_solver.
      pose proof (inv_relaxed _ _ _ _ HI x v Hx Hxv Hn Hvv) as Hold.
      destruct (F2 v) as [(Hlt & Hnu' & _ & -> & _)|(-> & _)]; [|done].
      apply (dle_trans _ (dist_at (dist st) v)); auto.
      apply dlt_dle; auto.
  - intros x q c Hx Hxu Hw. rewrite HU in Hxu. simpl in Hxu.
    destruct (F1 x Hxu) as [-> _].
    destruct (decide (x = u)) as [->|Hne]; [by apply (min_optimal st u HI Hu Hfin Hmin q)|].
    apply (inv_optimal _ _ _ _ HI x q); [done| |done]. set_solver.
  - intros x Hx Hxu. rewrite HU in Hxu. simpl in Hxu.
    destruct (F1 x Hxu) as [-> _].
    destruct (decide (x = u)) as [->|Hne]; [done|].
    apply (inv_visited_finite _ _ _ _ HI); [done|]. set_solver.
  - rewrite HU. simpl. intros Heq. exfalso.
    assert (u ∈ unvisited st ∖ {[u]}) by (by rewrite Heq). set_solver.
  - rewrite HU. simpl. done.
Qed.

(** With one unit of fuel for each unvisited node the loop is left by
    one of its own exits, in a state that satisfies the invariant. *)
Lemma dijkstra_loop_spec (dest : N) (fuel : nat) st :
  Inv g w s st → (size (unvisited st) ≤ fuel)%nat →
  Inv g w s (dijkstra_loop g w dest fuel st) ∧ Done dest (dijkstra_loop g w dest fuel st).
Proof.
  revert st. induction fuel as [|fuel IH]; intros st HI Hsize.
  - simpl. split; [done|]. left. intros v Hv.
    assert (Hempty : unvisited st = ∅).
    { apply leibniz_equiv, size_empty_inv. lia. }
    rewrite Hempty in Hv. set_solver.
  - simpl. destruct (decide (unvisited st = ∅)) as [Hempty|Hne].
    { split; [done|]. left. intros v Hv. rewrite Hempty in Hv. set_solver. }
    destruct (find_min (dist st) (unvisited st)) as [u m] eqn:Emin.
    apply find_min_spec in Emin;
      [|intros v Hv; apply (inv_nonneg _ _ _ _ HI); by apply (inv_unvisited _ _ _ _ HI)].
    destruct Emin as [(-> & -> & Hinf)|(Hu & -> & Hfin & Hmin)].
    + rewrite N.eqb_refl. simpl. split; [done|]. by left.
    + assert (Hud : u ∈ dom g) by (by apply (inv_unvisited _ _ _ _ HI)).
      assert (Hmax : (u =? UINT32_MAX) = false).
      { apply N.eqb_neq. intros ->. by apply (wf_max _ _ Hwf). }
      rewrite Hmax, (deqb_dinf _ (inv_nonneg _ _ _ _ HI u Hud)). simpl.
      unfold finite in Hfin. rewrite Hfin. simpl.
      destruct (u =? dest) eqn:Edest.
      * apply N.eqb_eq in Edest. subst dest. split; [done|]. right. done.
      * apply IH; [by apply Inv_step|].
        destruct (relax_all_spec g w u
                    {| dist := dist st; prev := prev st;
                       unvisited := unvisited st ∖ {[u]} |}) as [-> _];
          [simpl; set_solver|]. simpl.
        rewrite size_difference by set_solver. rewrite size_singleton. lia.
Qed.

End Dijkstra.

(** ** [CalculatePath] on a well-formed graph *)

Section CalculatePathSpec.
Context {D : Type} {Ar : Arith D} {CL : CostLaws Ar}.

(** [CalculatePath] returns, and what it returns is empty exactly when an
    endpoint is missing from the graph or no walk of finite cost joins
    the endpoints; otherwise it is a walk from the source to the
    destination of least cost. *)
Lemma CalculatePath_wf (e : RoutingEngine D) (source dest : N) :
  wf_graph (m_graph e) (m_weights e) →
  ∃ path,
    CalculatePath e source dest = Some path
    ∧ (path = [] ↔
         source ∉ dom (m_graph e) ∨ dest ∉ dom (m_graph e)
         ∨ ¬ ∃ q c, walk (m_graph e) (m_weights e) source dest q c ∧ finite c)
    ∧ (path ≠ [] →
         walk (m_graph e) (m_weights e) source dest path (path_cost (m_weights e) path)
         ∧ finite (path_cost (m_weights e) path)
         ∧ ∀ q c, walk (m_graph e) (m_weights e) source dest q c →
                  dle (path_cost (m_weights e) path) c).
Proof.
  intros Hwf. unfold CalculatePath.
  set (g := m_graph e) in *. set (w := m_weights e) in *.
  destruct (decide (source ∈ dom g ∧ dest ∈ dom g)) as [[Hs Hd]|Hno].
  2:{ exists []. split; [done|]. split; [|done]. split; [|done]. intros _.
      destruct (decide (source ∈ dom g)); [|by left].
      destruct (decide (dest ∈ dom g)); [|right; by left].
      exfalso. by apply Hno. }
  destruct (dijkstra_loop_spec g w source Hwf Hs dest (size (dom g))
              (dijkstra_init g source) (Inv_init g w source Hs)) as [HI HD]; [done|].
  set (st := dijkstra_loop g w dest (size (dom g)) (dijkstra_init g source)) in *.
  pose proof (inv_nonneg _ _ _ _ HI dest Hd) as Hnd.
  rewrite (deqb_dinf _ Hnd), negb_involutive.
  destruct (dltb (dist_at (dist st) dest) dinf) eqn:Efin.
  - (* the destination is at a finite distance *)
    destruct (inv_tree _ _ _ _ HI dest Hd Efin) as [p Ht].
    pose proof (tree_walk_walk g w source Hs st dest p (inv_src_dist _ _ _ _ HI) Ht) as Hw.
    exists p. split.
    { rewrite (reconstruct_tree_walk g w source Hwf Hs st dest p);
        [by rewrite app_nil_r|by apply (inv_src_prev _ _ _ _ HI)|done|].
      pose proof (tree_walk_length g w source Hwf Hs st dest p Ht). lia. }
    rewrite (walk_path_cost _ _ _ _ _ _ Hw).
    assert (Hp : p ≠ []) by (destruct (walk_shape _ _ _ _ _ _ Hw) as (? & -> & _); done).
    split.
    + split; [done|]. intros [?|[?|Hnone]]; [done..|]. exfalso. apply Hnone. eauto.
    + intros _. split; [done|]. split; [done|]. intros q c Hq.
      destruct HD as [Hinf|(Hdu & _ & Hmin)].
      * apply (inv_optimal _ _ _ _ HI dest q); [done| |done].
        intros Hdu. specialize (Hinf dest Hdu). congruence.
      * by apply (min_optimal g w source Hwf st dest HI Hdu Efin Hmin q).
  - (* the destination is at distance infinity *)
    exists []. split; [done|]. split; [|done]. split; [|done]. intros _.
    right. right. intros (q & c & Hq & Hc).
    destruct HD as [Hinf|(_ & Hfin & _)]; [|unfold finite in Hfin; congruence].
    destruct (decide (dest ∈ unvisited st)) as [Hdu|Hdu].
    + assert (Hsu : source ∉ unvisited st).
      { intros Hsu. specialize (Hinf source Hsu).
        rewrite (inv_src_dist _ _ _ _ HI) in Hinf.
        pose proof (@d0_finite _ _ CL) as H0. unfold finite in H0. congruence. }
      destruct (crossing g w source Hwf st dest q c HI Hsu Hq Hdu) as (y & Hy & Hle).
      assert (Hyd : y ∈ dom g) by (by apply (inv_unvisited _ _ _ _ HI)).
      assert (Hfy : dltb (dist_at (dist st) y) dinf = true).
      { apply (dle_dlt_trans _ c); auto using nonneg_dinf.
        - by apply (inv_nonneg _ _ _ _ HI).
        - by eapply walk_cost_nonneg. }
      specialize (Hinf y Hy). congruence.
    + pose proof (inv_visited_finite _ _ _ _ HI dest Hd Hdu) as Hfin.
      unfold finite in Hfin. congruence.
Qed.

End CalculatePathSpec.

(** * The topology builder *)

Section BuildGraphFacts.
Context {D : Type} {Ar : Arith D}.

Implicit Types (e : RoutingEngine D) (ledger : BlockchainLedger D) (nodes : NodeContainer D).

Lemma BuildGraph_pair_unfold nodes ledger maxRange ds i j e :
  BuildGraph_pair nodes ledger maxRange ds i j e
  = if within_range nodes maxRange i j then
      set_topology e
        (graph_insert j i (graph_insert i j (m_graph e)))
        (<[(j, i) := edge_cost e ledger ds i j]>
           (<[(i, j) := edge_cost e ledger ds i j]> (m_weights e)))
    else e.
Proof.
  unfold BuildGraph_pair, within_range.
  destruct (GetMobility nodes i), (GetMobility nodes j); done.
Qed.

Lemma elem_of_u32_range (lo hi x : N) : x ∈ u32_range lo hi ↔ lo ≤ x < hi.
Proof.
  unfold u32_range. rewrite list_elem_of_fmap. split.
  - intros (k & -> & Hk). apply list_elem_of_In, in_seq in Hk. lia.
  - intros Hx. exists (N.to_nat x). split; [by rewrite N2Nat.id|].
    apply list_elem_of_In, in_seq. lia.
Qed.

(** Induction over the two loops of [BuildGraph]: a property of the
    engine that holds once the maps are cleared and is kept by the loop
    body on every pair [i < j < GetN()] holds of the result. *)
Lemma BuildGraph_ind (P : RoutingEngine D → Prop) nodes ledger maxRange bh ds e :
  P (set_topology e ∅ ∅) →
  (∀ i j e', i < j → j < GetN nodes → P e' →
             P (BuildGraph_pair nodes ledger maxRange ds i j e')) →
  P (BuildGraph nodes ledger maxRange bh ds e).
Proof.
  intros H0 Hstep. unfold BuildGraph.
  assert (Hinner : ∀ i L e', (∀ j, j ∈ L → i < j < GetN nodes) → P e' →
            P (fold_left (fun e j => BuildGraph_pair nodes ledger maxRange ds i j e) L e')).
  { intros i L. induction L as [|j L IH]; intros e' HL HP; [done|].
    simpl. apply IH; [intros j' Hj'; apply HL; by right|].
    destruct (HL j) as [? ?]; [left|]. by apply Hstep. }
  assert (Houter : ∀ L e', P e' →
            P (fold_left
                 (fun e i =>
                    fold_left (fun e j => BuildGraph_pair nodes ledger maxRange ds i j e)
                              (u32_range (i + 1) (GetN nodes)) e) L e')).
  { induction L as [|i L IH]; intros e' HP; [done|].
    simpl. apply IH, Hinner; [|done].
    intros j Hj. apply elem_of_u32_range in Hj. lia. }
  by apply Houter.
Qed.

(** The adjacency list [BuildGraph] leaves depends on the positions and
    the range only: not on the ledger, the routing mode, the weights'
    parameters or the set of malicious nodes. *)
Lemma BuildGraph_topology nodes ledger maxRange bh ds e :
  m_graph (BuildGraph nodes ledger maxRange bh ds e) = topology nodes maxRange.
Proof.
  unfold BuildGraph, topology.
  assert (Hinner : ∀ i L e' g', m_graph e' = g' →
            m_graph (fold_left (fun e j => BuildGraph_pair nodes ledger maxRange ds i j e) L e')
            = fold_left (fun g j => topology_pair nodes maxRange i j g) L g').
  { intros i L. induction L as [|j L IH]; intros e' g' Hg; [done|].
    simpl. apply IH. rewrite BuildGraph_pair_unfold. unfold topology_pair.
    destruct (within_range nodes maxRange i j); simpl; by rewrite Hg. }
  generalize (u32_range 0 (GetN nodes)) as L.
  assert (Houter : ∀ L e' g', m_graph e' = g' →
    m_graph (fold_left
               (fun e i =>
                  fold_left (fun e j => BuildGraph_pair nodes ledger maxRange ds i j e)
                            (u32_range (i + 1) (GetN nodes)) e) L e')
    = fold_left
        (fun g i => fold_left (fun g j => topology_pair nodes maxRange i j g)
                              (u32_range (i + 1) (GetN nodes)) g) L g').
  { induction L as [|i L IH]; intros e' g' Hg; [done|].
    simpl. apply IH. by apply Hinner. }
  intros L. by apply Houter.
Qed.

Lemma elem_of_nbrs_graph_insert (i j a b : N) (g : gmap N (gset N)) :
  b ∈ nbrs (graph_insert i j g) a ↔ (a = i ∧ b = j) ∨ b ∈ nbrs g a.
Proof.
  unfold nbrs, graph_insert. destruct (decide (a = i)) as [->|Hne].
  - rewrite lookup_insert_eq. simpl. set_solver.
  - rewrite lookup_insert_ne by done. naive_solver.
Qed.

Lemma elem_of_nbrs_topology_pair nodes maxRange (i j a b : N) (g : gmap N (gset N)) :
  b ∈ nbrs (topology_pair nodes maxRange i j g) a
  ↔ (within_range nodes maxRange i j = true ∧ ((a = i ∧ b = j) ∨ (a = j ∧ b = i)))
    ∨ b ∈ nbrs g a.
Proof.
  unfold topology_pair. destruct (within_range nodes maxRange i j).
  - rewrite !elem_of_nbrs_graph_insert. naive_solver.
  - naive_solver.
Qed.

(** The edges of the graph: the pairs of distinct nodes within range. *)
Lemma elem_of_nbrs_topology nodes maxRange (a b : N) :
  b ∈ nbrs (topology nodes maxRange) a
  ↔ a ≠ b ∧ a < GetN nodes ∧ b < GetN nodes
    ∧ within_range nodes maxRange (N.min a b) (N.max a b) = true.
Proof.
  set (n := GetN nodes).
  set (E := fun (i j a b : N) =>
              within_range nodes maxRange i j = true ∧ ((a = i ∧ b = j) ∨ (a = j ∧ b = i))).
  assert (Hinner : ∀ i L g, b ∈ nbrs (fold_left (fun g j => topology_pair nodes maxRange i j g) L g) a
                            ↔ (∃ j, j ∈ L ∧ E i j a b) ∨ b ∈ nbrs g a).
  { intros i L. induction L as [|j L IH]; intros g; simpl.
    - split; [by right|]. intros [(j & Hj & _)|?]; [|done]. by apply elem_of_nil in Hj.
    - rewrite IH, elem_of_nbrs_topology_pair. fold (E i j a b). split.
      + intros [(j' & Hj' & HE)|[HE|Hg]]; [left; exists j'; split; [by right|done]
                                          |left; exists j; split; [left|done]|by right].
      + intros [(j' & Hj' & HE)|Hg]; [|right; by right].
        apply elem_of_cons in Hj' as [->|Hj']; [right; by left|left; eauto]. }
  assert (Houter : ∀ L g,
     b ∈ nbrs (fold_left
                 (fun g i => fold_left (fun g j => topology_pair nodes maxRange i j g)
                                       (u32_range (i + 1) n) g) L g) a
     ↔ (∃ i j, i ∈ L ∧ j ∈ u32_range (i + 1) n ∧ E i j a b) ∨ b ∈ nbrs g a).
  { induction L as [|i L IH]; intros g; simpl.
    - split; [by right|]. intros [(i & j & Hi & _)|?]; [|done]. by apply elem_of_nil in Hi.
    - rewrite IH, Hinner. split.
      + intros [(i' & j & Hi' & Hj & HE)|[(j & Hj & HE)|Hg]].
        * left. exists i', j. split; [by right|done].
        * left. exists i, j. split; [left|done].
        * by right.
      + intros [(i' & j & Hi' & Hj & HE)|Hg]; [|right; by right].
        apply elem_of_cons in Hi' as [->|Hi']; [right; left; eauto|left; eauto]. }
  unfold topology. fold n. rewrite Houter. unfold E. split.
  - intros [(i & j & Hi & Hj & Hr & Hab)|Hempty].
    + apply elem_of_u32_range in Hi, Hj.
      destruct Hab as [[-> ->]|[-> ->]].
      * rewrite N.min_l, N.max_r by lia. split_and!; try done; lia.
      * rewrite N.min_r, N.max_l by lia. split_and!; try done; lia.
    + unfold nbrs in Hempty. rewrite lookup_empty in Hempty. set_solver.
  - intros (Hne & Ha & Hb & Hr). left.
    exists (N.min a b), (N.max a b). rewrite !elem_of_u32_range.
    split_and!; try done; lia.
Qed.

Lemma topology_symmetric nodes maxRange (a b : N) :
  b ∈ nbrs (topology nodes maxRange) a → a ∈ nbrs (topology nodes maxRange) b.
Proof.
  rewrite !elem_of_nbrs_topology. rewrite (N.min_comm b a), (N.max_comm b a).
  naive_solver.
Qed.

Lemma topology_dom nodes maxRange (a : N) :
  a ∈ dom (topology nodes maxRange) → a < GetN nodes.
Proof.
  set (n := GetN nodes).
  assert (Hpair : ∀ i j g, i < n → j < n → (∀ x, x ∈ dom g → x < n) →
                    ∀ x, x ∈ dom (topology_pair nodes maxRange i j g) → x < n).
  { intros i j g Hi Hj Hg x. unfold topology_pair, graph_insert.
    destruct (within_range nodes maxRange i j); [|by apply Hg].
    rewrite !dom_insert_L, !elem_of_union, !elem_of_singleton.
    intros [->|[->|Hx]]; auto. }
  assert (Hinner : ∀ i L g, i < n → (∀ j, j ∈ L → j < n) → (∀ x, x ∈ dom g → x < n) →
     ∀ x, x ∈ dom (fold_left (fun g j => topology_pair nodes maxRange i j g) L g) → x < n).
  { intros i L. induction L as [|j L IH]; intros g Hi HL Hg; [done|].
    simpl. apply IH; [done|intros j' Hj'; apply HL; by right|].
    apply Hpair; [done|apply HL; left|done]. }
  assert (Houter : ∀ L g, (∀ i, i ∈ L → i < n) → (∀ x, x ∈ dom g → x < n) →
     ∀ x, x ∈ dom (fold_left
                     (fun g i => fold_left (fun g j => topology_pair nodes maxRange i j g)
                                           (u32_range (i + 1) n) g) L g) → x < n).
  { induction L as [|i L IH]; intros g HL Hg; [done|].
    simpl. apply IH; [intros i' Hi'; apply HL; by right|].
    apply Hinner; [apply HL; left| |done].
    intros j Hj. apply elem_of_u32_range in Hj. lia. }
  unfold topology. fold n. apply Houter.
  - intros i Hi. apply elem_of_u32_range in Hi. lia.
  - intros x Hx. rewrite dom_empty_L in Hx. set_solver.
Qed.

End BuildGraphFacts.

(** ** Edge weights *)

Section Weights.
Context {D : Type} {Ar : Arith D} {CL : CostLaws Ar} {WL : WeightLaws Ar}.

Implicit Types (e : RoutingEngine D) (ledger : BlockchainLedger D) (nodes : NodeContainer D).

Lemma dmax_floor_nonneg (y : D) : nonneg (dmax d0_3 y).
Proof.
  unfold dmax. destruct (dltb d0_3 y) eqn:E; [|apply nonneg_d0_3].
  by apply (dlt_nonneg d0_3 y nonneg_d0_3).
Qed.

(** Ledgers built by [UpdateMetric] from a fresh ledger are fit for the
    weight computation. *)
Lemma apply_calls_ledger_ok (calls : list (Call D)) (g : Globals) :
  ledger_ok (snd (apply_calls calls (g, BlockchainLedger_new))).
Proof.
  destruct (apply_calls_defaults calls (g, BlockchainLedger_new (D:=D))) as [Ht Hs].
  split_and!.
  - rewrite Hs. apply d20_pos.
  - rewrite Ht. apply nonneg_d1.
  - apply (ledger_records_ind (fun m => nonneg (trust m)) (fun _ => True)).
    + apply nonneg_d1.
    + intros c m _ Hm. unfold updated_metric. simpl.
      destruct (c_isDrop c && c_useBlockchain c); [apply dmax_floor_nonneg|done].
    + by apply Forall_true.
    + done.
Qed.

Lemma GetSnr_pos ledger (i j : N) : ledger_ok ledger → dltb d0 (GetSnr ledger i j) = true.
Proof.
  intros (Hs & _). unfold GetSnr.
  destruct (m_ledger ledger !! MakeKey i j) as [m|]; [|done].
  by destruct (dltb d0 (movingAvgSnr m)) eqn:E.
Qed.

Lemma GetTrust_nonneg ledger (i j : N) : ledger_ok ledger → nonneg (GetTrust ledger i j).
Proof.
  intros (_ & Hd & Hm). unfold GetTrust.
  destruct (m_ledger ledger !! MakeKey i j) as [m|] eqn:E; [|done].
  by apply (Hm _ _ E).
Qed.

(** The trust that enters the weight, after the two guards of lines
    257-263, is positive. *)
Lemma guarded_trust_pos (t : D) :
  nonneg t →
  dltb d0 (let t1 := if dleb t d0 then d1 else t in
           if dltb t1 d0_3 then d0_3 else t1) = true.
Proof.
  intros Ht. simpl.
  assert (H1 : dltb d0 (if dleb t d0 then d1 else t) = true).
  { destruct (dleb t d0) eqn:E; [apply d1_pos|by apply nonneg_pos]. }
  destruct (dltb (if dleb t d0 then d1 else t) d0_3); [apply d0_3_pos|done].
Qed.

Lemma edge_cost_nonneg e ledger (ds : D) (i j : N) :
  sane_params e → ledger_ok ledger → nonneg (edge_cost e ledger ds i j).
Proof.
  intros (Ha & Hfa & Hb & Hfb) Hl. unfold edge_cost.
  destruct (m_useBlockchain e); [|apply nonneg_d1].
  rewrite (pos_not_dleb _ (GetSnr_pos ledger i j Hl)).
  apply nonneg_dadd; apply ddiv_nonneg; try done.
  - by apply GetSnr_pos.
  - apply guarded_trust_pos. by apply GetTrust_nonneg.
Qed.


Lemma edge_cost_ext e1 e2 ledger (ds : D) (i j : N) :
  m_alpha e1 = m_alpha e2 → m_beta e1 = m_beta e2 →
  m_useBlockchain e1 = m_useBlockchain e2 →
  edge_cost e1 ledger ds i j = edge_cost e2 ledger ds i j.
Proof. intros Ha Hb Hu. unfold edge_cost. by rewrite Ha, Hb, Hu. Qed.

(** Every edge of the graph [BuildGraph] leaves carries the weight line
    275 or line 279 computes for some pair of nodes. *)
Lemma BuildGraph_weights nodes ledger (maxRange : D) bh (ds : D) e (a b : N) :
  b ∈ nbrs (m_graph (BuildGraph nodes ledger maxRange bh ds e)) a →
  ∃ i j, m_weights (BuildGraph nodes ledger maxRange bh ds e) !! (a, b)
         = Some (edge_cost e ledger ds i j).
Proof.
  revert a b.
  apply (BuildGraph_ind
           (fun e' => (m_alpha e' = m_alpha e ∧ m_beta e' = m_beta e
                       ∧ m_useBlockchain e' = m_useBlockchain e)
                      ∧ ∀ a b, b ∈ nbrs (m_graph e') a →
                          ∃ i j, m_weights e' !! (a, b) = Some (edge_cost e ledger ds i j))).
  - simpl. split; [done|]. intros a b Hb. unfold nbrs in Hb.
    rewrite lookup_empty in Hb. set_solver.
  - intros i j e' _ _ [(Ha & Hb & Hu) He']. rewrite BuildGraph_pair_unfold.
    destruct (within_range nodes maxRange i j); [|done].
    split; [done|]. simpl. intros a b Hab.
    rewrite (edge_cost_ext e' e) by done.
    destruct (decide ((a, b) = (j, i))) as [->|Hne1];
      [exists i, j; by rewrite lookup_insert_eq|].
    rewrite lookup_insert_ne by done.
    destruct (decide ((a, b) = (i, j))) as [->|Hne2];
      [exists i, j; by rewrite lookup_insert_eq|].
    rewrite lookup_insert_ne by done. apply He'.
    apply elem_of_nbrs_graph_insert in Hab as [[-> ->]|Hab]; [done|].
    apply elem_of_nbrs_graph_insert in Hab as [[-> ->]|Hab]; done.
Qed.

(** [BuildGraph] leaves a graph [CalculatePath] can work on. *)
Lemma BuildGraph_wf nodes ledger (maxRange : D) bh (ds : D) e :
  GetN nodes ≤ UINT32_MAX → sane_params e → ledger_ok ledger →
  wf_graph (m_graph (BuildGraph nodes ledger maxRange bh ds e))
           (m_weights (BuildGraph nodes ledger maxRange bh ds e)).
Proof.
  intros Hn Hp Hl. split.
  - intros u v Hv. rewrite BuildGraph_topology in *.
    apply topology_symmetric in Hv. by eapply nbrs_dom.
  - intros u v Hv. destruct (BuildGraph_weights _ _ _ _ _ _ _ _ Hv) as (i & j & Hw).
    unfold weight. rewrite Hw. simpl. by apply edge_cost_nonneg.
  - rewrite BuildGraph_topology. intros Hmax. apply topology_dom in Hmax. lia.
Qed.


End Weights.


(** * The contract of the path solver *)



(** * The callbacks on malformed contexts *)

Section CallbackGuards.
Context {D : Type} {Ar : Arith D}.

(** The guard at the head of the three callbacks: when the parsed node
    id is [UINT32_MAX] or not below the size of the node container, the
    callback returns and the ledger, the counters and the rest of the
    state are as before. *)
Lemma invalid_node_is_ignored (context : string) (srcAddr : N) (w : World D) (id : N) :
  ParseNodeIdFromContext context = Returns id →
  invalid_node (snd w) id = true →
  PhyRxEndCallback context w = Returns w
  ∧ PhyRxDropCallback context w = Returns w
  ∧ Ipv4L3DropCallback context srcAddr w = Returns w.
Proof.
  intros Hparse Hinv.
  unfold PhyRxEndCallback, PhyRxDropCallback, Ipv4L3DropCallback.
  by rewrite Hparse, Hinv.
Qed.

(** C8, at the failing input: [std::stoul] throws [std::invalid_argument]
    on the node field "x", nothing catches it, and each of the three
    callbacks is left by that exception instead of returning. *)
Theorem C8_non_numeric_node_id_throws (srcAddr : N) (w : World D) :
  ParseNodeIdFromContext non_numeric_context = Throws invalid_argument
  ∧ PhyRxEndCallback non_numeric_context w = Throws invalid_argument
  ∧ PhyRxDropCallback non_numeric_context w = Throws invalid_argument
  ∧ Ipv4L3DropCallback non_numeric_context srcAddr w = Throws invalid_argument.
Proof.
  assert (Hparse : ParseNodeIdFromContext non_numeric_context = Throws invalid_argument)
    by (vm_compute; reflexivity).
  unfold PhyRxEndCallback, PhyRxDropCallback, Ipv4L3DropCallback.
  by rewrite Hparse.
Qed.

End CallbackGuards.

(** * The ground-truth set of malicious nodes does not reach trust or
      routing weights *)

Section Noninterference.
Context {D : Type} {Ar : Arith D}.

Lemma GetTrust_agree (l1 l2 : BlockchainLedger D) (a b : N) :
  ledger_agree l1 l2 → GetTrust l1 a b = GetTrust l2 a b.
Proof. intros (Hm & _ & Ht & _). unfold GetTrust. by rewrite Hm, Ht. Qed.

Lemma GetSnr_agree (l1 l2 : BlockchainLedger D) (a b : N) :
  ledger_agree l1 l2 → GetSnr l1 a b = GetSnr l2 a b.
Proof. intros (Hm & _ & _ & Hs). unfold GetSnr. by rewrite Hm, Hs. Qed.

Lemma edge_cost_agree (e : RoutingEngine D) (l1 l2 : BlockchainLedger D) (ds : D) (i j : N) :
  ledger_agree l1 l2 → edge_cost e l1 ds i j = edge_cost e l2 ds i j.
Proof.
  intros Hl. unfold edge_cost.
  by rewrite (GetTrust_agree l1 l2 i j Hl), (GetSnr_agree l1 l2 i j Hl).
Qed.

(** [BuildGraph] reads neither its argument [blackholeNodes] nor the
    ledger's [m_blackholes]. *)
Lemma BuildGraph_agree (nodes : NodeContainer D) (l1 l2 : BlockchainLedger D)
    (maxRange : D) (bh1 bh2 : gset N) (ds : D) (e : RoutingEngine D) :
  ledger_agree l1 l2 →
  BuildGraph nodes l1 maxRange bh1 ds e = BuildGraph nodes l2 maxRange bh2 ds e.
Proof.
  intros Hl. unfold BuildGraph.
  assert (Hpair : ∀ i j e', BuildGraph_pair nodes l1 maxRange ds i j e'
                            = BuildGraph_pair nodes l2 maxRange ds i j e').
  { intros i j e'. rewrite !BuildGraph_pair_unfold.
    by rewrite (edge_cost_agree e' l1 l2 ds i j Hl). }
  assert (Hinner : ∀ i L e',
            fold_left (fun e j => BuildGraph_pair nodes l1 maxRange ds i j e) L e'
            = fold_left (fun e j => BuildGraph_pair nodes l2 maxRange ds i j e) L e').
  { intros i L. induction L as [|j L IH]; intros e'; [done|]. simpl. by rewrite Hpair, IH. }
  generalize (set_topology e ∅ ∅) as e0.
  induction (u32_range 0 (GetN nodes)) as [|i L IH]; intros e0; [done|].
  simpl. by rewrite Hinner, IH.
Qed.

Lemma ledger_update_unfold (src dst : N) (snr : D) (isDrop : bool) (w : World D) :
  ledger_update src dst snr isDrop w
  = (fst (UpdateMetric src dst snr isDrop (useBlockchain (snd w)) (fst w, ledger (snd w))),
     set_ctx_ledger (snd w)
       (snd (UpdateMetric src dst snr isDrop (useBlockchain (snd w))
               (fst w, ledger (snd w))))).
Proof.
  destruct w as [g c]. unfold ledger_update. cbn [fst snd].
  by destruct (UpdateMetric src dst snr isDrop (useBlockchain c) (g, ledger c)).
Qed.

Lemma ledger_update_agree (src dst : N) (snr : D) (isDrop : bool) (w1 w2 : World D) :
  world_agree w1 w2 →
  world_agree (ledger_update src dst snr isDrop w1) (ledger_update src dst snr isDrop w2).
Proof.
  intros [(Hg1 & Hg2 & Hg3) (Hn & Hi & (Hm & Hl1 & Hl2 & Hl3) & He & Hf & Hr & Hs & Hu)].
  rewrite !ledger_update_unfold.
  set (gl1 := (fst w1, ledger (snd w1))). set (gl2 := (fst w2, ledger (snd w2))).
  destruct (UpdateMetric_defaults src dst snr isDrop (useBlockchain (snd w1)) gl1)
    as (Ha1 & Hb1 & _ & Hc1).
  destruct (UpdateMetric_defaults src dst snr isDrop (useBlockchain (snd w2)) gl2)
    as (Ha2 & Hb2 & _ & Hc2).
  split.
  - cbn [fst]. rewrite !UpdateMetric_globals, Hu. unfold gl1, gl2. cbn [fst].
    unfold globals_agree.
    destruct (isDrop && useBlockchain (snd w2)); cbn; split_and!; congruence.
  - cbn [snd]. unfold ctx_agree, set_ctx_ledger.
    cbn [nodes ipv4Interfaces ledger routingEngine activeFlows maxRadioRange
         defaultSnr useBlockchain].
    split_and!; try done. unfold ledger_agree.
    rewrite !UpdateMetric_ledger, Ha1, Ha2, Hb1, Hb2, Hc1, Hc2, Hu.
    unfold gl1, gl2. cbn [snd]. rewrite Hm. done.
Qed.

Lemma fanout_agree (body : World D → N → World D) (L : list N) (w1 w2 : World D) :
  (∀ i w1 w2, world_agree w1 w2 → world_agree (body w1 i) (body w2 i)) →
  world_agree w1 w2 →
  world_agree (fold_left body L w1) (fold_left body L w2).
Proof.
  intros Hbody. revert w1 w2. induction L as [|i L IH]; intros w1 w2 Hw; [done|].
  simpl. by apply IH, Hbody.
Qed.

Lemma rx_fanout_agree (receivingNodeId : N) (w1 w2 : World D) :
  world_agree w1 w2 →
  world_agree (rx_fanout receivingNodeId w1) (rx_fanout receivingNodeId w2).
Proof.
  intros Hw. unfold rx_fanout.
  assert (Hn : nodes (snd w1) = nodes (snd w2)) by (by destruct Hw as [_ (? & _)]).
  rewrite Hn. apply fanout_agree; [|done].
  intros i u1 u2 Hu.
  destruct Hu as [Hg (Hn' & Hi & Hl & He & Hf & Hr & Hs & Hub)].
  rewrite Hn', Hr, Hs.
  destruct (negb (i =? receivingNodeId)); [|by split].
  destruct (GetMobility (nodes u2.2) i), (GetMobility (nodes u2.2) receivingNodeId);
    try (by split).
  destruct (dltb _ _); [|by split].
  apply ledger_update_agree. by split.
Qed.

Lemma drop_fanout_agree (receivingNodeId : N) (w1 w2 : World D) :
  world_agree w1 w2 →
  world_agree (drop_fanout receivingNodeId w1) (drop_fanout receivingNodeId w2).
Proof.
  intros Hw. unfold drop_fanout.
  assert (Hn : nodes (snd w1) = nodes (snd w2)) by (by destruct Hw as [_ (? & _)]).
  rewrite Hn. apply fanout_agree; [|done].
  intros i u1 u2 Hu.
  destruct Hu as [Hg (Hn' & Hi & Hl & He & Hf & Hr & Hs & Hub)].
  rewrite Hn', Hr.
  destruct (negb (i =? receivingNodeId)); [|by split].
  destruct (GetMobility (nodes u2.2) i), (GetMobility (nodes u2.2) receivingNodeId);
    try (by split).
  destruct (dltb _ _); [|by split].
  apply ledger_update_agree. by split.
Qed.

End Noninterference.

(** * Further properties of the link ledger *)

Section LinkHistory.
Context {D : Type} {Ar : Arith D}.
Implicit Types (gl : Globals * BlockchainLedger D) (calls : list (Call D)).

Lemma on_link_cons_True a b (c : Call D) calls :
  MakeKey (c_src c) (c_dst c) = MakeKey a b → on_link a b (c :: calls) = c :: on_link a b calls.
Proof. intros H. unfold on_link. by rewrite filter_cons_True. Qed.

Lemma on_link_cons_False a b (c : Call D) calls :
  MakeKey (c_src c) (c_dst c) ≠ MakeKey a b → on_link a b (c :: calls) = on_link a b calls.
Proof. intros H. unfold on_link. by rewrite filter_cons_False. Qed.

Lemma link_history_lookup calls gl (a b : N) :
  m_ledger (snd (apply_calls calls gl)) !! MakeKey a b
  = match on_link a b calls with
    | [] => m_ledger (snd gl) !! MakeKey a b
    | _ :: _ => Some (fold_left call_effect (on_link a b calls)
                        (metric_at (m_ledger (snd gl)) (MakeKey a b)))
    end.
Proof.
  revert gl. induction calls as [|c calls IH]; intros gl; [done|].
  rewrite apply_calls_cons, IH.
  destruct (decide (MakeKey (c_src c) (c_dst c) = MakeKey a b)) as [Hk|Hk].
  - rewrite (on_link_cons_True _ _ _ _ Hk). simpl fold_left.
    assert (E : metric_at (m_ledger (snd (apply_call gl c))) (MakeKey a b)
                = call_effect (metric_at (m_ledger (snd gl)) (MakeKey a b)) c).
    { unfold apply_call. rewrite <- Hk. apply UpdateMetric_at. }
    rewrite E. destruct (on_link a b calls); [|done].
    simpl. rewrite <- E. unfold apply_call, metric_at. rewrite <- Hk.
    by rewrite UpdateMetric_ledger, lookup_insert_eq.
  - rewrite (on_link_cons_False _ _ _ _ Hk).
    unfold apply_call, metric_at. rewrite UpdateMetric_other by (intros E; by apply Hk).
    done.
Qed.

Lemma link_history calls gl (a b : N) :
  metric_at (m_ledger (snd (apply_calls calls gl))) (MakeKey a b)
  = fold_left call_effect (on_link a b calls) (metric_at (m_ledger (snd gl)) (MakeKey a b)).
Proof.
  unfold metric_at at 1. rewrite link_history_lookup.
  destruct (on_link a b calls); done.
Qed.

(** X1: the record of a link after a sequence of [UpdateMetric] calls is
    the record it had, taken through the calls that address this link (in
    either direction), in their order; a link no call addresses keeps its
    entry or its absence.  So two sequences with the same calls on a link
    leave the same record there, whatever they do to other links. *)
Theorem X1_link_record_history calls calls' gl (a b : N) :
  (m_ledger (snd (apply_calls calls gl)) !! MakeKey a b
   = match on_link a b calls with
     | [] => m_ledger (snd gl) !! MakeKey a b
     | _ :: _ => Some (fold_left call_effect (on_link a b calls)
                         (metric_at (m_ledger (snd gl)) (MakeKey a b)))
     end)
  ∧ (on_link a b calls = on_link a b calls' →
     m_ledger (snd (apply_calls calls gl)) !! MakeKey a b
     = m_ledger (snd (apply_calls calls' gl)) !! MakeKey a b).
Proof.
  split; [apply link_history_lookup|].
  intros E. by rewrite !link_history_lookup, E.
Qed.

Lemma elem_of_on_link a b (c : Call D) calls :
  c ∈ on_link a b calls ↔ c ∈ calls ∧ MakeKey (c_src c) (c_dst c) = MakeKey a b.
Proof. unfold on_link. rewrite list_elem_of_filter. tauto. Qed.

Lemma MakeKey_ordered (a b : N) : fst (MakeKey a b) ≤ snd (MakeKey a b).
Proof. unfold MakeKey. simpl. lia. Qed.

Lemma MakeKey_idem (key : N * N) : fst key ≤ snd key → MakeKey (fst key) (snd key) = key.
Proof.
  destruct key as [x y]. simpl. intros H. unfold MakeKey.
  by rewrite N.min_l, N.max_r.
Qed.

Lemma apply_calls_dom calls gl :
  ∀ key, key ∈ dom (m_ledger (snd (apply_calls calls gl)))
         ↔ key ∈ dom (m_ledger (snd gl))
           ∨ ∃ c, c ∈ calls ∧ MakeKey (c_src c) (c_dst c) = key.
Proof.
  revert gl. induction calls as [|c calls IH]; intros gl key.
  - simpl. split; [by left|]. intros [H|(c & Hc & _)]; [done|]. by apply elem_of_nil in Hc.
  - rewrite apply_calls_cons, IH. unfold apply_call at 1.
    rewrite UpdateMetric_ledger, dom_insert, elem_of_union, elem_of_singleton.
    split.
    + intros [[->|H]|(c' & Hc' & E)].
      * right. exists c. split; [left|done].
      * by left.
      * right. exists c'. split; [by right|done].
    + intros [H|(c' & Hc' & E)].
      * left. by right.
      * apply elem_of_cons in Hc' as [->|Hc'].
        -- left. by left.
        -- right. by exists c'.
Qed.

(** X2: a ledger that starts empty holds a record exactly for the pairs
    [(min(src,dst), max(src,dst))] of the calls made, whatever their other
    arguments (a call with [snr <= 0] and [isDrop = false] creates the
    record too); every key is ordered; and no call removes a record. *)
Theorem X2_ledger_keys calls (g : Globals) (key : N * N) :
  (key ∈ dom (m_ledger (snd (apply_calls calls (g, BlockchainLedger_new))))
   ↔ ∃ c, c ∈ calls ∧ key = (N.min (c_src c) (c_dst c), N.max (c_src c) (c_dst c)))
  ∧ (key ∈ dom (m_ledger (snd (apply_calls calls (g, BlockchainLedger_new))))
     → fst key ≤ snd key)
  ∧ ∀ gl, dom (m_ledger (snd gl)) ⊆ dom (m_ledger (snd (apply_calls calls gl))).
Proof.
  assert (H1 : key ∈ dom (m_ledger (snd (apply_calls calls (g, BlockchainLedger_new))))
               ↔ ∃ c, c ∈ calls ∧ key = (N.min (c_src c) (c_dst c), N.max (c_src c) (c_dst c))).
  { rewrite apply_calls_dom. simpl. rewrite dom_empty. split.
    - intros [H|(c & Hc & E)]; [by apply elem_of_empty in H|]. by exists c.
    - intros (c & Hc & E). right. by exists c. }
  split_and!; [exact H1| |].
  - intros (c & _ & ->)%H1. simpl. lia.
  - intros gl k Hk. apply apply_calls_dom. by left.
Qed.

End LinkHistory.

Section Counters.
Context {D : Type} {Ar : Arith D}.
Implicit Types (gl : Globals * BlockchainLedger D) (calls : list (Call D)).

Lemma u32_incr_iter (k : nat) (d : N) :
  d < 2 ^ 32 → Nat.iter k u32_incr d = (d + N.of_nat k) mod 2 ^ 32.
Proof.
  intros Hd. induction k as [|k IH].
  - simpl. rewrite N.add_0_r. symmetry. by apply N.mod_small.
  - rewrite Nat.iter_succ, IH. unfold u32_incr.
    rewrite N.Div0.add_mod_idemp_l. f_equal. lia.
Qed.

Lemma u64_incr_iter (k : nat) (d : N) :
  d < 2 ^ 64 → Nat.iter k u64_incr d = (d + N.of_nat k) mod 2 ^ 64.
Proof.
  intros Hd. induction k as [|k IH].
  - simpl. rewrite N.add_0_r. symmetry. by apply N.mod_small.
  - rewrite Nat.iter_succ, IH. unfold u64_incr.
    rewrite N.Div0.add_mod_idemp_l. f_equal. lia.
Qed.

Lemma drops_fold (calls : list (Call D)) (m : LinkMetric D) :
  drops (fold_left call_effect calls m) = Nat.iter (count_drops calls) u32_incr (drops m).
Proof.
  revert m. induction calls as [|c calls IH]; intros m; [done|].
  simpl fold_left. rewrite IH. unfold count_drops.
  destruct (c_isDrop c) eqn:E.
  - rewrite filter_cons_True by done. simpl length. rewrite Nat.iter_succ_r.
    unfold call_effect, updated_metric. simpl. by rewrite E.
  - rewrite filter_cons_False by (by rewrite E).
    unfold call_effect, updated_metric. simpl. by rewrite E.
Qed.

(** X3: [drops] of a link counts the calls with [isDrop = true] on that
    link, in either routing mode, modulo 2^32. *)
Theorem X3_drops_count calls (g : Globals) (a b : N) :
  drops (metric_at (m_ledger (snd (apply_calls calls (g, BlockchainLedger_new)))) (MakeKey a b))
  = N.of_nat (count_drops (on_link a b calls)) mod 2 ^ 32.
Proof.
  rewrite link_history, drops_fold.
  rewrite u32_incr_iter by (vm_compute; done). done.
Qed.

Lemma apply_calls_globals calls gl :
  fst (apply_calls calls gl) = Nat.iter (count_penalties calls) incr_trustPenalties (fst gl).
Proof.
  revert gl. induction calls as [|c calls IH]; intros gl; [done|].
  rewrite apply_calls_cons, IH. unfold apply_call at 1. rewrite UpdateMetric_globals.
  unfold count_penalties.
  destruct (c_isDrop c && c_useBlockchain c) eqn:E.
  - rewrite filter_cons_True by done. simpl length. by rewrite Nat.iter_succ_r.
  - by rewrite filter_cons_False by (by rewrite E).
Qed.

Lemma incr_trustPenalties_iter (k : nat) (g : Globals) :
  let g' := Nat.iter k incr_trustPenalties g in
  g_trustPenalties g' = Nat.iter k u64_incr (g_trustPenalties g)
  ∧ g_phyDrops g' = g_phyDrops g ∧ g_l3Drops g' = g_l3Drops g
  ∧ g_blackholeL3Drops g' = g_blackholeL3Drops g ∧ g_routeSkips g' = g_routeSkips g
  ∧ g_maliciousDrops g' = g_maliciousDrops g.
Proof.
  cbv zeta. induction k as [|k IH]; [done|]. rewrite Nat.iter_succ.
  destruct IH as (H1 & H2 & H3 & H4 & H5 & H6). simpl.
  rewrite H1. done.
Qed.

(** X4: [g_trustPenalties] rises by the number of calls with
    [isDrop && useBlockchain], modulo 2^64, and [UpdateMetric] touches no
    other counter. *)
Theorem X4_trust_penalties_count calls gl :
  g_trustPenalties (fst gl) < 2 ^ 64 →
  let g' := fst (apply_calls calls gl) in
  g_trustPenalties g' = (g_trustPenalties (fst gl) + N.of_nat (count_penalties calls)) mod 2 ^ 64
  ∧ g_phyDrops g' = g_phyDrops (fst gl) ∧ g_l3Drops g' = g_l3Drops (fst gl)
  ∧ g_blackholeL3Drops g' = g_blackholeL3Drops (fst gl)
  ∧ g_routeSkips g' = g_routeSkips (fst gl)
  ∧ g_maliciousDrops g' = g_maliciousDrops (fst gl).
Proof.
  intros Hg g'. unfold g'. rewrite apply_calls_globals.
  destruct (incr_trustPenalties_iter (count_penalties calls) (fst gl)) as (H1 & H2).
  split; [|exact H2]. rewrite H1. by apply u64_incr_iter.
Qed.

End Counters.

Section Commute.
Context {D : Type} {Ar : Arith D}.

Lemma ledger_eq (l1 l2 : BlockchainLedger D) :
  m_ledger l1 = m_ledger l2 → m_blackholes l1 = m_blackholes l2 →
  m_lossThreshold l1 = m_lossThreshold l2 → m_defaultTrust l1 = m_defaultTrust l2 →
  m_defaultSnr l1 = m_defaultSnr l2 → l1 = l2.
Proof. destruct l1, l2. simpl. by intros -> -> -> -> ->. Qed.

(** X5: updates of two different links commute: both orders leave the
    same ledger and the same counters. *)
Theorem X5_UpdateMetric_commute (a b c d : N) (snr1 snr2 : D) (isDrop1 isDrop2 ub1 ub2 : bool)
    (gl : Globals * BlockchainLedger D) :
  MakeKey a b ≠ MakeKey c d →
  UpdateMetric a b snr1 isDrop1 ub1 (UpdateMetric c d snr2 isDrop2 ub2 gl)
  = UpdateMetric c d snr2 isDrop2 ub2 (UpdateMetric a b snr1 isDrop1 ub1 gl).
Proof.
  intros Hne.
  apply injective_projections.
  - rewrite !UpdateMetric_globals.
    destruct (isDrop1 && ub1), (isDrop2 && ub2); reflexivity.
  - apply ledger_eq.
    + rewrite !UpdateMetric_ledger. unfold metric_at.
      rewrite (lookup_insert_ne _ (MakeKey c d) (MakeKey a b)) by (intros E; by apply Hne).
      rewrite (lookup_insert_ne _ (MakeKey a b) (MakeKey c d)) by done.
      by apply insert_insert_ne.
    + by destruct (UpdateMetric_defaults a b snr1 isDrop1 ub1
                     (UpdateMetric c d snr2 isDrop2 ub2 gl)) as (_ & _ & -> & _),
        (UpdateMetric_defaults c d snr2 isDrop2 ub2
                     (UpdateMetric a b snr1 isDrop1 ub1 gl)) as (_ & _ & -> & _),
        (UpdateMetric_defaults a b snr1 isDrop1 ub1 gl) as (_ & _ & -> & _),
        (UpdateMetric_defaults c d snr2 isDrop2 ub2 gl) as (_ & _ & -> & _).
    + by destruct (UpdateMetric_defaults a b snr1 isDrop1 ub1
                     (UpdateMetric c d snr2 isDrop2 ub2 gl)) as (_ & _ & _ & ->),
        (UpdateMetric_defaults c d snr2 isDrop2 ub2
                     (UpdateMetric a b snr1 isDrop1 ub1 gl)) as (_ & _ & _ & ->),
        (UpdateMetric_defaults a b snr1 isDrop1 ub1 gl) as (_ & _ & _ & ->),
        (UpdateMetric_defaults c d snr2 isDrop2 ub2 gl) as (_ & _ & _ & ->).
    + by destruct (UpdateMetric_defaults a b snr1 isDrop1 ub1
                     (UpdateMetric c d snr2 isDrop2 ub2 gl)) as (-> & _),
        (UpdateMetric_defaults c d snr2 isDrop2 ub2
                     (UpdateMetric a b snr1 isDrop1 ub1 gl)) as (-> & _),
        (UpdateMetric_defaults a b snr1 isDrop1 ub1 gl) as (-> & _),
        (UpdateMetric_defaults c d snr2 isDrop2 ub2 gl) as (-> & _).
    + by destruct (UpdateMetric_defaults a b snr1 isDrop1 ub1
                     (UpdateMetric c d snr2 isDrop2 ub2 gl)) as (_ & -> & _),
        (UpdateMetric_defaults c d snr2 isDrop2 ub2
                     (UpdateMetric a b snr1 isDrop1 ub1 gl)) as (_ & -> & _),
        (UpdateMetric_defaults a b snr1 isDrop1 ub1 gl) as (_ & -> & _),
        (UpdateMetric_defaults c d snr2 isDrop2 ub2 gl) as (_ & -> & _).
Qed.

Lemma apply_calls_blackholes (calls : list (Call D)) gl :
  m_blackholes (snd (apply_calls calls gl)) = m_blackholes (snd gl).
Proof.
  revert gl. induction calls as [|c calls IH]; intros gl; [done|].
  rewrite apply_calls_cons, IH. unfold apply_call.
  by destruct (UpdateMetric_defaults (c_src c) (c_dst c) (c_snr c) (c_isDrop c)
                 (c_useBlockchain c) gl) as (_ & _ & -> & _).
Qed.

Lemma apply_ops_updates (ops : list (LedgerOp D)) gl :
  apply_ops ops gl = apply_calls (updates_of ops) gl.
Proof.
  revert gl. induction ops as [|op ops IH]; intros gl; [done|].
  unfold apply_ops. simpl fold_left. fold (apply_ops ops (apply_op gl op)).
  rewrite IH. destruct op as [c|n]; simpl.
  - reflexivity.
  - unfold SetBlackhole. by destruct gl.
Qed.

(** X6: nothing populates the ledger's own set of blackholes:
    [GetBlackholes] is empty after any sequence of [UpdateMetric] and
    [SetBlackhole] calls, and the [SetBlackhole] calls can be left out
    without changing the result. *)
Theorem X6_GetBlackholes_empty (ops : list (LedgerOp D)) (g : Globals) :
  GetBlackholes (snd (apply_ops ops (g, BlockchainLedger_new))) = ∅
  ∧ apply_ops ops (g, BlockchainLedger_new)
    = apply_calls (updates_of ops) (g, BlockchainLedger_new).
Proof.
  split; [|apply apply_ops_updates].
  rewrite apply_ops_updates. unfold GetBlackholes. by rewrite apply_calls_blackholes.
Qed.

End Commute.

Section TrustLevels.
Context {D : Type} {Ar : Arith D}.

Lemma trust_fold (calls : list (Call D)) (m : LinkMetric D) :
  trust (fold_left call_effect calls m)
  = Nat.iter (count_penalties calls) (fun t => dmax d0_3 (dmul t d0_5)) (trust m).
Proof.
  revert m. induction calls as [|c calls IH]; intros m; [done|].
  simpl fold_left. rewrite IH. unfold count_penalties.
  destruct (c_isDrop c && c_useBlockchain c) eqn:E.
  - rewrite filter_cons_True by done. simpl length. rewrite Nat.iter_succ_r.
    unfold call_effect, updated_metric. simpl. by rewrite E.
  - rewrite filter_cons_False by (by rewrite E).
    unfold call_effect, updated_metric. simpl. by rewrite E.
Qed.

(** In an arithmetic where halving 1.0 twice falls below the floor, the
    trust of a link is given by the number of penalised drops on it. *)
Lemma GetTrust_curve (calls : list (Call D)) (g : Globals) (a b : N) :
  (∀ k, Nat.iter k (fun t => dmax d0_3 (dmul t d0_5)) d1 = decay_curve k) →
  GetTrust (snd (apply_calls calls (g, BlockchainLedger_new))) a b
  = decay_curve (count_penalties (on_link a b calls)).
Proof.
  intros Hcurve. unfold GetTrust. rewrite link_history_lookup.
  destruct (on_link a b calls) as [|c L] eqn:E.
  - simpl. rewrite lookup_empty.
    by destruct (apply_calls_defaults calls (g, BlockchainLedger_new (D:=D))) as [-> _].
  - rewrite trust_fold. unfold metric_at. simpl m_ledger. rewrite lookup_empty.
    apply Hcurve.
Qed.

End TrustLevels.

Section TrustBinary64.

Lemma GetTrust_decay (calls : list (Call float)) (g : Globals) (a b : N) :
  GetTrust (snd (apply_calls calls (g, BlockchainLedger_new))) a b
  = decay_curve (count_penalties (on_link a b calls)).
Proof. apply GetTrust_curve. exact penalty_iter. Qed.

Lemma decay_curve_mono (k j : nat) : dleb (decay_curve (k + j)) (decay_curve k) = true.
Proof. destruct k as [|[|k]], j as [|[|j]]; reflexivity. Qed.

Lemma count_penalties_app {D} (l1 l2 : list (Call D)) :
  count_penalties (l1 ++ l2) = (count_penalties l1 + count_penalties l2)%nat.
Proof. unfold count_penalties. by rewrite filter_app, length_app. Qed.

(** X7: in binary64 the trust [GetTrust] reports for a link is fixed by
    the number of penalised drops on that link, however they are
    interleaved with other calls: 1.0 for none, 0.5 for one, 0.3 from two
    on.  So trust never recovers: no further calls raise it. *)
Theorem X7_trust_by_penalties (calls more : list (Call float)) (g : Globals) (a b : N) :
  GetTrust (snd (apply_calls calls (g, BlockchainLedger_new))) a b
  = decay_curve (count_penalties (on_link a b calls))
  ∧ dleb (GetTrust (snd (apply_calls (calls ++ more) (g, BlockchainLedger_new))) a b)
         (GetTrust (snd (apply_calls calls (g, BlockchainLedger_new))) a b) = true.
Proof.
  split; [apply GetTrust_decay|].
  rewrite !GetTrust_decay. unfold on_link. rewrite filter_app, count_penalties_app.
  apply decay_curve_mono.
Qed.

End TrustBinary64.

Section AverageDefault.
Context {D : Type} {Ar : Arith D}.

(** The positive SNR arguments among a list of calls. *)
Lemma observed_on_link (a b : N) (calls : list (Call D)) :
  observed a b calls
  = map c_snr (filter (fun c => dltb d0 (c_snr c) = true) (on_link a b calls)).
Proof.
  unfold observed, on_link. f_equal. rewrite list_filter_filter.
  apply list_filter_iff. intros c. tauto.
Qed.

Lemma avg_kept (L : list (Call D)) (m : LinkMetric D) :
  filter (fun c => dltb d0 (c_snr c) = true) L = [] →
  movingAvgSnr (fold_left call_effect L m) = movingAvgSnr m.
Proof.
  revert m. induction L as [|c L IH]; intros m; [done|].
  simpl fold_left. destruct (dltb d0 (c_snr c)) eqn:Hs.
  - by rewrite filter_cons_True.
  - rewrite filter_cons_False by (by rewrite Hs). intros E. rewrite (IH _ E).
    unfold call_effect, updated_metric. cbn [movingAvgSnr]. by rewrite Hs.
Qed.

Lemma avg_snr_unobserved (calls : list (Call D)) (g : Globals) (a b : N) :
  observed a b calls = [] →
  avg_snr_of (snd (apply_calls calls (g, BlockchainLedger_new))) a b = d0.
Proof.
  rewrite observed_on_link. intros E%fmap_nil_inv.
  unfold avg_snr_of. rewrite link_history. by rewrite (avg_kept _ _ E).
Qed.

End AverageDefault.

(** X8: in binary64, as long as no call has reported a positive SNR on a
    link, its average is 0.0 and [GetSnr] answers the default 20.0, also
    when drops have created the record; [GetSnr] answers the average
    only when that is positive, and then a positive SNR has been
    reported.  The converse fails: a report of [2^-1074] is positive and
    leaves the average at 0.0, since [0.3 * snr] rounds to zero. *)
Theorem X8_snr_default_until_observed (calls : list (Call float)) (g : Globals) (a b : N) :
  let l := snd (apply_calls calls (g, BlockchainLedger_new)) in
  (observed a b calls = [] → avg_snr_of l a b = 0%float ∧ GetSnr l a b = 20%float)
  ∧ (GetSnr l a b = 20%float ∨ GetSnr l a b = avg_snr_of l a b)
  ∧ (dltb d0 (avg_snr_of l a b) = true →
     observed a b calls ≠ [] ∧ GetSnr l a b = avg_snr_of l a b)
  ∧ avg_snr_of
      (snd (UpdateMetric a b 0x1p-1074%float false true (g, BlockchainLedger_new))) a b
    = 0%float.
Proof.
  intros l.
  assert (Hd : m_defaultSnr l = 20%float).
  { unfold l. by destruct (apply_calls_defaults calls (g, BlockchainLedger_new)) as [_ ->]. }
  assert (Hsnr : GetSnr l a b
                 = if dltb d0 (avg_snr_of l a b) then avg_snr_of l a b else 20%float).
  { unfold GetSnr, avg_snr_of, metric_at. rewrite Hd.
    by destruct (m_ledger l !! MakeKey a b) as [m|]. }
  split_and!.
  - intros E. pose proof (avg_snr_unobserved calls g a b E) as E0. fold l in E0.
    split; [exact E0|]. by rewrite Hsnr, E0.
  - rewrite Hsnr. destruct (dltb d0 (avg_snr_of l a b)); auto.
  - intros Hpos. split; [|by rewrite Hsnr, Hpos].
    intros E. pose proof (avg_snr_unobserved calls g a b E) as E0. fold l in E0.
    by rewrite E0 in Hpos.
  - unfold avg_snr_of. by rewrite UpdateMetric_at.
Qed.

(** * Further properties of the topology builder and the path solver *)

Section WeightTable.
Context {D : Type} {Ar : Arith D}.
Implicit Types (e : RoutingEngine D) (ledger : BlockchainLedger D) (nodes : NodeContainer D).

Lemma edge_cost_sym e ledger (ds : D) (i j : N) :
  edge_cost e ledger ds i j = edge_cost e ledger ds j i.
Proof.
  unfold edge_cost, GetTrust, GetSnr. by rewrite (MakeKey_sym i j).
Qed.

Lemma edge_cost_params e1 e2 ledger (ds : D) (i j : N) :
  m_alpha e1 = m_alpha e2 → m_beta e1 = m_beta e2 →
  m_useBlockchain e1 = m_useBlockchain e2 →
  edge_cost e1 ledger ds i j = edge_cost e2 ledger ds i j.
Proof. intros Ha Hb Hu. unfold edge_cost. by rewrite Ha, Hb, Hu. Qed.

Lemma BuildGraph_params nodes ledger (maxRange : D) bh (ds : D) e :
  m_alpha (BuildGraph nodes ledger maxRange bh ds e) = m_alpha e
  ∧ m_beta (BuildGraph nodes ledger maxRange bh ds e) = m_beta e
  ∧ m_useBlockchain (BuildGraph nodes ledger maxRange bh ds e) = m_useBlockchain e.
Proof.
  apply (BuildGraph_ind (fun e' => m_alpha e' = m_alpha e ∧ m_beta e' = m_beta e
                                   ∧ m_useBlockchain e' = m_useBlockchain e)).
  - done.
  - intros i j e' _ _ IH. rewrite BuildGraph_pair_unfold.
    by destruct (within_range nodes maxRange i j).
Qed.

Lemma BuildGraph_weight_table nodes ledger (maxRange : D) bh (ds : D) e (a b : N) :
  (b ∈ nbrs (m_graph (BuildGraph nodes ledger maxRange bh ds e)) a →
   m_weights (BuildGraph nodes ledger maxRange bh ds e) !! (a, b)
   = Some (edge_cost e ledger ds a b))
  ∧ (b ∉ nbrs (m_graph (BuildGraph nodes ledger maxRange bh ds e)) a →
     m_weights (BuildGraph nodes ledger maxRange bh ds e) !! (a, b) = None).
Proof.
  revert a b.
  cut ((m_alpha (BuildGraph nodes ledger maxRange bh ds e) = m_alpha e
        ∧ m_beta (BuildGraph nodes ledger maxRange bh ds e) = m_beta e
        ∧ m_useBlockchain (BuildGraph nodes ledger maxRange bh ds e) = m_useBlockchain e)
       ∧ ∀ a b,
           (b ∈ nbrs (m_graph (BuildGraph nodes ledger maxRange bh ds e)) a →
            m_weights (BuildGraph nodes ledger maxRange bh ds e) !! (a, b)
            = Some (edge_cost e ledger ds a b))
           ∧ (b ∉ nbrs (m_graph (BuildGraph nodes ledger maxRange bh ds e)) a →
              m_weights (BuildGraph nodes ledger maxRange bh ds e) !! (a, b) = None));
    [by intros [_ H]|].
  apply (BuildGraph_ind
           (fun e' => (m_alpha e' = m_alpha e ∧ m_beta e' = m_beta e
                       ∧ m_useBlockchain e' = m_useBlockchain e)
                      ∧ ∀ a b,
                          (b ∈ nbrs (m_graph e') a →
                           m_weights e' !! (a, b) = Some (edge_cost e ledger ds a b))
                          ∧ (b ∉ nbrs (m_graph e') a → m_weights e' !! (a, b) = None))).
  - simpl. split; [done|]. intros a b. rewrite lookup_empty. split; [|done].
    intros H. unfold nbrs in H. rewrite lookup_empty in H. set_solver.
  - intros i j e' _ _ [(Ha & Hb & Hu) He']. rewrite BuildGraph_pair_unfold.
    destruct (within_range nodes maxRange i j); [|done].
    split; [done|]. simpl. intros a b.
    rewrite (edge_cost_params e' e) by done.
    rewrite !elem_of_nbrs_graph_insert.
    destruct (decide ((a, b) = (j, i))) as [E|Hne1].
    { injection E as -> ->. rewrite lookup_insert_eq.
      split; [by rewrite edge_cost_sym|]. intros H. exfalso. apply H. by left. }
    rewrite lookup_insert_ne by done.
    destruct (decide ((a, b) = (i, j))) as [E|Hne2].
    { injection E as -> ->. rewrite lookup_insert_eq.
      split; [done|]. intros H. exfalso. apply H. right. by left. }
    rewrite lookup_insert_ne by done.
    destruct (He' a b) as [H1 H2]. split.
    + intros [[-> ->]|[[-> ->]|H]]; [done..|by apply H1].
    + intros H. apply H2. tauto.
Qed.

(** X9: the weight table [BuildGraph] leaves has an entry for [(a, b)]
    exactly when [b] is a neighbour of [a], and the entry is the cost of
    lines 246-280 for that link; the table and the adjacency are
    symmetric, and no node is its own neighbour. *)
Theorem X9_weight_table nodes ledger (maxRange : D) bh (ds : D) e (a b : N) :
  let e' := BuildGraph nodes ledger maxRange bh ds e in
  (b ∈ nbrs (m_graph e') a → m_weights e' !! (a, b) = Some (edge_cost e ledger ds a b))
  ∧ (b ∉ nbrs (m_graph e') a → m_weights e' !! (a, b) = None)
  ∧ m_weights e' !! (a, b) = m_weights e' !! (b, a)
  ∧ (b ∈ nbrs (m_graph e') a ↔ a ∈ nbrs (m_graph e') b)
  ∧ a ∉ nbrs (m_graph e') a.
Proof.
  intros e'. unfold e'.
  assert (Hsym : ∀ x y, y ∈ nbrs (m_graph (BuildGraph nodes ledger maxRange bh ds e)) x
                        → x ∈ nbrs (m_graph (BuildGraph nodes ledger maxRange bh ds e)) y).
  { intros x y. rewrite BuildGraph_topology. apply topology_symmetric. }
  destruct (BuildGraph_weight_table nodes ledger maxRange bh ds e a b) as [H1 H2].
  destruct (BuildGraph_weight_table nodes ledger maxRange bh ds e b a) as [H3 H4].
  split_and!; [done|done| | |].
  - destruct (decide (b ∈ nbrs (m_graph (BuildGraph nodes ledger maxRange bh ds e)) a))
      as [H|H].
    + rewrite (H1 H), (H3 (Hsym _ _ H)). by rewrite edge_cost_sym.
    + rewrite (H2 H), H4; [done|]. intros H'. by apply H, Hsym.
  - split; apply Hsym.
  - rewrite BuildGraph_topology. intros H%elem_of_nbrs_topology. by destruct H.
Qed.

Lemma set_topology_params e1 e2 (g : gmap N (gset N)) (w : gmap (N * N) D) :
  m_alpha e1 = m_alpha e2 → m_beta e1 = m_beta e2 →
  m_useBlockchain e1 = m_useBlockchain e2 →
  set_topology e1 g w = set_topology e2 g w.
Proof. intros Ha Hb Hu. unfold set_topology. by rewrite Ha, Hb, Hu. Qed.

(** X10: [BuildGraph] starts from cleared maps: what it leaves does not
    depend on the topology the engine held before, and it keeps the
    parameters [m_alpha], [m_beta] and [m_useBlockchain]. *)
Theorem X10_BuildGraph_rebuild nodes nodes0 ledger ledger0 (maxRange maxRange0 : D) bh bh0
    (ds ds0 : D) e :
  BuildGraph nodes ledger maxRange bh ds (BuildGraph nodes0 ledger0 maxRange0 bh0 ds0 e)
  = BuildGraph nodes ledger maxRange bh ds e
  ∧ m_alpha (BuildGraph nodes ledger maxRange bh ds e) = m_alpha e
  ∧ m_beta (BuildGraph nodes ledger maxRange bh ds e) = m_beta e
  ∧ m_useBlockchain (BuildGraph nodes ledger maxRange bh ds e) = m_useBlockchain e.
Proof.
  split; [|apply BuildGraph_params].
  destruct (BuildGraph_params nodes0 ledger0 maxRange0 bh0 ds0 e) as (Ha & Hb & Hu).
  unfold BuildGraph at 1 3.
  by rewrite (set_topology_params _ e ∅ ∅ Ha Hb Hu).
Qed.

End WeightTable.

Section PathShape.
Context {D : Type} {Ar : Arith D} {CL : CostLaws Ar}.

Lemma tree_walk_head g w s (st : DijkstraState D) v p :
  tree_walk g w s st v p → ∃ rest, p = s :: rest.
Proof.
  induction 1 as [|u v p Ht [rest ->]]; [by exists []|].
  by exists (rest ++ [v]).
Qed.

Lemma tree_walk_adjacent g w s (st : DijkstraState D) v p :
  tree_walk g w s st v p →
  p !! (length p - 1)%nat = Some v
  ∧ ∀ i x y, p !! i = Some x → p !! S i = Some y → y ∈ nbrs g x.
Proof.
  induction 1 as [|u v p Ht [Hlast Hadj] Hu Hv Hnot Hprev Hdist].
  - split; [done|]. intros i x y _ Hy. destruct i; done.
  - assert (Hlen : (0 < length p)%nat).
    { destruct (tree_walk_head _ _ _ _ _ _ Ht) as [rest ->]. simpl. lia. }
    split.
    + rewrite length_app. simpl. rewrite lookup_app_r by lia.
      replace (length p + 1 - 1 - length p)%nat with 0%nat by lia. done.
    + intros i x y Hx Hy.
      destruct (decide (S i < length p)%nat) as [Hi|Hi].
      * rewrite lookup_app_l in Hx, Hy by lia. by eapply Hadj.
      * assert (Hi' : i = (length p - 1)%nat).
        { apply lookup_lt_Some in Hy. rewrite length_app in Hy. simpl in Hy. lia. }
        subst i. rewrite lookup_app_l in Hx by lia. rewrite Hlast in Hx.
        injection Hx as <-.
        rewrite lookup_app_r in Hy by lia.
        replace (S (length p - 1) - length p)%nat with 0%nat in Hy by lia.
        injection Hy as <-. done.
Qed.

(** What [CalculatePath] returns on a well-formed graph is empty or a
    branch of the tree the loop has built. *)
Lemma CalculatePath_tree (e : RoutingEngine D) (source dest : N) :
  wf_graph (m_graph e) (m_weights e) →
  CalculatePath e source dest = Some []
  ∨ ∃ st p, source ∈ dom (m_graph e)
            ∧ CalculatePath e source dest = Some p
            ∧ tree_walk (m_graph e) (m_weights e) source st dest p.
Proof.
  intros Hwf. unfold CalculatePath.
  set (g := m_graph e) in *. set (w := m_weights e) in *.
  destruct (decide (source ∈ dom g ∧ dest ∈ dom g)) as [[Hs Hd]|Hno]; [|by left].
  destruct (dijkstra_loop_spec g w source Hwf Hs dest (size (dom g))
              (dijkstra_init g source) (Inv_init g w source Hs)) as [HI HD]; [done|].
  set (st := dijkstra_loop g w dest (size (dom g)) (dijkstra_init g source)) in *.
  pose proof (inv_nonneg _ _ _ _ HI dest Hd) as Hnd.
  rewrite (deqb_dinf _ Hnd), negb_involutive.
  destruct (dltb (dist_at (dist st) dest) dinf) eqn:Efin; [|by left].
  destruct (inv_tree _ _ _ _ HI dest Hd Efin) as [p Ht].
  right. exists st, p. split_and!; [done| |done].
  rewrite (reconstruct_tree_walk g w source Hwf Hs st dest p);
    [by rewrite app_nil_r|by apply (inv_src_prev _ _ _ _ HI)|done|].
  pose proof (tree_walk_length g w source Hwf Hs st dest p Ht). lia.
Qed.

Lemma CalculatePath_shape (e : RoutingEngine D) (source dest : N) (path : list N) :
  wf_graph (m_graph e) (m_weights e) →
  CalculatePath e source dest = Some path →
  NoDup path
  ∧ (∀ x, x ∈ path → x ∈ dom (m_graph e))
  ∧ (∀ i x y, path !! i = Some x → path !! S i = Some y → y ∈ nbrs (m_graph e) x).
Proof.
  intros Hwf Hret.
  destruct (CalculatePath_tree e source dest Hwf) as [E|(st & p & Hs & E & Ht)];
    rewrite E in Hret; injection Hret as <-.
  - split_and!; [constructor|by intros x Hx%elem_of_nil|by intros i x y Hx].
  - split_and!.
    + by eapply tree_walk_NoDup.
    + by eapply tree_walk_dom.
    + by eapply tree_walk_adjacent.
Qed.

Lemma CalculatePath_self (e : RoutingEngine D) (source : N) :
  wf_graph (m_graph e) (m_weights e) →
  source ∈ dom (m_graph e) →
  CalculatePath e source source = Some [source].
Proof.
  intros Hwf Hs.
  destruct (CalculatePath_wf e source source Hwf) as (path & Hret & Hempty & _).
  destruct (CalculatePath_tree e source source Hwf) as [E|(st & p & _ & E & Ht)].
  - rewrite E in Hret. injection Hret as <-.
    destruct Hempty as [Hempty _]. destruct (Hempty eq_refl) as [H|[H|H]]; [done..|].
    exfalso. apply H. exists [source], d0. split; [by constructor|apply d0_finite].
  - rewrite E. f_equal. inversion Ht as [|u v p' Hu Hvis Hnb Hnot Hprev Hdist]; [done|].
    subst. exfalso. apply Hnot.
    destruct (tree_walk_head _ _ _ _ _ _ Hu) as [rest ->]. left.
Qed.

End PathShape.

Section BuildGraphPaths.
Context {D : Type} {Ar : Arith D} {CL : CostLaws Ar} {WL : WeightLaws Ar}.

Lemma BuildGraph_dom_nbrs (nodes : NodeContainer D) ledger (maxRange : D) bh (ds : D) e (x : N) :
  x ∈ dom (m_graph (BuildGraph nodes ledger maxRange bh ds e))
  ↔ ∃ y, y ∈ nbrs (m_graph (BuildGraph nodes ledger maxRange bh ds e)) x.
Proof.
  split; [|intros [y Hy]; by eapply nbrs_dom].
  revert x.
  apply (BuildGraph_ind (fun e' => ∀ x, x ∈ dom (m_graph e') → ∃ y, y ∈ nbrs (m_graph e') x)).
  - simpl. intros x Hx. rewrite dom_empty in Hx. by apply elem_of_empty in Hx.
  - intros i j e' _ _ IH x. rewrite BuildGraph_pair_unfold.
    destruct (within_range nodes maxRange i j); [|apply IH].
    simpl. unfold graph_insert at 1 2. rewrite !dom_insert, !elem_of_union, !elem_of_singleton.
    intros [->|[->|Hx]].
    + exists i. apply elem_of_nbrs_graph_insert. by left.
    + exists j. apply elem_of_nbrs_graph_insert. right.
      apply elem_of_nbrs_graph_insert. by left.
    + destruct (IH x Hx) as [y Hy]. exists y.
      apply elem_of_nbrs_graph_insert. right. apply elem_of_nbrs_graph_insert. by right.
Qed.

Lemma NoDup_bounded_length (p : list N) (n : N) :
  NoDup p → (∀ x, x ∈ p → x < n) → (length p ≤ N.to_nat n)%nat.
Proof.
  intros Hnd Hb.
  assert (Hsub : p ⊆+ u32_range 0 n).
  { apply NoDup_submseteq; [done|]. intros x Hx. apply elem_of_u32_range.
    specialize (Hb x Hx). lia. }
  apply submseteq_length in Hsub. unfold u32_range in Hsub.
  rewrite length_map, length_seq in Hsub. lia.
Qed.

(** X11: a path [CalculatePath] returns on a graph of [BuildGraph]
    visits no node twice, names only nodes of the container (so the
    heartbeat's [nodes.Get] is in range), has at most [GetN()] nodes, and
    any two consecutive nodes are distinct and within radio range. *)
Theorem X11_path_is_simple (nodes : NodeContainer D) (calls : list (Call D)) (g0 : Globals)
    (maxRange : D) (blackholeNodes : gset N) (defaultSnr : D) (e : RoutingEngine D)
    (source dest : N) (path : list N) :
  GetN nodes ≤ UINT32_MAX →
  sane_params e →
  let ledger := snd (apply_calls calls (g0, BlockchainLedger_new)) in
  let e' := BuildGraph nodes ledger maxRange blackholeNodes defaultSnr e in
  CalculatePath e' source dest = Some path →
  NoDup path
  ∧ Forall (fun x => x < GetN nodes) path
  ∧ (length path ≤ N.to_nat (GetN nodes))%nat
  ∧ ∀ i x y, path !! i = Some x → path !! S i = Some y →
      x ≠ y ∧ within_range nodes maxRange (N.min x y) (N.max x y) = true.
Proof.
  intros Hn Hp ledger e' Hret.
  assert (Hwf : wf_graph (m_graph e') (m_weights e')).
  { apply BuildGraph_wf; [done|done|apply apply_calls_ledger_ok]. }
  destruct (CalculatePath_shape e' source dest path Hwf Hret) as (Hnd & Hdom & Hadj).
  assert (Hb : ∀ x, x ∈ path → x < GetN nodes).
  { intros x Hx. apply Hdom in Hx. unfold e' in Hx. rewrite BuildGraph_topology in Hx.
    by apply topology_dom in Hx. }
  split_and!; [done|by apply Forall_forall|by apply NoDup_bounded_length|].
  intros i x y Hx Hy. specialize (Hadj i x y Hx Hy).
  unfold e' in Hadj. rewrite BuildGraph_topology in Hadj.
  apply elem_of_nbrs_topology in Hadj. tauto.
Qed.

(** X12: from a node to itself [CalculatePath] returns the one-node
    path when the node has a neighbour in range; a node with no neighbour
    is not in the graph, and every path from it or to it, the one to
    itself included, is empty. *)
Theorem X12_path_to_self (nodes : NodeContainer D) (calls : list (Call D)) (g0 : Globals)
    (maxRange : D) (blackholeNodes : gset N) (defaultSnr : D) (e : RoutingEngine D)
    (source : N) :
  GetN nodes ≤ UINT32_MAX →
  sane_params e →
  let ledger := snd (apply_calls calls (g0, BlockchainLedger_new)) in
  let e' := BuildGraph nodes ledger maxRange blackholeNodes defaultSnr e in
  ((∃ b, b ∈ nbrs (m_graph e') source) → CalculatePath e' source source = Some [source])
  ∧ ((¬ ∃ b, b ∈ nbrs (m_graph e') source) → ∀ dest,
       CalculatePath e' source dest = Some [] ∧ CalculatePath e' dest source = Some []).
Proof.
  intros Hn Hp ledger e'.
  assert (Hwf : wf_graph (m_graph e') (m_weights e')).
  { apply BuildGraph_wf; [done|done|apply apply_calls_ledger_ok]. }
  split.
  - intros Hb. apply CalculatePath_self; [done|]. by apply BuildGraph_dom_nbrs.
  - intros Hb dest.
    assert (Hs : source ∉ dom (m_graph e')).
    { unfold e' in *. by rewrite BuildGraph_dom_nbrs. }
    unfold CalculatePath. split; rewrite decide_False; tauto.
Qed.

End BuildGraphPaths.

Section BaselineHops.
Variable sqrt_model : Q → Q.

Let Ax : Arith xq := exact sqrt_model.
#[local] Existing Instance Ax.

Lemma baseline_edge_cost (e : RoutingEngine xq) ledger (ds : xq) (i j : N) :
  m_useBlockchain e = false → edge_cost e ledger ds i j = XFin 1.
Proof. intros Hu. unfold edge_cost. by rewrite Hu. Qed.

Lemma baseline_wf (nodes : NodeContainer xq) ledger (maxRange : xq) bh (ds : xq) e :
  GetN nodes ≤ UINT32_MAX → m_useBlockchain e = false →
  wf_graph (m_graph (BuildGraph nodes ledger maxRange bh ds e))
           (m_weights (BuildGraph nodes ledger maxRange bh ds e)).
Proof.
  intros Hn Hu. split.
  - intros u v Hv. rewrite BuildGraph_topology in *.
    apply topology_symmetric in Hv. by eapply nbrs_dom.
  - intros u v Hv.
    destruct (BuildGraph_weight_table nodes ledger maxRange bh ds e u v) as [Hw _].
    unfold weight. rewrite (Hw Hv), baseline_edge_cost by done. done.
  - rewrite BuildGraph_topology. intros Hmax. apply topology_dom in Hmax. lia.
Qed.

Lemma unit_walk_cost (g : gmap N (gset N)) (w : gmap (N * N) xq) (s v : N)
    (p : list N) (c : xq) :
  (∀ a b, b ∈ nbrs g a → weight w a b = XFin 1) →
  walk g w s v p c →
  ∃ q, c = XFin q ∧ (q == inject_Z (Z.of_nat (hops p)))%Q.
Proof.
  intros Hw. induction 1 as [|u v p c Hwalk (q & -> & Hq) Hv].
  - exists 0%Q. split; [done|]. reflexivity.
  - rewrite (Hw _ _ Hv).
    destruct (xq_add_fin q 1) as (r & Hr & Er). exists r. split; [exact Hr|].
    rewrite Er, Hq. unfold hops. rewrite length_app. simpl.
    destruct (walk_shape _ _ _ _ _ _ Hwalk) as (rest & -> & _). simpl.
    replace (length rest + 1)%nat with (S (length rest)) by lia.
    rewrite !Nat.sub_0_r, Nat2Z.inj_succ. unfold Z.succ.
    rewrite inject_Z_plus. reflexivity.
Qed.

(** X13: in Baseline mode every edge weighs 1.0, whatever the ledger
    holds, and in exact arithmetic the path [CalculatePath] returns has
    the fewest hops: no walk from the source to the destination has fewer
    nodes. *)
Theorem X13_baseline_fewest_hops (nodes : NodeContainer xq) (ledger : BlockchainLedger xq)
    (maxRange : xq) (blackholeNodes : gset N) (defaultSnr : xq) (e : RoutingEngine xq)
    (source dest : N) (path : list N) :
  GetN nodes ≤ UINT32_MAX →
  m_useBlockchain e = false →
  let e' := BuildGraph nodes ledger maxRange blackholeNodes defaultSnr e in
  CalculatePath e' source dest = Some path →
  (∀ a b, b ∈ nbrs (m_graph e') a → m_weights e' !! (a, b) = Some (XFin 1))
  ∧ ∀ q c, walk (m_graph e') (m_weights e') source dest q c → (length path ≤ length q)%nat.
Proof.
  intros Hn Hu e' Hret.
  pose proof (baseline_wf nodes ledger maxRange blackholeNodes defaultSnr e Hn Hu) as Hwf.
  fold e' in Hwf.
  assert (Hone : ∀ a b, b ∈ nbrs (m_graph e') a → m_weights e' !! (a, b) = Some (XFin 1)).
  { intros a b Hb.
    destruct (BuildGraph_weight_table nodes ledger maxRange blackholeNodes defaultSnr e a b)
      as [Hw _].
    unfold e'. by rewrite (Hw Hb), baseline_edge_cost. }
  split; [exact Hone|]. intros q c Hq.
  destruct (CalculatePath_wf (CL:=exact_CostLaws sqrt_model) e' source dest Hwf)
    as (path' & Hret' & _ & Hbest).
  pose proof (eq_trans (eq_sym Hret) Hret') as E. injection E as <-.
  destruct path as [|x path]; [simpl; lia|].
  destruct (Hbest ltac:(done)) as (Hwalk & _ & Hmin).
  specialize (Hmin q c Hq).
  assert (Hw1 : ∀ a b, b ∈ nbrs (m_graph e') a → weight (m_weights e') a b = XFin 1).
  { intros a b Hb. unfold weight. by rewrite (Hone a b Hb). }
  destruct (unit_walk_cost _ _ _ _ _ _ Hw1 Hwalk) as (qp & Ep & Hqp).
  destruct (unit_walk_cost _ _ _ _ _ _ Hw1 Hq) as (qc & -> & Hqc).
  rewrite Ep in Hmin. unfold dle in Hmin.
  change (xq_ltb (XFin qc) (XFin qp) = false) in Hmin.
  apply xq_ltb_fin_false in Hmin. rewrite Hqp, Hqc in Hmin.
  rewrite <- Zle_Qle in Hmin. unfold hops in Hmin.
  destruct (walk_shape _ _ _ _ _ _ Hq) as (rest & -> & _). simpl in *. lia.
Qed.

End BaselineHops.

Section GuardsBinary64.

Lemma float_pos_not_le (x : float) : PrimFloat.ltb 0 x = true → PrimFloat.leb x 0 = false.
Proof.
  rewrite FloatAxioms.ltb_spec, FloatAxioms.leb_spec.
  change (Prim2SF 0) with (SpecFloat.S754_zero false).
  destruct (Prim2SF x) as [s|s| |s m e]; try destruct s; try done.
Qed.

Lemma GetSnr_pos64 (calls : list (Call float)) (g : Globals) (i j : N) :
  dltb d0 (GetSnr (snd (apply_calls calls (g, BlockchainLedger_new))) i j) = true.
Proof.
  unfold GetSnr.
  destruct (apply_calls_defaults calls (g, BlockchainLedger_new (D:=float))) as [_ ->].
  destruct (m_ledger _ !! MakeKey i j) as [m|]; [|reflexivity].
  destruct (dltb d0 (movingAvgSnr m)) eqn:E; [done|reflexivity].
Qed.

(** X14: on a ledger built by [UpdateMetric] the three guards of
    [BuildGraph] (lines 252-263) never fire in binary64: [GetSnr] is
    positive and [GetTrust] is at least 0.3, so the Proposed weight is
    [m_alpha / GetSnr + m_beta / GetTrust] and the argument [defaultSnr]
    is never used. *)
Theorem X14_guards_never_fire (calls : list (Call float)) (g : Globals) (e : RoutingEngine float)
    (defaultSnr : float) (i j : N) :
  let ledger := snd (apply_calls calls (g, BlockchainLedger_new)) in
  edge_cost e ledger defaultSnr i j = plain_cost e ledger i j
  ∧ dleb (GetSnr ledger i j) d0 = false
  ∧ dleb (GetTrust ledger i j) d0 = false
  ∧ dltb (GetTrust ledger i j) d0_3 = false.
Proof.
  intros ledger.
  assert (Hs : dleb (GetSnr ledger i j) d0 = false).
  { apply float_pos_not_le, GetSnr_pos64. }
  assert (Ht : dleb (GetTrust ledger i j) d0 = false ∧ dltb (GetTrust ledger i j) d0_3 = false).
  { unfold ledger. rewrite GetTrust_decay.
    by destruct (count_penalties (on_link i j calls)) as [|[|k]]. }
  destruct Ht as [Ht1 Ht2]. split_and!; try done.
  unfold edge_cost, plain_cost. by rewrite Hs, Ht1, Ht2.
Qed.

End GuardsBinary64.

(** * Drops and the Proposed weight *)

Section OtherLinks.
Context {D : Type} {Ar : Arith D}.

Lemma UpdateMetric_other_link src dst (snr : D) isDrop ub gl (a b : N) :
  MakeKey a b ≠ MakeKey src dst →
  GetTrust (snd (UpdateMetric src dst snr isDrop ub gl)) a b = GetTrust (snd gl) a b
  ∧ GetSnr (snd (UpdateMetric src dst snr isDrop ub gl)) a b = GetSnr (snd gl) a b.
Proof.
  intros Hne. unfold GetTrust, GetSnr.
  rewrite UpdateMetric_other by done.
  by destruct (UpdateMetric_defaults src dst snr isDrop ub gl) as (-> & -> & _).
Qed.

Lemma UpdateMetric_keeps_snr src dst isDrop ub gl (a b : N) :
  dltb d0 (d0 : D) = false →
  GetSnr (snd (UpdateMetric src dst d0 isDrop ub gl)) a b = GetSnr (snd gl) a b.
Proof.
  intros H00. unfold GetSnr.
  destruct (UpdateMetric_defaults src dst d0 isDrop ub gl) as (_ & -> & _).
  rewrite UpdateMetric_ledger.
  destruct (decide (MakeKey a b = MakeKey src dst)) as [Ek|Ek].
  - rewrite Ek, lookup_insert_eq. unfold metric_at, updated_metric. cbn [movingAvgSnr].
    rewrite H00.
    destruct (m_ledger (snd gl) !! MakeKey src dst) as [m|]; [done|].
    simpl. by rewrite H00.
  - by rewrite lookup_insert_ne.
Qed.

End OtherLinks.

Section CostMonotone.
Context {D : Type} {Ar : Arith D}.
Context {CL : CostLaws Ar} {WL : WeightLaws Ar} {RL : RoundingLaws Ar}.

Lemma trust_steps (k : nat) :
  Nat.iter k (fun t => dmax d0_3 (dmul t d0_5)) d1 = decay_curve k.
Proof.
  destruct k as [|[|k]]; [reflexivity|apply halve_d1|].
  induction k as [|k IH].
  - simpl. by rewrite halve_d1, halve_d0_5.
  - rewrite Nat.iter_succ, IH. apply halve_d0_3.
Qed.

Lemma GetTrust_steps (calls : list (Call D)) (g : Globals) (a b : N) :
  GetTrust (snd (apply_calls calls (g, BlockchainLedger_new))) a b
  = decay_curve (count_penalties (on_link a b calls)).
Proof. apply GetTrust_curve. exact trust_steps. Qed.

(** The three trust levels pass the guards of lines 256-263, and a
    further penalty does not raise the level. *)
Lemma decay_curve_level (k : nat) :
  dltb d0 (decay_curve k) = true
  ∧ nonneg (decay_curve k)
  ∧ dltb (decay_curve k) d0_3 = false
  ∧ dle (decay_curve (S k)) (decay_curve k).
Proof.
  assert (H3 : nonneg d0_3) by apply nonneg_d0_3.
  assert (H5 : nonneg d0_5) by (apply pos_nonneg, d0_5_pos).
  assert (H1 : nonneg d1) by apply nonneg_d1.
  destruct k as [|[|k]]; simpl decay_curve.
  - split_and!; [apply d1_pos|done| |apply d0_5_le_d1].
    apply (dle_trans d0_3 d0_5 d1); [done..|apply d0_3_le_d0_5|apply d0_5_le_d1].
  - split_and!; [apply d0_5_pos|done|apply d0_3_le_d0_5|apply d0_3_le_d0_5].
  - split_and!; [apply d0_3_pos|done|by apply dle_refl|by apply dle_refl].
Qed.

Lemma steps_plain_cost (calls : list (Call D)) (g : Globals) (e : RoutingEngine D)
    (ds : D) (i j : N) :
  edge_cost e (snd (apply_calls calls (g, BlockchainLedger_new))) ds i j
  = plain_cost e (snd (apply_calls calls (g, BlockchainLedger_new))) i j.
Proof.
  unfold edge_cost, plain_cost.
  pose proof (GetSnr_pos _ i j (apply_calls_ledger_ok calls g)) as Hs.
  rewrite (pos_not_dleb _ Hs), GetTrust_steps.
  destruct (decay_curve_level (count_penalties (on_link i j calls))) as (Hp & _ & H3 & _).
  by rewrite (pos_not_dleb _ Hp), H3.
Qed.

(** X15: a penalised drop as the callbacks report it
    ([UpdateMetric(src, dst, 0.0, true, true)]) never lowers the weight
    of the link it is reported on, and leaves the weight of every other
    link as it was.  This holds in every arithmetic with monotone
    rounding, exact or rounded: the quotient [beta / trust] does not
    shrink when trust does, and the sum follows it. *)
Theorem X15_drop_raises_cost (calls : list (Call D)) (g : Globals) (e : RoutingEngine D)
    (ds : D) (src dst i j : N) :
  sane_params e →
  let gl := apply_calls calls (g, BlockchainLedger_new) in
  let ledger := snd gl in
  let ledger' := snd (apply_call gl (penalised_drop src dst)) in
  dle (edge_cost e ledger ds i j) (edge_cost e ledger' ds i j)
  ∧ (MakeKey i j ≠ MakeKey src dst →
     edge_cost e ledger' ds i j = edge_cost e ledger ds i j).
Proof.
  intros (Han & Haf & Hbn & Hbf) gl ledger ledger'.
  assert (Hother : MakeKey i j ≠ MakeKey src dst →
                   edge_cost e ledger' ds i j = edge_cost e ledger ds i j).
  { intros Hne. unfold ledger', apply_call, penalised_drop.
    cbn [c_src c_dst c_snr c_isDrop c_useBlockchain].
    destruct (UpdateMetric_other_link src dst d0 true true gl i j Hne) as [Ht Hs].
    unfold edge_cost. by rewrite Ht, Hs. }
  split; [|exact Hother].
  assert (Hsane : sane_params e) by done.
  assert (Hnn : nonneg (edge_cost e ledger ds i j)).
  { apply edge_cost_nonneg; [done|]. apply apply_calls_ledger_ok. }
  destruct (decide (MakeKey i j = MakeKey src dst)) as [Ek|Ek].
  2:{ rewrite (Hother Ek). by apply dle_refl. }
  assert (El : ledger' = snd (apply_calls (calls ++ [penalised_drop src dst])
                                (g, BlockchainLedger_new))).
  { unfold ledger', gl. by rewrite apply_calls_app. }
  assert (Hsnr : GetSnr ledger' i j = GetSnr ledger i j).
  { unfold ledger', apply_call, penalised_drop.
    cbn [c_src c_dst c_snr c_isDrop c_useBlockchain].
    apply UpdateMetric_keeps_snr. apply (dle_refl d0 nonneg_d0). }
  rewrite El, steps_plain_cost. rewrite <- El.
  unfold ledger at 1. unfold gl. rewrite steps_plain_cost. fold gl. fold ledger.
  unfold plain_cost. destruct (m_useBlockchain e).
  2:{ apply dle_refl, nonneg_d1. }
  rewrite Hsnr.
  assert (Ht : GetTrust ledger i j = decay_curve (count_penalties (on_link i j calls))).
  { apply GetTrust_steps. }
  assert (Ht' : GetTrust ledger' i j
                = decay_curve (S (count_penalties (on_link i j calls)))).
  { rewrite El, GetTrust_steps. f_equal. unfold on_link. rewrite filter_app.
    rewrite count_penalties_app.
    rewrite (filter_cons_True _ (penalised_drop src dst)) by (simpl; by symmetry).
    change (count_penalties (penalised_drop src dst :: filter _ [])) with 1%nat. lia. }
  rewrite Ht, Ht'.
  set (k := count_penalties (on_link i j calls)).
  destruct (decay_curve_level k) as (_ & Hkn & _ & Hle).
  destruct (decay_curve_level (S k)) as (Hpos' & Hkn' & _ & _).
  pose proof (GetSnr_pos ledger i j (apply_calls_ledger_ok calls g)) as Hs.
  assert (Hk0 : dltb d0 (decay_curve k) = true) by apply decay_curve_level.
  apply dadd_mono_r.
  - by apply ddiv_nonneg.
  - by apply ddiv_nonneg.
  - by apply ddiv_nonneg.
  - by apply ddiv_anti.
Qed.

End CostMonotone.

(** * The parser on well-formed contexts *)

Section Parser.

Lemma digit_facts (d : N) :
  d < 10 →
  isspace (digit_char d) = false
  ∧ digit_of (digit_char d) = Some d
  ∧ digit_char d ≠ "/"%char ∧ digit_char d ≠ "-"%char ∧ digit_char d ≠ "+"%char.
Proof.
  intros Hd.
  assert (H : d = 0 ∨ d = 1 ∨ d = 2 ∨ d = 3 ∨ d = 4 ∨ d = 5 ∨ d = 6 ∨ d = 7 ∨ d = 8 ∨ d = 9)
    by lia.
  destruct H as [->|[->|[->|[->|[->|[->|[->|[->|[->| ->]]]]]]]]]; by vm_compute.
Qed.

Lemma append_empty (t : string) : (EmptyString ++ t)%string = t.
Proof. reflexivity. Qed.

Lemma append_cons (c : ascii) (s t : string) : (String c s ++ t)%string = String c (s ++ t).
Proof. reflexivity. Qed.

Lemma prefix_empty (s : string) : String.prefix EmptyString s = true.
Proof. by destruct s. Qed.

Lemma prefix_cons (c : ascii) (s t : string) :
  String.prefix (String c s) (String c t) = String.prefix s t.
Proof. simpl. destruct (ascii_dec c c); [|done]. by destruct s, t. Qed.

Lemma prefix_append (s t : string) : String.prefix s (s ++ t) = true.
Proof.
  induction s as [|c s IH]; [apply prefix_empty|].
  change (String c s ++ t)%string with (String c (s ++ t)). by rewrite prefix_cons.
Qed.

Lemma index_at_start (s t : string) : index 0 s (s ++ t) = Some 0%nat.
Proof.
  destruct s as [|c s]; [by destruct t|].
  change (String c s ++ t)%string with (String c (s ++ t)).
  unfold index. fold index.
  change (String c (s ++ t)) with (String c s ++ t)%string.
  by rewrite prefix_append.
Qed.

Lemma index_skip (s p t : string) :
  index (String.length s) p (s ++ t)
  = match index 0 p t with Some k => Some (String.length s + k)%nat | None => None end.
Proof.
  induction s as [|c s IH].
  - rewrite append_empty. simpl. by destruct (index 0 p t).
  - rewrite append_cons. simpl. rewrite IH. by destruct (index 0 p t).
Qed.

Lemma substring_skip (s t : string) (m : nat) :
  substring (String.length s) m (s ++ t) = substring 0 m t.
Proof. induction s as [|c s IH]; [done|]. rewrite append_cons. simpl. exact IH. Qed.

Lemma index_slash_digits (ds : list N) (rest : string) :
  Forall (fun d => d < 10) ds →
  index 0 "/" (digits_string ds ++ "/" ++ rest) = Some (length ds).
Proof.
  induction 1 as [|d ds Hd Hds IH]; [apply (index_at_start "/" rest)|].
  simpl digits_string.
  change (String (digit_char d) (digits_string ds) ++ "/" ++ rest)%string
    with (String (digit_char d) (digits_string ds ++ "/" ++ rest)).
  destruct (digit_facts d Hd) as (_ & _ & Hslash & _).
  unfold index. fold index. rewrite IH.
  unfold String.prefix. destruct (ascii_dec "/" (digit_char d)) as [E|E]; [by symmetry in E|].
  done.
Qed.

Lemma substring_digits (ds : list N) (tail : string) :
  substring 0 (length ds) (digits_string ds ++ tail) = digits_string ds.
Proof.
  induction ds as [|d ds IH].
  - simpl. by destruct tail.
  - simpl digits_string. rewrite append_cons. simpl. by rewrite IH.
Qed.

Lemma read_digits_digits (ds : list N) (acc : N) (count : nat) :
  Forall (fun d => d < 10) ds →
  read_digits (digits_string ds) acc count
  = (fold_left (fun acc d => 10 * acc + d) ds acc, (count + length ds)%nat).
Proof.
  intros H. revert acc count. induction H as [|d ds Hd Hds IH]; intros acc count.
  - simpl. by rewrite Nat.add_0_r.
  - simpl. destruct (digit_facts d Hd) as (_ & -> & _).
    rewrite IH. f_equal. lia.
Qed.

Lemma stoul_digits (ds : list N) :
  Forall (fun d => d < 10) ds → ds ≠ [] →
  stoul (digits_string ds)
  = if ULONG_MAX <? digits_value ds then Throws out_of_range else Returns (digits_value ds).
Proof.
  intros H Hne. destruct ds as [|d ds]; [done|].
  inversion H as [|? ? Hd Hds]; subst.
  destruct (digit_facts d Hd) as (Hsp & Hdig & _ & Hminus & Hplus).
  unfold stoul. simpl digits_string. simpl skip_space. rewrite Hsp.
  assert (E : (let '(neg, s2) :=
                 match String (digit_char d) (digits_string ds) with
                 | String "-"%char r => (true, r)
                 | String "+"%char r => (false, r)
                 | _ => (false, String (digit_char d) (digits_string ds))
                 end in (neg, s2))
              = (false, String (digit_char d) (digits_string ds))).
  { destruct (digit_char d) as [[] [] [] [] [] [] [] []]; try done. }
  revert E.
  destruct (digit_char d) as [[] [] [] [] [] [] [] []] eqn:Ec; try done; intros _;
    rewrite <- Ec;
    change (String (digit_char d) (digits_string ds)) with (digits_string (d :: ds));
    rewrite (read_digits_digits (d :: ds) 0 0 H); simpl length; reflexivity.
Qed.

(** X16: on a context [/NodeList/<digits>/...] the parser returns the
    number the digits denote, reduced modulo 2^32 by the cast (leading
    zeros are accepted); it throws [std::out_of_range] when the number
    does not fit [unsigned long]. *)
Theorem X16_parse_node_context (ds : list N) (rest : string) :
  Forall (fun d => d < 10) ds → ds ≠ [] →
  ParseNodeIdFromContext (node_context ds rest)
  = if ULONG_MAX <? digits_value ds then Throws out_of_range
    else Returns (digits_value ds mod 2 ^ 32).
Proof.
  intros Hds Hne. unfold ParseNodeIdFromContext, node_context.
  rewrite index_at_start.
  change (0 + 10)%nat with (String.length "/NodeList/").
  rewrite index_skip, index_slash_digits by done.
  rewrite substring_skip.
  replace (String.length "/NodeList/" + length ds - String.length "/NodeList/")%nat
    with (length ds) by lia.
  rewrite substring_digits, stoul_digits by done.
  by destruct (ULONG_MAX <? digits_value ds).
Qed.

End Parser.

(** * The heartbeat *)

Section HeartbeatFacts.
Context {D : Type} {Ar : Arith D}.

Lemma incr_routeSkips_iter (k : nat) (g : Globals) :
  let g' := Nat.iter k incr_routeSkips g in
  g_routeSkips g' = Nat.iter k u64_incr (g_routeSkips g)
  ∧ g_maliciousDrops g' = Nat.iter k u64_incr (g_maliciousDrops g)
  ∧ g_phyDrops g' = g_phyDrops g ∧ g_l3Drops g' = g_l3Drops g
  ∧ g_blackholeL3Drops g' = g_blackholeL3Drops g
  ∧ g_trustPenalties g' = g_trustPenalties g.
Proof.
  cbv zeta. induction k as [|k IH]; [done|]. rewrite !Nat.iter_succ.
  destruct IH as (H1 & H2 & H3 & H4 & H5 & H6). simpl.
  rewrite H1, H2. done.
Qed.

Lemma path_skips_cons (blackholes : gset N) (x y : N) (rest : list N) :
  path_skips blackholes (x :: y :: rest)
  = ((if bool_decide (x ∈ blackholes) then 1 else 0)
     + path_skips blackholes (y :: rest))%nat.
Proof.
  unfold path_skips. simpl length. rewrite !Nat.sub_0_r. simpl take.
  destruct (decide (x ∈ blackholes)) as [Hx|Hx].
  - by rewrite bool_decide_true, filter_cons_True by done.
  - by rewrite bool_decide_false, filter_cons_False by done.
Qed.

Lemma install_hops_cons (c : SimulationContext D) (x y : N) (rest : list N) (g : Globals) :
  install_hops c (x :: y :: rest) g
  = match install_hop c g x y with
    | Some g' => install_hops c (y :: rest) g'
    | None => None
    end.
Proof. reflexivity. Qed.

Lemma install_hops_skips (c : SimulationContext D) (path : list N) (g g' : Globals) :
  install_hops c path g = Some g' → ∃ k, g' = Nat.iter k incr_routeSkips g.
Proof.
  revert g. induction path as [|x path IH]; intros g; [intros [= <-]; by exists 0%nat|].
  destruct path as [|y rest]; [intros [= <-]; by exists 0%nat|].
  rewrite install_hops_cons. destruct (install_hop c g x y) as [g1|] eqn:E; [|done].
  intros H. destruct (IH g1 H) as [k ->]. unfold install_hop in E.
  destruct (bool_decide (x ∈ blackholeNodes c)).
  - injection E as <-. exists (S k). by rewrite Nat.iter_succ_r.
  - destruct (_ && _); [|done]. injection E as <-. by exists k.
Qed.

Lemma install_flows_skips (c : SimulationContext D) (flows : list (N * N)) (g g' : Globals) :
  install_flows c flows g = Some g' → ∃ k, g' = Nat.iter k incr_routeSkips g.
Proof.
  revert g. induction flows as [|flow flows IH]; intros g; [intros [= <-]; by exists 0%nat|].
  simpl. destruct (CalculatePath _ _ _) as [path|]; [|done].
  destruct (install_path c (snd flow) g path) as [g1|] eqn:E; [|done].
  intros H. destruct (IH g1 H) as [k ->].
  assert (Hp : ∃ j, g1 = Nat.iter j incr_routeSkips g).
  { unfold install_path in E. destruct (1 <? length path)%nat.
    - destruct (snd flow <? _); [|done]. by apply (install_hops_skips c path).
    - injection E as <-. by exists 0%nat. }
  destruct Hp as [j ->]. exists (k + j)%nat. by rewrite Nat.iter_add.
Qed.

(** The heartbeat is its first step followed by route skips. *)
Lemma SimulationHeartbeat_skips (w w' : World D) :
  SimulationHeartbeat w = Some w' →
  ∃ k, w' = (Nat.iter k incr_routeSkips (fst w), snd (Heartbeat_BuildGraph w)).
Proof.
  unfold SimulationHeartbeat. cbv zeta.
  destruct (install_flows _ _ _) as [g'|] eqn:E; [|done]. intros [= <-].
  destruct (install_flows_skips _ _ _ _ E) as [k ->]. exists k. by destruct w.
Qed.

Lemma install_hops_iter (c : SimulationContext D) (path : list N) (g : Globals) :
  GetN (nodes c) ≤ N.of_nat (length (ipv4Interfaces c)) →
  Forall (fun x => x < GetN (nodes c)) path →
  install_hops c path g
  = Some (Nat.iter (path_skips (blackholeNodes c) path) incr_routeSkips g).
Proof.
  intros Haddr Hb. revert g. induction Hb as [|x path Hx Hb IH]; intros g; [done|].
  destruct path as [|y rest]; [done|].
  rewrite path_skips_cons, install_hops_cons. unfold install_hop.
  inversion Hb as [|? ? Hy _]; subst.
  destruct (decide (x ∈ blackholeNodes c)) as [Hbh|Hbh].
  - rewrite !bool_decide_true by done. rewrite IH.
    by rewrite Nat.iter_succ_r.
  - rewrite !bool_decide_false by done.
    replace (x <? GetN (nodes c)) with true by (symmetry; by apply N.ltb_lt).
    replace (y <? N.of_nat (length (ipv4Interfaces c))) with true
      by (symmetry; apply N.ltb_lt; lia).
    simpl andb. cbv iota. by rewrite IH.
Qed.

Lemma path_skips_bound (blackholes : gset N) (path : list N) :
  NoDup path → (path_skips blackholes path ≤ size blackholes)%nat.
Proof.
  intros Hnd. unfold path_skips.
  set (L := filter (fun x => x ∈ blackholes) (take (length path - 1) path)).
  assert (HL : NoDup L).
  { apply NoDup_filter. rewrite <- (take_drop (length path - 1) path) in Hnd.
    by apply NoDup_app in Hnd as [H _]. }
  assert (Hsub : L ⊆+ elements blackholes).
  { apply NoDup_submseteq; [done|]. intros x Hx%list_elem_of_filter.
    apply elem_of_elements. tauto. }
  apply submseteq_length in Hsub. done.
Qed.

Lemma sum_skips_bound (blackholes : gset N) (paths : list (list N)) :
  Forall (fun path => NoDup path) paths →
  (sum_list (map (path_skips blackholes) paths) ≤ length paths * size blackholes)%nat.
Proof.
  induction 1 as [|path paths Hnd _ IH]; [done|].
  simpl. pose proof (path_skips_bound blackholes path Hnd). lia.
Qed.

Lemma CalculatePath_nonempty (e : RoutingEngine D) (source dest : N) (path : list N) :
  CalculatePath e source dest = Some path → path ≠ [] → dest ∈ dom (m_graph e).
Proof.
  unfold CalculatePath. cbv zeta.
  destruct (decide (source ∈ dom (m_graph e) ∧ dest ∈ dom (m_graph e))) as [[_ Hd]|_];
    [done|].
  by intros [= <-].
Qed.

Lemma install_path_iter {CL : CostLaws Ar} (c : SimulationContext D) (source dest : N)
    (g : Globals) (path : list N) :
  wf_graph (m_graph (routingEngine c)) (m_weights (routingEngine c)) →
  (∀ x, x ∈ dom (m_graph (routingEngine c)) → x < GetN (nodes c)) →
  GetN (nodes c) ≤ N.of_nat (length (ipv4Interfaces c)) →
  CalculatePath (routingEngine c) source dest = Some path →
  NoDup path
  ∧ install_path c dest g path
    = Some (Nat.iter (path_skips (blackholeNodes c) path) incr_routeSkips g).
Proof.
  intros Hwf Hdom Haddr Hret.
  destruct (CalculatePath_shape _ _ _ path Hwf Hret) as (Hnd & Hin & _).
  split; [done|]. unfold install_path.
  destruct (1 <? length path)%nat eqn:E.
  - assert (Hne : path ≠ []) by (by destruct path).
    pose proof (Hdom _ (CalculatePath_nonempty _ _ _ _ Hret Hne)) as Hd.
    replace (dest <? N.of_nat (length (ipv4Interfaces c))) with true
      by (symmetry; apply N.ltb_lt; lia).
    apply install_hops_iter; [done|]. apply Forall_forall. intros x Hx. by apply Hdom, Hin.
  - apply Nat.ltb_ge in E. unfold path_skips.
    replace (length path - 1)%nat with 0%nat by lia. by rewrite take_0.
Qed.

Lemma install_flows_total {CL : CostLaws Ar} (c : SimulationContext D)
    (flows : list (N * N)) (g : Globals) :
  wf_graph (m_graph (routingEngine c)) (m_weights (routingEngine c)) →
  (∀ x, x ∈ dom (m_graph (routingEngine c)) → x < GetN (nodes c)) →
  GetN (nodes c) ≤ N.of_nat (length (ipv4Interfaces c)) →
  ∃ paths,
    Forall2 (fun flow path =>
               CalculatePath (routingEngine c) (fst flow) (snd flow) = Some path) flows paths
    ∧ Forall (fun path => NoDup path) paths
    ∧ install_flows c flows g
      = Some (Nat.iter (sum_list (map (path_skips (blackholeNodes c)) paths))
                incr_routeSkips g).
Proof.
  intros Hwf Hdom Haddr. revert g. induction flows as [|flow flows IH]; intros g.
  - exists []. by split_and!.
  - destruct (CalculatePath_wf (routingEngine c) (fst flow) (snd flow) Hwf)
      as (path & Hret & _).
    destruct (install_path_iter c _ _ g path Hwf Hdom Haddr Hret) as [Hnd Hp].
    destruct (IH (Nat.iter (path_skips (blackholeNodes c) path) incr_routeSkips g))
      as (paths & HF & HN & E).
    exists (path :: paths). split_and!; [by constructor|by constructor|].
    simpl. rewrite Hret, Hp, E. f_equal.
    rewrite Nat.add_comm. symmetry. apply Nat.iter_add.
Qed.

(** X23: when the address container has an entry for every node,
    [SimulationHeartbeat] returns and reads no container out of range;
    it rebuilds the graph, computes one path for each flow and leaves the
    ledger alone; [g_routeSkips] and [g_maliciousDrops] rise by the same
    number, one for each node of a path, the last apart, that is in the
    ground-truth set; the other counters stay; and since a path visits
    no node twice that number is at most the number of flows times the
    size of the set. *)
Theorem X23_heartbeat_counts {CL : CostLaws Ar} {WL : WeightLaws Ar} (w : World D) :
  GetN (nodes (snd w)) ≤ UINT32_MAX →
  GetN (nodes (snd w)) ≤ N.of_nat (length (ipv4Interfaces (snd w))) →
  sane_params (routingEngine (snd w)) →
  ledger_ok (ledger (snd w)) →
  ∃ paths w',
    SimulationHeartbeat w = Some w'
    ∧ snd w' = snd (Heartbeat_BuildGraph w)
    ∧ Forall2 (fun flow path =>
                 CalculatePath (routingEngine (snd w')) (fst flow) (snd flow) = Some path)
              (activeFlows (snd w)) paths
    ∧ let k := sum_list (map (path_skips (blackholeNodes (snd w))) paths) in
      g_routeSkips (fst w') = Nat.iter k u64_incr (g_routeSkips (fst w))
      ∧ g_maliciousDrops (fst w') = Nat.iter k u64_incr (g_maliciousDrops (fst w))
      ∧ g_phyDrops (fst w') = g_phyDrops (fst w)
      ∧ g_l3Drops (fst w') = g_l3Drops (fst w)
      ∧ g_blackholeL3Drops (fst w') = g_blackholeL3Drops (fst w)
      ∧ g_trustPenalties (fst w') = g_trustPenalties (fst w)
      ∧ (k ≤ length (activeFlows (snd w)) * size (blackholeNodes (snd w)))%nat.
Proof.
  destruct w as [g c]. cbn [fst snd]. intros Hn Haddr Hp Hl.
  set (e' := BuildGraph (nodes c) (ledger c) (maxRadioRange c) (blackholeNodes c)
               (defaultSnr c) (routingEngine c)).
  set (c' := set_ctx_engine c e').
  assert (Hwf : wf_graph (m_graph (routingEngine c')) (m_weights (routingEngine c')))
    by (by apply BuildGraph_wf).
  assert (Hdom : ∀ x, x ∈ dom (m_graph (routingEngine c')) → x < GetN (nodes c')).
  { intros x Hx. simpl in Hx. unfold e' in Hx. rewrite BuildGraph_topology in Hx.
    by apply topology_dom in Hx. }
  destruct (install_flows_total c' (activeFlows c) g Hwf Hdom Haddr)
    as (paths & HF & HN & E).
  exists paths, (Nat.iter (sum_list (map (path_skips (blackholeNodes c)) paths))
                   incr_routeSkips g, c').
  split.
  { unfold SimulationHeartbeat, Heartbeat_BuildGraph. cbn [fst snd].
    fold e'. fold c'. change (activeFlows c') with (activeFlows c). by rewrite E. }
  split; [done|]. split; [done|].
  cbv zeta. cbn [fst snd].
  destruct (incr_routeSkips_iter (sum_list (map (path_skips (blackholeNodes c)) paths)) g)
    as (H1 & H2 & H3 & H4 & H5 & H6).
  do 6 (split; [done|]).
  rewrite (Forall2_length _ _ _ HF). by apply sum_skips_bound.
Qed.

End HeartbeatFacts.

(** * What the events do to the state *)

Section CallbackEffects.
Context {D : Type} {Ar : Arith D}.
Implicit Types (w : World D) (c : Call D).

Lemma UpdateMetric_state src dst (snr : D) isDrop ub (gl1 gl2 : Globals * BlockchainLedger D) :
  calls_state gl1 = calls_state gl2 →
  calls_state (UpdateMetric src dst snr isDrop ub gl1)
  = calls_state (UpdateMetric src dst snr isDrop ub gl2).
Proof.
  destruct gl1 as [g1 l1], gl2 as [g2 l2]. unfold calls_state. simpl.
  intros E. injection E as Eg ->. unfold UpdateMetric.
  destruct isDrop, ub; simpl; by rewrite ?Eg.
Qed.

Lemma effect_refl Q w : effect Q w w.
Proof. exists []. split; [constructor|]. by destruct w. Qed.

Lemma effect_same Q w w1 w2 :
  effect Q w w1 → ledger_state w2 = ledger_state w1 → effect Q w w2.
Proof. intros (calls & HQ & E) E2. exists calls. split; [done|]. by rewrite E2. Qed.

Lemma effect_update Q w w1 src dst (snr : D) isDrop :
  effect Q w w1 →
  Q {| c_src := src; c_dst := dst; c_snr := snr; c_isDrop := isDrop;
       c_useBlockchain := useBlockchain (snd w1) |} →
  effect Q w (ledger_update src dst snr isDrop w1).
Proof.
  intros (calls & HQ & E) Hc.
  exists (calls ++ [{| c_src := src; c_dst := dst; c_snr := snr; c_isDrop := isDrop;
                       c_useBlockchain := useBlockchain (snd w1) |}]).
  split; [apply Forall_app; split; [done|by constructor]|].
  rewrite apply_calls_app, apply_calls_cons. change (apply_calls [] ?x) with x.
  unfold apply_call. cbn [c_src c_dst c_snr c_isDrop c_useBlockchain].
  rewrite <- (UpdateMetric_state src dst snr isDrop (useBlockchain (snd w1))
                (fst w1, ledger (snd w1))) by exact E.
  destruct w1 as [g1 c1]. unfold ledger_update, ledger_state, calls_state. cbn [fst snd].
  by destruct (UpdateMetric src dst snr isDrop (useBlockchain c1) (g1, ledger c1)).
Qed.

(** Invariants of the callbacks: a property of the state that every
    [UpdateMetric] a callback may issue keeps, and that the counter
    increments of the callback keep, holds after the callback. *)
Lemma rx_fanout_inv (I : World D → Prop) (r : N) :
  (∀ w1 i snr, I w1 → I (ledger_update i r snr false w1)) →
  ∀ w, I w → I (rx_fanout r w).
Proof.
  intros Hupd w Hw. unfold rx_fanout.
  generalize (u32_range 0 (GetN (nodes (snd w)))) as L. intros L.
  revert w Hw. induction L as [|i L IH]; intros w Hw; [done|].
  simpl. apply IH.
  destruct (negb (i =? r)); [|done].
  destruct (GetMobility (nodes (snd w)) i), (GetMobility (nodes (snd w)) r); try done.
  destruct (dltb _ _); [|done]. by apply Hupd.
Qed.

Lemma drop_fanout_inv (I : World D → Prop) (r : N) :
  (∀ w1 i, I w1 → I (ledger_update i r d0 true w1)) →
  ∀ w, I w → I (drop_fanout r w).
Proof.
  intros Hupd w Hw. unfold drop_fanout.
  generalize (u32_range 0 (GetN (nodes (snd w)))) as L. intros L.
  revert w Hw. induction L as [|i L IH]; intros w Hw; [done|].
  simpl. apply IH.
  destruct (negb (i =? r)); [|done].
  destruct (GetMobility (nodes (snd w)) i), (GetMobility (nodes (snd w)) r); try done.
  destruct (dltb _ _); [|done]. by apply Hupd.
Qed.

Lemma PhyRxEndCallback_inv (I : World D → Prop) (context : string) w w' :
  (∀ w1 src dst snr, I w1 → I (ledger_update src dst snr false w1)) →
  I w → PhyRxEndCallback context w = Returns w' → I w'.
Proof.
  intros Hupd Hw. unfold PhyRxEndCallback.
  destruct (ParseNodeIdFromContext context) as [r|]; [|done].
  destruct (invalid_node (snd w) r); [by intros [= <-]|].
  destruct (negb (flow_source (activeFlows (snd w)) r =? UINT32_MAX)); intros [= <-].
  - by apply Hupd.
  - apply rx_fanout_inv; [|done]. intros w1 i snr. apply Hupd.
Qed.

Lemma PhyRxDropCallback_inv (I : World D → Prop) (context : string) w w' :
  (∀ w1 src dst, I w1 → I (ledger_update src dst d0 true w1)) →
  (∀ g ctx, I (g, ctx) → I (incr_phyDrops g, ctx)) →
  I w → PhyRxDropCallback context w = Returns w' → I w'.
Proof.
  intros Hupd Hphy Hw. unfold PhyRxDropCallback.
  destruct (ParseNodeIdFromContext context) as [r|]; [|done].
  destruct (invalid_node (snd w) r); [by intros [= <-]|].
  assert (H1 : I (incr_phyDrops (fst w), snd w)) by (apply Hphy; by destruct w).
  destruct (negb (flow_source (activeFlows (snd w)) r =? UINT32_MAX)); intros [= <-].
  - exact (Hupd (incr_phyDrops (fst w), snd w) _ r H1).
  - apply (drop_fanout_inv I r (fun w1 i => Hupd w1 i r) (incr_phyDrops (fst w), snd w) H1).
Qed.

Lemma Ipv4L3DropCallback_inv (I : World D → Prop) (context : string) (srcAddr : N) w w' :
  (∀ w1 src dst, I w1 → I (ledger_update src dst d0 true w1)) →
  (∀ g ctx, I (g, ctx) → I (incr_l3Drops g, ctx)) →
  (∀ g ctx, I (g, ctx) → I (incr_blackholeL3 g, ctx)) →
  I w → Ipv4L3DropCallback context srcAddr w = Returns w' → I w'.
Proof.
  intros Hupd Hl3 Hbh Hw. unfold Ipv4L3DropCallback.
  destruct (ParseNodeIdFromContext context) as [r|]; [|done].
  destruct (invalid_node (snd w) r); [by intros [= <-]|].
  assert (H1 : I (incr_l3Drops (fst w), snd w)) by (apply Hl3; by destruct w).
  assert (H2 : I (if bool_decide (r ∈ blackholeNodes (snd w))
                  then incr_blackholeL3 (incr_l3Drops (fst w))
                  else incr_l3Drops (fst w), snd w)).
  { destruct (bool_decide _); [by apply Hbh|done]. }
  cbv zeta.
  destruct (negb (address_source _ _ _ =? UINT32_MAX)); intros [= <-].
  - exact (Hupd _ _ r H2).
  - apply (drop_fanout_inv I r (fun w1 i => Hupd w1 i r) _ H2).
Qed.

(** The same for a delivered event and for a run. *)
Lemma deliver_inv (I : World D → Prop) (ev : Event D) w w' :
  (∀ w1 src dst snr isDrop, (isDrop = true → snr = d0) →
     I w1 → I (ledger_update src dst snr isDrop w1)) →
  (∀ g ctx, I (g, ctx) → I (incr_phyDrops g, ctx)) →
  (∀ g ctx, I (g, ctx) → I (incr_l3Drops g, ctx)) →
  (∀ g ctx, I (g, ctx) → I (incr_blackholeL3 g, ctx)) →
  (∀ g ctx, I (g, ctx) → I (incr_routeSkips g, ctx)) →
  (∀ w1, I w1 → I (Heartbeat_BuildGraph w1)) →
  (∀ w1 positions, I w1 → I (fst w1, set_ctx_nodes (snd w1) positions)) →
  I w → deliver ev w = Some (Returns w') → I w'.
Proof.
  intros Hupd Hphy Hl3 Hbh Hskip Hhb Hmob Hw.
  destruct ev as [context|context|context srcAddr| |positions]; simpl.
  - intros [= E]. revert E.
    apply PhyRxEndCallback_inv; [|done]. intros w1 src dst snr. by apply Hupd.
  - intros [= E]. revert E.
    apply PhyRxDropCallback_inv; [|done..]. intros w1 src dst. by apply Hupd.
  - intros [= E]. revert E.
    apply Ipv4L3DropCallback_inv; [|done..]. intros w1 src dst. by apply Hupd.
  - destruct (SimulationHeartbeat w) as [w1|] eqn:E; [|done]. intros [= <-].
    destruct (SimulationHeartbeat_skips w w1 E) as [k ->].
    specialize (Hhb w Hw). destruct (Heartbeat_BuildGraph w) as [g1 c1] eqn:Eh.
    assert (Eg : g1 = fst w) by (destruct w; by injection Eh as <- _).
    subst g1. cbn [snd]. clear E. induction k as [|k IH]; [done|].
    rewrite Nat.iter_succ. by apply Hskip.
  - intros [= <-]. by apply Hmob.
Qed.

Lemma run_inv (I : World D → Prop) (evs : list (Event D)) w w' :
  (∀ w1 src dst snr isDrop, (isDrop = true → snr = d0) →
     I w1 → I (ledger_update src dst snr isDrop w1)) →
  (∀ g ctx, I (g, ctx) → I (incr_phyDrops g, ctx)) →
  (∀ g ctx, I (g, ctx) → I (incr_l3Drops g, ctx)) →
  (∀ g ctx, I (g, ctx) → I (incr_blackholeL3 g, ctx)) →
  (∀ g ctx, I (g, ctx) → I (incr_routeSkips g, ctx)) →
  (∀ w1, I w1 → I (Heartbeat_BuildGraph w1)) →
  (∀ w1 positions, I w1 → I (fst w1, set_ctx_nodes (snd w1) positions)) →
  I w → run evs w = Some (Returns w') → I w'.
Proof.
  intros Hupd Hphy Hl3 Hbh Hskip Hhb Hmob. revert w.
  induction evs as [|ev evs IH]; intros w Hw; simpl; [by intros [= <-]|].
  destruct (deliver ev w) as [[w1|]|] eqn:E; [|done..].
  apply IH. by eapply (deliver_inv I ev w w1).
Qed.

End CallbackEffects.

Section CallbackTheorems.
Context {D : Type} {Ar : Arith D}.
Implicit Types (w : World D).

Lemma parse_without_NodeList (context : string) :
  index 0 "/NodeList/" context = None → ParseNodeIdFromContext context = Returns UINT32_MAX.
Proof. intros H. unfold ParseNodeIdFromContext. by rewrite H. Qed.

(** X17: an event whose context has no [/NodeList/], or whose node id is
    [UINT32_MAX] or not below the size of the node container, changes
    nothing: the three callbacks return the state they were given. *)
Theorem X17_invalid_event_ignored (context : string) (srcAddr : N) w :
  (index 0 "/NodeList/" context = None
   ∨ ∃ id, ParseNodeIdFromContext context = Returns id
           ∧ (id = UINT32_MAX ∨ GetN (nodes (snd w)) ≤ id)) →
  PhyRxEndCallback context w = Returns w
  ∧ PhyRxDropCallback context w = Returns w
  ∧ Ipv4L3DropCallback context srcAddr w = Returns w.
Proof.
  intros [Hno|(id & Hparse & Hinv)].
  - apply (invalid_node_is_ignored context srcAddr w UINT32_MAX).
    + by apply parse_without_NodeList.
    + unfold invalid_node. by rewrite N.eqb_refl.
  - apply (invalid_node_is_ignored context srcAddr w id Hparse).
    unfold invalid_node. apply orb_true_iff.
    destruct Hinv as [->|Hge]; [left; apply N.eqb_refl|right; by apply N.leb_le].
Qed.

Lemma same_but_ledger_refl (c : SimulationContext D) : same_but_ledger c c.
Proof. by repeat split. Qed.

Lemma ledger_update_ctx src dst (snr : D) isDrop w :
  same_but_ledger (snd w) (snd (ledger_update src dst snr isDrop w)).
Proof. rewrite ledger_update_unfold. by repeat split. Qed.

Lemma same_but_ledger_trans (c1 c2 c3 : SimulationContext D) :
  same_but_ledger c1 c2 → same_but_ledger c2 c3 → same_but_ledger c1 c3.
Proof.
  intros (?&?&?&?&?&?&?&?) (?&?&?&?&?&?&?&?). unfold same_but_ledger.
  split_and!; congruence.
Qed.

Lemma ledger_update_defaults src dst (snr : D) isDrop w :
  let l := ledger (snd w) in
  let l' := ledger (snd (ledger_update src dst snr isDrop w)) in
  m_defaultTrust l' = m_defaultTrust l ∧ m_defaultSnr l' = m_defaultSnr l
  ∧ m_blackholes l' = m_blackholes l ∧ m_lossThreshold l' = m_lossThreshold l.
Proof.
  rewrite ledger_update_unfold. cbn [snd ledger set_ctx_ledger].
  apply (UpdateMetric_defaults src dst snr isDrop (useBlockchain (snd w))
           (fst w, ledger (snd w))).
Qed.

Lemma run_fixed_part (evs : list (Event D)) w w' :
  run evs w = Some (Returns w') → fixed_part w w'.
Proof.
  apply (run_inv (fun w1 => fixed_part w w1)).
  - intros w1 src dst snr isDrop _ H.
    destruct (ledger_update_ctx src dst snr isDrop w1) as (_&E1&E2&E3&E4&E5&E6&E7).
    destruct (ledger_update_defaults src dst snr isDrop w1) as (F1&F2&F3&_).
    unfold fixed_part in *. rewrite <- E1, <- E2, <- E3, <- E4, <- E5, <- E6, <- E7.
    rewrite F1, F2, F3. done.
  - intros g ctx H. exact H.
  - intros g ctx H. exact H.
  - intros g ctx H. exact H.
  - intros g ctx H. exact H.
  - intros [g ctx] H. unfold fixed_part in *. simpl in *.
    destruct (BuildGraph_params (nodes ctx) (ledger ctx) (maxRadioRange ctx)
                (blackholeNodes ctx) (defaultSnr ctx) (routingEngine ctx)) as (-> & -> & ->).
    done.
  - intros w1 positions H. exact H.
  - unfold fixed_part. by repeat split.
Qed.

Lemma deliver_engine (ev : Event D) w w' :
  deliver ev w = Some (Returns w') → is_heartbeat ev = false →
  routingEngine (snd w') = routingEngine (snd w).
Proof.
  assert (Hupd : ∀ w1 src dst snr isDrop,
            routingEngine (snd w1) = routingEngine (snd w) →
            routingEngine (snd (ledger_update src dst snr isDrop w1)) = routingEngine (snd w)).
  { intros w1 src dst snr isDrop H.
    by destruct (ledger_update_ctx src dst snr isDrop w1) as (_&_&<-&_). }
  destruct ev as [context|context|context srcAddr| |positions]; simpl; intros Hd Hev.
  - injection Hd as Hd. revert Hd.
    apply (PhyRxEndCallback_inv
             (fun w1 => routingEngine (snd w1) = routingEngine (snd w))); [|done].
    intros w1 src dst snr. apply Hupd.
  - injection Hd as Hd. revert Hd.
    apply (PhyRxDropCallback_inv
             (fun w1 => routingEngine (snd w1) = routingEngine (snd w))); try done.
    intros w1 src dst. apply Hupd.
  - injection Hd as Hd. revert Hd.
    apply (Ipv4L3DropCallback_inv
             (fun w1 => routingEngine (snd w1) = routingEngine (snd w))); try done.
    intros w1 src dst. apply Hupd.
  - done.
  - by injection Hd as <-.
Qed.

Lemma deliver_nodes (ev : Event D) w w' :
  deliver ev w = Some (Returns w') → is_mobility ev = false →
  nodes (snd w') = nodes (snd w).
Proof.
  assert (Hupd : ∀ w1 src dst snr isDrop,
            nodes (snd w1) = nodes (snd w) →
            nodes (snd (ledger_update src dst snr isDrop w1)) = nodes (snd w)).
  { intros w1 src dst snr isDrop H.
    by destruct (ledger_update_ctx src dst snr isDrop w1) as (<-&_). }
  destruct ev as [context|context|context srcAddr| |positions]; simpl; intros Hd Hev.
  - injection Hd as Hd. revert Hd.
    apply (PhyRxEndCallback_inv (fun w1 => nodes (snd w1) = nodes (snd w))); [|done].
    intros w1 src dst snr. apply Hupd.
  - injection Hd as Hd. revert Hd.
    apply (PhyRxDropCallback_inv (fun w1 => nodes (snd w1) = nodes (snd w))); try done.
    intros w1 src dst. apply Hupd.
  - injection Hd as Hd. revert Hd.
    apply (Ipv4L3DropCallback_inv (fun w1 => nodes (snd w1) = nodes (snd w))); try done.
    intros w1 src dst. apply Hupd.
  - destruct (SimulationHeartbeat w) as [w1|] eqn:E; [|done]. injection Hd as <-.
    destruct (SimulationHeartbeat_skips w w1 E) as [k ->]. by destruct w.
  - done.
Qed.

(** X18: no event writes the addresses, the flows, the ground-truth
    set, the range, the default SNR or the routing mode of the context,
    the parameters of the engine, or the defaults and the set of
    blackholes of the ledger; the callbacks leave the engine alone (only
    the heartbeat writes it), and only a move of the nodes changes the
    positions. *)
Theorem X18_run_frame (evs : list (Event D)) w w' :
  run evs w = Some (Returns w') →
  (ipv4Interfaces (snd w') = ipv4Interfaces (snd w)
   ∧ activeFlows (snd w') = activeFlows (snd w)
   ∧ blackholeNodes (snd w') = blackholeNodes (snd w)
   ∧ maxRadioRange (snd w') = maxRadioRange (snd w)
   ∧ defaultSnr (snd w') = defaultSnr (snd w)
   ∧ useBlockchain (snd w') = useBlockchain (snd w)
   ∧ m_alpha (routingEngine (snd w')) = m_alpha (routingEngine (snd w))
   ∧ m_beta (routingEngine (snd w')) = m_beta (routingEngine (snd w))
   ∧ m_useBlockchain (routingEngine (snd w')) = m_useBlockchain (routingEngine (snd w))
   ∧ m_defaultTrust (ledger (snd w')) = m_defaultTrust (ledger (snd w))
   ∧ m_defaultSnr (ledger (snd w')) = m_defaultSnr (ledger (snd w))
   ∧ m_blackholes (ledger (snd w')) = m_blackholes (ledger (snd w)))
  ∧ (forallb (fun ev => negb (is_heartbeat ev)) evs = true →
     routingEngine (snd w') = routingEngine (snd w))
  ∧ (forallb (fun ev => negb (is_mobility ev)) evs = true →
     nodes (snd w') = nodes (snd w)).
Proof.
  intros Hrun. split; [by apply (run_fixed_part evs)|]. split.
  - revert w Hrun. induction evs as [|ev evs IH]; intros w; simpl; [by intros [= <-]|].
    destruct (deliver ev w) as [[w1|]|] eqn:E; [|done..].
    intros Hrun [Hev Hevs]%andb_true_iff.
    rewrite (IH w1 Hrun Hevs). apply (deliver_engine ev w w1 E). by apply negb_true_iff.
  - revert w Hrun. induction evs as [|ev evs IH]; intros w; simpl; [by intros [= <-]|].
    destruct (deliver ev w) as [[w1|]|] eqn:E; [|done..].
    intros Hrun [Hev Hevs]%andb_true_iff.
    rewrite (IH w1 Hrun Hevs). apply (deliver_nodes ev w w1 E). by apply negb_true_iff.
Qed.

Lemma run_effect (evs : list (Event D)) w w' :
  run evs w = Some (Returns w') →
  effect (callback_call (useBlockchain (snd w))) w w'.
Proof.
  intros Hrun.
  cut (useBlockchain (snd w') = useBlockchain (snd w)
       ∧ effect (callback_call (useBlockchain (snd w))) w w'); [by intros [_ H]|].
  revert Hrun.
  apply (run_inv (fun w1 => useBlockchain (snd w1) = useBlockchain (snd w)
                            ∧ effect (callback_call (useBlockchain (snd w))) w w1)).
  - intros w1 src dst snr isDrop Hshape [Hu He]. split.
    + by destruct (ledger_update_ctx src dst snr isDrop w1) as (_&_&_&_&_&_&_&<-).
    + apply effect_update; [done|]. split; [exact Hu|exact Hshape].
  - intros g ctx [Hu He]. split; [done|]. by apply (effect_same _ _ (g, ctx)).
  - intros g ctx [Hu He]. split; [done|]. by apply (effect_same _ _ (g, ctx)).
  - intros g ctx [Hu He]. split; [done|]. by apply (effect_same _ _ (g, ctx)).
  - intros g ctx [Hu He]. split; [done|]. by apply (effect_same _ _ (g, ctx)).
  - intros [g ctx] [Hu He]. split; [done|]. by apply (effect_same _ _ (g, ctx)).
  - intros [g ctx] positions [Hu He]. split; [done|]. by apply (effect_same _ _ (g, ctx)).
  - split; [done|apply effect_refl].
Qed.

(** X19: whatever events are delivered, the ledger changes only through
    [UpdateMetric]: the final ledger and the final [g_trustPenalties] are
    those of a sequence of calls applied to the initial ones, each call in
    the routing mode of the context, each drop with the SNR 0.0. *)
Theorem X19_ledger_evolution (evs : list (Event D)) w w' :
  run evs w = Some (Returns w') →
  ∃ calls,
    Forall (callback_call (useBlockchain (snd w))) calls
    ∧ ledger (snd w') = snd (apply_calls calls (fst w, ledger (snd w)))
    ∧ g_trustPenalties (fst w')
      = g_trustPenalties (fst (apply_calls calls (fst w, ledger (snd w)))).
Proof.
  intros Hrun. destruct (run_effect evs w w' Hrun) as (calls & HQ & E).
  exists calls. unfold ledger_state, calls_state in E. injection E as E1 E2. done.
Qed.

End CallbackTheorems.

Section Reception.
Context {D : Type} {Ar : Arith D}.
Implicit Types (w : World D).

Lemma ledger_update_metric src dst (snr : D) isDrop w (key : N * N) :
  metric_at (m_ledger (ledger (snd (ledger_update src dst snr isDrop w)))) key
  = if decide (key = MakeKey src dst)
    then updated_metric snr isDrop (useBlockchain (snd w))
           (metric_at (m_ledger (ledger (snd w))) key)
    else metric_at (m_ledger (ledger (snd w))) key.
Proof.
  rewrite ledger_update_unfold. cbn [snd ledger set_ctx_ledger].
  rewrite UpdateMetric_ledger. cbn [snd]. unfold metric_at.
  destruct (decide (key = MakeKey src dst)) as [->|Hne].
  - by rewrite lookup_insert_eq.
  - by rewrite lookup_insert_ne.
Qed.

Lemma ledger_update_dom src dst (snr : D) isDrop w :
  dom (m_ledger (ledger (snd w)))
  ⊆ dom (m_ledger (ledger (snd (ledger_update src dst snr isDrop w)))).
Proof.
  rewrite ledger_update_unfold. cbn [snd ledger set_ctx_ledger].
  rewrite UpdateMetric_ledger. cbn [snd]. rewrite dom_insert. set_solver.
Qed.

(** X21: a successful reception changes no counter, nothing of the
    context but the ledger, removes no record, and leaves [trust] and
    [drops] of every link as they were. *)
Theorem X21_reception_never_penalises (context : string) w w' :
  PhyRxEndCallback context w = Returns w' →
  fst w' = fst w
  ∧ same_but_ledger (snd w) (snd w')
  ∧ dom (m_ledger (ledger (snd w))) ⊆ dom (m_ledger (ledger (snd w')))
  ∧ ∀ key, trust (metric_at (m_ledger (ledger (snd w'))) key)
           = trust (metric_at (m_ledger (ledger (snd w))) key)
           ∧ drops (metric_at (m_ledger (ledger (snd w'))) key)
             = drops (metric_at (m_ledger (ledger (snd w))) key).
Proof.
  apply (PhyRxEndCallback_inv
           (fun w1 => fst w1 = fst w
                      ∧ same_but_ledger (snd w) (snd w1)
                      ∧ dom (m_ledger (ledger (snd w))) ⊆ dom (m_ledger (ledger (snd w1)))
                      ∧ ∀ key, trust (metric_at (m_ledger (ledger (snd w1))) key)
                               = trust (metric_at (m_ledger (ledger (snd w))) key)
                               ∧ drops (metric_at (m_ledger (ledger (snd w1))) key)
                                 = drops (metric_at (m_ledger (ledger (snd w))) key))).
  - intros w1 src dst snr (Hg & Hc & Hd & Hm). split_and!.
    + rewrite ledger_update_unfold. cbn [fst]. by rewrite UpdateMetric_globals.
    + eapply same_but_ledger_trans; [exact Hc|apply ledger_update_ctx].
    + etrans; [exact Hd|apply ledger_update_dom].
    + intros key. rewrite ledger_update_metric.
      destruct (decide (key = MakeKey src dst)); [|apply Hm].
      unfold updated_metric. simpl. apply Hm.
  - split_and!; [done|apply same_but_ledger_refl|done|done].
Qed.

End Reception.

Section ReachableBinary64.

Lemma reachable_trust_level (calls : list (Call float)) (g : Globals) (a b : N) :
  trust_level (GetTrust (snd (apply_calls calls (g, BlockchainLedger_new))) a b).
Proof.
  rewrite GetTrust_decay. unfold trust_level.
  destruct (count_penalties (on_link a b calls)) as [|[|k]]; simpl; auto.
Qed.

Lemma reachable_not_blackhole (calls : list (Call float)) (g : Globals) (n : N) :
  IsBlackhole (snd (apply_calls calls (g, BlockchainLedger_new))) n = false.
Proof.
  set (l := snd (apply_calls calls (g, BlockchainLedger_new))).
  pose proof (trust_level_records calls g) as Hlev. fold l in Hlev.
  assert (Hcount : fst (IsBlackhole_count l n) = 0).
  { unfold IsBlackhole_count. apply IsBlackhole_count_low.
    apply Forall_forall. intros [key m] Hin. simpl.
    apply elem_of_map_to_list in Hin.
    by destruct (trust_level_bounds _ (Hlev _ _ Hin)) as (_ & _ & ?). }
  unfold IsBlackhole. destruct (IsBlackhole_count l n) as [low total].
  simpl in Hcount. subst low.
  by rewrite zero_ratio_not_above_half, andb_false_r.
Qed.

Lemma count_penalties_baseline {D} (calls : list (Call D)) :
  Forall (fun c => c_useBlockchain c = false) calls → count_penalties calls = 0%nat.
Proof.
  induction 1 as [|c calls Hc _ IH]; [done|].
  unfold count_penalties in *. rewrite filter_cons_False; [done|].
  by rewrite Hc, andb_false_r.
Qed.

Lemma on_link_Forall {D} (Q : Call D → Prop) (a b : N) (calls : list (Call D)) :
  Forall Q calls → Forall Q (on_link a b calls).
Proof.
  rewrite !Forall_forall. intros H c Hc%elem_of_on_link. apply H. tauto.
Qed.

(** X20: in binary64, in every state the events reach from a fresh
    ledger, trust is between 0.3 and 1.0 on every link and [IsBlackhole]
    is false for every node (so [isDetectedBlackhole] of the L3 callback
    is never true); in Baseline mode [g_trustPenalties] stays as it was
    and trust stays 1.0. *)
Theorem X20_reachable_worlds (evs : list (Event float)) (w w' : World float) :
  ledger (snd w) = BlockchainLedger_new →
  run evs w = Some (Returns w') →
  (∀ a b, dleb d0_3 (GetTrust (ledger (snd w')) a b) = true
          ∧ dleb (GetTrust (ledger (snd w')) a b) d1 = true)
  ∧ (∀ n, IsBlackhole (ledger (snd w')) n = false)
  ∧ (useBlockchain (snd w) = false →
     g_trustPenalties (fst w') = g_trustPenalties (fst w)
     ∧ ∀ a b, GetTrust (ledger (snd w')) a b = d1).
Proof.
  intros Hnew Hrun.
  destruct (run_effect evs w w' Hrun) as (calls & HQ & E).
  unfold ledger_state, calls_state in E. injection E as Eg El.
  rewrite Hnew in Eg, El. split_and!.
  - intros a b. rewrite El.
    destruct (trust_level_bounds _ (reachable_trust_level calls (fst w) a b)) as (? & ? & _).
    done.
  - intros n. rewrite El. apply reachable_not_blackhole.
  - intros Hub. rewrite Hub in HQ.
    assert (Hb : Forall (fun c : Call float => c_useBlockchain c = false) calls).
    { eapply Forall_impl; [exact HQ|]. by intros c [Hc _]. }
    split.
    + by rewrite Eg, apply_calls_globals, (count_penalties_baseline calls Hb).
    + intros a b. rewrite El, GetTrust_decay.
      by rewrite (count_penalties_baseline _ (on_link_Forall _ a b calls Hb)).
Qed.

Lemma float_zero_not_pos : dltb d0 (d0 : float) = false.
Proof. reflexivity. Qed.

(** X22: in binary64, an event other than a successful reception (a PHY
    drop, an L3 drop, a heartbeat, a move) leaves the average SNR and the
    answer of [GetSnr] of every link as they were: drops are reported with
    the SNR 0.0, which the moving average ignores. *)
Theorem X22_drop_keeps_snr (ev : Event float) (w w' : World float) :
  is_reception ev = false →
  deliver ev w = Some (Returns w') →
  ∀ a b, avg_snr_of (ledger (snd w')) a b = avg_snr_of (ledger (snd w)) a b
         ∧ GetSnr (ledger (snd w')) a b = GetSnr (ledger (snd w)) a b.
Proof.
  intros Hev Hd a b.
  set (I := fun w1 : World float =>
              m_defaultSnr (ledger (snd w1)) = m_defaultSnr (ledger (snd w))
              ∧ avg_snr_of (ledger (snd w1)) a b = avg_snr_of (ledger (snd w)) a b
              ∧ GetSnr (ledger (snd w1)) a b = GetSnr (ledger (snd w)) a b).
  assert (Hupd : ∀ w1 src dst, I w1 → I (ledger_update src dst d0 true w1)).
  { intros w1 src dst (Hds & Havg & Hsnr). unfold I.
    destruct (ledger_update_defaults src dst d0 true w1) as (_ & Hds' & _).
    assert (Ea : avg_snr_of (ledger (snd (ledger_update src dst d0 true w1))) a b
                 = avg_snr_of (ledger (snd w1)) a b).
    { unfold avg_snr_of. rewrite ledger_update_metric.
      destruct (decide (MakeKey a b = MakeKey src dst)); [|done]. reflexivity. }
    split_and!; [congruence|congruence|].
    rewrite <- Hsnr. unfold GetSnr. rewrite Hds'.
    rewrite ledger_update_unfold. cbn [snd ledger set_ctx_ledger].
    rewrite UpdateMetric_ledger. cbn [snd].
    destruct (decide (MakeKey a b = MakeKey src dst)) as [Ek|Ek].
    - rewrite Ek, lookup_insert_eq. unfold metric_at.
      destruct (m_ledger (ledger (snd w1)) !! MakeKey src dst) as [m|]; reflexivity.
    - by rewrite lookup_insert_ne. }
  assert (HI : I w') .
  { destruct ev as [context|context|context srcAddr| |positions]; simpl in *; [done| | | |].
    - injection Hd as Hd. revert Hd.
      apply (PhyRxDropCallback_inv I); [done|done|by repeat split].
    - injection Hd as Hd. revert Hd.
      apply (Ipv4L3DropCallback_inv I); [done|done|done|by repeat split].
    - destruct (SimulationHeartbeat w) as [w1|] eqn:E; [|done]. injection Hd as <-.
      destruct (SimulationHeartbeat_skips w w1 E) as [k ->].
      destruct w as [g c]. by repeat split.
    - injection Hd as <-. by repeat split. }
  destruct HI as (_ & ? & ?). done.
Qed.

End ReachableBinary64.

(** * Runs from two sets of malicious nodes *)

Section NoninterferenceRuns.
Context {D : Type} {Ar : Arith D}.
Implicit Types (w : World D).

Lemma globals_agree_skips (g1 g2 : Globals) (k1 k2 : nat) :
  globals_agree g1 g2 →
  globals_agree (Nat.iter k1 incr_routeSkips g1) (Nat.iter k2 incr_routeSkips g2).
Proof.
  intros (H1 & H2 & H3). unfold globals_agree.
  destruct (incr_routeSkips_iter k1 g1) as (_ & _ & -> & -> & _ & ->).
  destruct (incr_routeSkips_iter k2 g2) as (_ & _ & -> & -> & _ & ->).
  done.
Qed.

Lemma Heartbeat_BuildGraph_agree w1 w2 :
  world_agree w1 w2 → world_agree (Heartbeat_BuildGraph w1) (Heartbeat_BuildGraph w2).
Proof.
  intros [Hg (Hn & Hi & Hl & He & Hf & Hr & Hs & Hub)].
  unfold Heartbeat_BuildGraph. destruct w1 as [g1 c1], w2 as [g2 c2]. simpl in *.
  split; [done|]. unfold ctx_agree. simpl. split_and!; try done.
  rewrite Hn, Hr, Hs, He. by apply BuildGraph_agree.
Qed.

(** The heartbeat counts its route skips from the ground-truth set; the
    rest of what it leaves does not depend on the set. *)
Lemma SimulationHeartbeat_agree w1 w2 w1' w2' :
  world_agree w1 w2 →
  SimulationHeartbeat w1 = Some w1' → SimulationHeartbeat w2 = Some w2' →
  world_agree w1' w2'.
Proof.
  intros Hw E1 E2.
  destruct (SimulationHeartbeat_skips w1 w1' E1) as [k1 ->].
  destruct (SimulationHeartbeat_skips w2 w2' E2) as [k2 ->].
  destruct (Heartbeat_BuildGraph_agree w1 w2 Hw) as [_ Hc].
  split; [|exact Hc]. cbn [fst]. apply globals_agree_skips. by destruct Hw.
Qed.

Lemma deliver_agree (ev : Event D) w1 w2 :
  world_agree w1 w2 → outcome_agree (deliver ev w1) (deliver ev w2).
Proof.
  intros Hw. pose proof Hw as [Hg (Hn & Hi & Hl & He & Hf & Hr & Hs & Hub)].
  destruct ev as [context|context|context srcAddr| |positions]; simpl.
  - unfold PhyRxEndCallback.
    destruct (ParseNodeIdFromContext context) as [id|ex]; [|done].
    unfold invalid_node. rewrite Hn, Hf, Hs.
    destruct ((id =? UINT32_MAX) || (GetN (nodes w2.2) <=? id)); [done|].
    destruct (negb (flow_source (activeFlows w2.2) id =? UINT32_MAX)).
    + by apply ledger_update_agree.
    + by apply rx_fanout_agree.
  - unfold PhyRxDropCallback.
    destruct (ParseNodeIdFromContext context) as [id|ex]; [|done].
    unfold invalid_node. rewrite Hn, Hf.
    destruct ((id =? UINT32_MAX) || (GetN (nodes w2.2) <=? id)); [done|].
    assert (Hw1 : world_agree (incr_phyDrops w1.1, w1.2) (incr_phyDrops w2.1, w2.2)).
    { destruct Hg as (? & ? & ?). split; [|done]. unfold globals_agree. simpl.
      split_and!; congruence. }
    destruct (negb (flow_source (activeFlows w2.2) id =? UINT32_MAX)).
    + by apply ledger_update_agree.
    + by apply drop_fanout_agree.
  - unfold Ipv4L3DropCallback.
    destruct (ParseNodeIdFromContext context) as [id|ex]; [|done].
    unfold invalid_node. rewrite Hn, Hi.
    destruct ((id =? UINT32_MAX) || (GetN (nodes w2.2) <=? id)); [done|].
    assert (Hw1 : world_agree
              (if bool_decide (id ∈ blackholeNodes w1.2)
               then incr_blackholeL3 (incr_l3Drops w1.1) else incr_l3Drops w1.1, w1.2)
              (if bool_decide (id ∈ blackholeNodes w2.2)
               then incr_blackholeL3 (incr_l3Drops w2.1) else incr_l3Drops w2.1, w2.2)).
    { destruct Hg as (? & ? & ?). split; [|done]. unfold globals_agree.
      destruct (bool_decide _), (bool_decide _); simpl; split_and!; congruence. }
    destruct (negb (address_source (ipv4Interfaces w2.2) (GetN (nodes w2.2)) srcAddr
                    =? UINT32_MAX)).
    + by apply ledger_update_agree.
    + by apply drop_fanout_agree.
  - destruct (SimulationHeartbeat w1) as [w1'|] eqn:E1; [|done].
    destruct (SimulationHeartbeat w2) as [w2'|] eqn:E2; [|done].
    by apply (SimulationHeartbeat_agree w1 w2).
  - split; [done|]. unfold ctx_agree. simpl. split_and!; done.
Qed.

Lemma run_agree (evs : list (Event D)) w1 w2 :
  world_agree w1 w2 → outcome_agree (run evs w1) (run evs w2).
Proof.
  revert w1 w2. induction evs as [|ev evs IH]; intros w1 w2 Hw; [done|].
  simpl. pose proof (deliver_agree ev w1 w2 Hw) as Hd.
  destruct (deliver ev w1) as [[w1'|e1]|]; [| |done].
  - destruct (deliver ev w2) as [[w2'|e2]|]; [|done|by destruct (run evs w1')].
    by apply IH.
  - by destruct (deliver ev w2) as [[w2'|e2]|].
Qed.

(** ** A run from a healthy state is defined *)

Lemma healthy_agree w1 w2 : world_agree w1 w2 → healthy w1 → healthy w2.
Proof.
  intros [_ (Hn & Hi & (Hm & _ & Ht & Hs) & He & _)] (H1 & H2 & H3 & (H4 & H5 & H6)).
  unfold healthy, ledger_ok. rewrite <- Hn, <- Hi, <- He, <- Hm, <- Ht, <- Hs. done.
Qed.

Lemma ledger_update_healthy {WL : WeightLaws Ar} src dst (snr : D) isDrop w (n : N) :
  healthy w ∧ GetN (nodes (snd w)) = n →
  healthy (ledger_update src dst snr isDrop w)
  ∧ GetN (nodes (snd (ledger_update src dst snr isDrop w))) = n.
Proof.
  intros [(H1 & H2 & H3 & (H4 & H5 & H6)) Hn].
  destruct (ledger_update_ctx src dst snr isDrop w) as (En & Ei & Ee & _).
  destruct (ledger_update_defaults src dst snr isDrop w) as (Et & Es & _).
  unfold healthy, ledger_ok. rewrite <- En, <- Ei, <- Ee, Et, Es.
  split; [|done]. split_and!; try done.
  rewrite ledger_update_unfold. cbn [snd ledger set_ctx_ledger].
  rewrite UpdateMetric_ledger. cbn [snd].
  apply map_Forall_insert_2; [|done].
  unfold updated_metric. cbn [trust].
  assert (Hm : nonneg (trust (metric_at (m_ledger (ledger (snd w))) (MakeKey src dst)))).
  { unfold metric_at.
    destruct (m_ledger (ledger (snd w)) !! MakeKey src dst) as [m|] eqn:Em; simpl.
    - exact (H6 _ _ Em).
    - apply nonneg_d1. }
  destruct (isDrop && useBlockchain (snd w)); [apply dmax_floor_nonneg|done].
Qed.

Lemma deliver_healthy {WL : WeightLaws Ar} (ev : Event D) w w' :
  healthy w → keeps_nodes (GetN (nodes (snd w))) ev →
  deliver ev w = Some (Returns w') →
  healthy w' ∧ GetN (nodes (snd w')) = GetN (nodes (snd w)).
Proof.
  intros Hw Hev.
  set (I := fun w1 : World D => healthy w1 ∧ GetN (nodes (snd w1)) = GetN (nodes (snd w))).
  assert (HI : I w) by (by split).
  assert (Hupd : ∀ w1 src dst snr isDrop, I w1 → I (ledger_update src dst snr isDrop w1)).
  { intros w1 src dst snr isDrop. apply ledger_update_healthy. }
  destruct ev as [context|context|context srcAddr| |positions]; simpl; intros Hd.
  - injection Hd as Hd. revert Hd. apply (PhyRxEndCallback_inv I); [|done].
    intros w1 src dst snr. apply Hupd.
  - injection Hd as Hd. revert Hd. apply (PhyRxDropCallback_inv I); try done.
    intros w1 src dst. apply Hupd.
  - injection Hd as Hd. revert Hd. apply (Ipv4L3DropCallback_inv I); try done.
    intros w1 src dst. apply Hupd.
  - destruct (SimulationHeartbeat w) as [w1|] eqn:E; [|done]. injection Hd as <-.
    destruct (SimulationHeartbeat_skips w w1 E) as [k ->].
    destruct w as [g c]. destruct Hw as (H1 & H2 & H3 & H4). cbn in *.
    split; [|done]. unfold healthy. cbn. split_and!; try done.
    unfold sane_params in *.
    by destruct (BuildGraph_params (nodes c) (ledger c) (maxRadioRange c)
                   (blackholeNodes c) (defaultSnr c) (routingEngine c)) as (-> & -> & _).
  - injection Hd as <-. simpl in Hev. destruct Hw as (H1 & H2 & H3 & H4).
    split; [|done]. unfold healthy. cbn. rewrite Hev. done.
Qed.

Lemma SimulationHeartbeat_defined {CL : CostLaws Ar} {WL : WeightLaws Ar} w :
  healthy w → is_Some (SimulationHeartbeat w).
Proof.
  destruct w as [g c]. intros (Hn & Haddr & Hp & Hl). cbn [fst snd] in *.
  set (e' := BuildGraph (nodes c) (ledger c) (maxRadioRange c) (blackholeNodes c)
               (defaultSnr c) (routingEngine c)).
  set (c' := set_ctx_engine c e').
  assert (Hwf : wf_graph (m_graph (routingEngine c')) (m_weights (routingEngine c')))
    by (by apply BuildGraph_wf).
  assert (Hdom : ∀ x, x ∈ dom (m_graph (routingEngine c')) → x < GetN (nodes c')).
  { intros x Hx. simpl in Hx. unfold e' in Hx. rewrite BuildGraph_topology in Hx.
    by apply topology_dom in Hx. }
  destruct (install_flows_total c' (activeFlows c) g Hwf Hdom Haddr) as (paths & _ & _ & E).
  unfold SimulationHeartbeat, Heartbeat_BuildGraph. cbn [fst snd].
  fold e'. fold c'. change (activeFlows c') with (activeFlows c). by rewrite E.
Qed.

Lemma run_defined {CL : CostLaws Ar} {WL : WeightLaws Ar} (evs : list (Event D)) w :
  healthy w → Forall (keeps_nodes (GetN (nodes (snd w)))) evs → is_Some (run evs w).
Proof.
  revert w. induction evs as [|ev evs IH]; intros w Hw Hevs; [done|].
  inversion Hevs as [|? ? Hev Hevs']; subst. simpl.
  assert (Hd : is_Some (deliver ev w)).
  { destruct ev; simpl; try done.
    by destruct (SimulationHeartbeat_defined w Hw) as [w1 ->]. }
  destruct Hd as [r Hd]. rewrite Hd. destruct r as [w1|e]; [|done].
  destruct (deliver_healthy ev w w1 Hw Hev Hd) as [Hw1 Hn].
  apply IH; [done|]. by rewrite Hn.
Qed.

(** C3: two runs of the same events (the three callbacks, which call
    [UpdateMetric], the heartbeat, and moves of the nodes) from states
    that differ only in the set of malicious nodes, and in the three
    counters fed from it, end alike: both throw the same exception, or
    both return, and then every [GetTrust] and [GetSnr] answer, the graph
    and the weights are the same.  Only a run with no defined result is
    excepted, and from a healthy state, with moves that keep the number
    of nodes, both runs are defined.  [GetTrust] does not take such a
    set, and [BuildGraph] ignores the one it is given. *)
Theorem C3_blackhole_set_noninterference (evs : list (Event D)) (w1 w2 : World D)
    (l : BlockchainLedger D) (nodes0 : NodeContainer D) (maxRange ds : D)
    (bh1 bh2 : gset N) (e : RoutingEngine D) :
  world_agree w1 w2 →
  match run evs w1, run evs w2 with
  | Some (Returns w1'), Some (Returns w2') =>
      world_agree w1' w2'
      ∧ (∀ a b, GetTrust (ledger (snd w1')) a b = GetTrust (ledger (snd w2')) a b)
      ∧ (∀ a b, GetSnr (ledger (snd w1')) a b = GetSnr (ledger (snd w2')) a b)
      ∧ m_graph (routingEngine (snd w1')) = m_graph (routingEngine (snd w2'))
      ∧ m_weights (routingEngine (snd w1')) = m_weights (routingEngine (snd w2'))
  | Some (Throws e1), Some (Throws e2) => e1 = e2
  | Some _, Some _ => False
  | _, _ => True
  end
  ∧ (CostLaws Ar → WeightLaws Ar →
     healthy w1 → Forall (keeps_nodes (GetN (nodes (snd w1)))) evs →
     is_Some (run evs w1) ∧ is_Some (run evs w2))
  ∧ BuildGraph nodes0 l maxRange bh1 ds e = BuildGraph nodes0 l maxRange bh2 ds e.
Proof.
  intros Hw. split; [|split; [|by apply BuildGraph_agree]].
  - pose proof (run_agree evs w1 w2 Hw) as Hr.
    destruct (run evs w1) as [[w1'|e1]|], (run evs w2) as [[w2'|e2]|]; try done.
    pose proof Hr as [_ (_ & _ & Hl & He & _)].
    split_and!; try done.
    + intros a b. by apply GetTrust_agree.
    + intros a b. by apply GetSnr_agree.
    + by rewrite He.
    + by rewrite He.
  - intros CL WL Hh Hevs. split; [by apply run_defined|].
    apply run_defined; [by apply (healthy_agree w1)|].
    destruct Hw as [_ (Hn & _)]. by rewrite <- Hn.
Qed.

End NoninterferenceRuns.

(** * The set-up of [main] *)

Section Setup.

Lemma length_set_ascending (X : gset N) : length (set_ascending X) = size X.
Proof. by rewrite set_ascending_perm. Qed.

Lemma set_nth_Some (X : gset N) (idx x : N) : set_nth X idx = Some x → x ∈ X.
Proof.
  unfold set_nth. intros H. apply elem_of_set_ascending.
  by eapply list_elem_of_lookup_2.
Qed.

Lemma set_nth_is_Some (X : gset N) (idx : N) :
  (N.to_nat idx < size X)%nat → is_Some (set_nth X idx).
Proof.
  intros H. unfold set_nth. apply lookup_lt_is_Some. by rewrite length_set_ascending.
Qed.

Lemma size_remove (X : gset N) (x : N) : x ∈ X → size (X ∖ {[x]}) = (size X - 1)%nat.
Proof.
  intros Hx. rewrite size_difference by set_solver. by rewrite size_singleton.
Qed.

Lemma draws_in_range_S (rng : nat → N) (k n : nat) :
  draws_in_range rng k (S n) → draws_in_range rng (S k) n.
Proof.
  intros H j Hj. specialize (H (S j)). rewrite Nat.add_succ_r in H.
  simpl. specialize (H ltac:(lia)). simpl in H. lia.
Qed.

Lemma select_blackholes_spec (rounds : nat) (rng : nat → N) (k : nat) (C B : gset N) :
  draws_in_range rng k (size C) → C ## B →
  ∃ B', select_blackholes rounds rng k C B = Some B'
        ∧ B ⊆ B' ∧ B' ⊆ B ∪ C
        ∧ size B' = (size B + Nat.min rounds (size C))%nat.
Proof.
  revert k C B. induction rounds as [|rounds IH]; intros k C B Hr Hdisj.
  - exists B. simpl. split_and!; [done|done|set_solver|lia].
  - cbn [select_blackholes]. destruct (decide (C = ∅)) as [->|Hne].
    + exists B. rewrite size_empty. split_and!; [done|done|set_solver|lia].
    + assert (Hpos : (0 < size C)%nat).
      { destruct (size C) eqn:E; [|lia]. by apply size_empty_inv, leibniz_equiv in E. }
      destruct (set_nth_is_Some C (rng k)) as [x Hx].
      { specialize (Hr 0%nat Hpos). rewrite Nat.add_0_r in Hr. lia. }
      rewrite Hx. pose proof (set_nth_Some _ _ _ Hx) as HxC.
      pose proof (size_remove C x HxC) as Hsz.
      destruct (IH (S k) (C ∖ {[x]}) ({[x]} ∪ B)) as (B' & E & H1 & H2 & H3).
      { rewrite Hsz. apply draws_in_range_S.
        by replace (S (size C - 1)) with (size C) by lia. }
      { set_solver. }
      exists B'. split_and!; [done|set_solver|set_solver|].
      rewrite H3, Hsz, size_union, size_singleton by set_solver. lia.
Qed.

Lemma half_minus_two (n : nat) : (2 ≤ n)%nat → ((n - 2) / 2 = n / 2 - 1)%nat.
Proof.
  intros Hn. replace n with (1 * 2 + (n - 2))%nat at 2 by lia.
  rewrite Nat.div_add_l by lia. lia.
Qed.

Lemma half_small (n : nat) : (n < 2)%nat → (n / 2 = 0)%nat.
Proof. intros Hn. by apply Nat.div_small. Qed.

Lemma select_flows_spec (rounds : nat) (rng : nat → N) (k : nat) (A : gset N)
    (flows : list (N * N)) :
  draws_in_range rng k (size A) →
  ∃ new, select_flows rounds rng k A flows = Some (flows ++ new)
         ∧ Forall (fun flow => fst flow ∈ A ∧ snd flow ∈ A ∧ fst flow ≠ snd flow) new
         ∧ NoDup (endpoints new)
         ∧ length new = Nat.min rounds (size A / 2).
Proof.
  revert k A flows. induction rounds as [|rounds IH]; intros k A flows Hr.
  - exists []. rewrite app_nil_r. split_and!; [done|constructor|constructor|done].
  - cbn [select_flows]. destruct (size A <? 2)%nat eqn:Hsize.
    + apply Nat.ltb_lt in Hsize. exists []. rewrite app_nil_r, half_small by done.
      split_and!; [done|constructor|constructor|]. simpl. lia.
    + apply Nat.ltb_ge in Hsize.
      destruct (set_nth_is_Some A (rng k)) as [s Hs].
      { specialize (Hr 0%nat ltac:(lia)). rewrite Nat.add_0_r in Hr. lia. }
      rewrite Hs. pose proof (set_nth_Some _ _ _ Hs) as HsA.
      pose proof (size_remove A s HsA) as Hsz1. cbv zeta.
      destruct (decide (A ∖ {[s]} = ∅)) as [E|_].
      { rewrite E, size_empty in Hsz1. lia. }
      destruct (set_nth_is_Some (A ∖ {[s]}) (rng (S k))) as [d Hd].
      { specialize (Hr 1%nat ltac:(lia)). rewrite Nat.add_1_r in Hr. lia. }
      rewrite Hd. pose proof (set_nth_Some _ _ _ Hd) as HdA.
      pose proof (size_remove (A ∖ {[s]}) d HdA) as Hsz2.
      destruct (IH (S (S k)) (A ∖ {[s]} ∖ {[d]}) (flows ++ [(s, d)])) as (new & E & HF & HN & HL).
      { rewrite Hsz2, Hsz1. do 2 apply draws_in_range_S.
        by replace (S (S (size A - 1 - 1))) with (size A) by lia. }
      exists ((s, d) :: new). split_and!.
      * rewrite E, <- app_assoc. done.
      * constructor; [simpl; set_solver|].
        eapply Forall_impl; [exact HF|]. intros flow (H1 & H2 & H3). set_solver.
      * simpl. assert (Hin : ∀ x, x ∈ endpoints new → x ∈ A ∖ {[s]} ∖ {[d]}).
        { intros x. unfold endpoints. rewrite list_elem_of_In, in_flat_map.
          intros (flow & Hflow & Hx). apply list_elem_of_In in Hflow.
          rewrite Forall_forall in HF. destruct (HF flow Hflow) as (H1 & H2 & _).
          simpl in Hx. destruct Hx as [<-|[<-|[]]]; done. }
        apply NoDup_cons. split.
        { intros [->|H]%elem_of_cons; [set_solver|]. apply Hin in H. set_solver. }
        apply NoDup_cons. split; [|done].
        intros H. apply Hin in H. set_solver.
      * simpl length. rewrite HL, Hsz2, Hsz1.
        replace (size A - 1 - 1)%nat with (size A - 2)%nat by lia.
        rewrite half_minus_two by done.
        assert (1 ≤ size A / 2)%nat by (apply Nat.div_le_lower_bound; lia).
        lia.
Qed.

Lemma NoDup_u32_range (lo hi : N) : NoDup (u32_range lo hi).
Proof.
  unfold u32_range. apply NoDup_fmap_2; [intros x y; apply Nat2N.inj|]. apply NoDup_seq.
Qed.

Lemma elem_of_all_nodes (numNodes x : N) : x ∈ all_nodes numNodes ↔ x < numNodes.
Proof.
  unfold all_nodes. rewrite elem_of_list_to_set, elem_of_u32_range. lia.
Qed.

Lemma size_all_nodes (numNodes : N) : size (all_nodes numNodes) = N.to_nat numNodes.
Proof.
  unfold all_nodes. rewrite size_list_to_set by apply NoDup_u32_range.
  unfold u32_range. rewrite length_map, length_seq. lia.
Qed.

(** X24: when every random index is below the number of elements left,
    the set-up of [main] returns; the malicious nodes are
    [min(numBlackholes, numNodes)] nodes of the container; every flow
    joins two different nodes of the container that are not malicious, no
    node is an end point of two flows, and the number of flows is
    [min(numFlows, (numNodes - malicious) / 2)]. *)
Theorem X24_setup_selects (numNodes numFlows numBlackholes : N) (rngB rngF : nat → N) :
  draws_in_range rngB 0 (N.to_nat numNodes) →
  draws_in_range rngF 0
    (N.to_nat numNodes - Nat.min (N.to_nat numBlackholes) (N.to_nat numNodes)) →
  ∃ blackholeNodes activeFlows,
    setup numNodes numFlows numBlackholes rngB rngF = Some (blackholeNodes, activeFlows)
    ∧ (∀ x, x ∈ blackholeNodes → x < numNodes)
    ∧ size blackholeNodes = Nat.min (N.to_nat numBlackholes) (N.to_nat numNodes)
    ∧ Forall (fun flow => fst flow < numNodes ∧ snd flow < numNodes
                          ∧ (fst flow ∉ blackholeNodes) ∧ (snd flow ∉ blackholeNodes)
                          ∧ fst flow ≠ snd flow) activeFlows
    ∧ NoDup (endpoints activeFlows)
    ∧ length activeFlows
      = Nat.min (N.to_nat numFlows) ((N.to_nat numNodes - size blackholeNodes) / 2).
Proof.
  intros HrB HrF. unfold setup.
  destruct (select_blackholes_spec (N.to_nat numBlackholes) rngB 0 (all_nodes numNodes) ∅)
    as (B & EB & _ & HB & HsB).
  { by rewrite size_all_nodes. }
  { set_solver. }
  rewrite EB. rewrite size_empty, size_all_nodes in HsB. simpl in HsB.
  set (A := filter (fun i => i ∉ B) (all_nodes numNodes)).
  assert (HA : ∀ x, x ∈ A ↔ x < numNodes ∧ x ∉ B).
  { intros x. unfold A. rewrite elem_of_filter, elem_of_all_nodes. tauto. }
  assert (HBn : ∀ x, x ∈ B → x < numNodes).
  { intros x Hx. apply HB in Hx. apply elem_of_union in Hx as [Hx|Hx]; [set_solver|].
    by apply elem_of_all_nodes. }
  assert (HsA : size A = (N.to_nat numNodes - size B)%nat).
  { assert (E : A = all_nodes numNodes ∖ B).
    { apply set_eq. intros x. rewrite HA, elem_of_difference, elem_of_all_nodes. tauto. }
    rewrite E, size_difference, size_all_nodes; [done|].
    intros x Hx. apply elem_of_all_nodes. by apply HBn. }
  destruct (select_flows_spec (N.to_nat numFlows) rngF 0 A []) as (F & EF & HF & HN & HL).
  { by rewrite HsA, HsB. }
  rewrite EF. exists B, F. split_and!; [done|done|done| |done|by rewrite HL, HsA].
  eapply Forall_impl; [exact HF|]. intros flow (H1 & H2 & H3).
  apply HA in H1, H2. tauto.
Qed.

End Setup.

(** * Concrete runs *)

(** ** In binary64 *)

(** Scenario S5: five drops on one link. *)
Example trust_decay_curve :
  map (fun k => GetTrust
                  (snd (apply_calls (drop_calls 3 7 (repeat 0%float k))
                          (Globals_zero, BlockchainLedger_new))) 7 3)
      [0; 1; 2; 3; 4; 5]%nat
  = [1; 0.5; 0.3; 0.3; 0.3; 0.3]%float.
Proof. vm_compute. reflexivity. Qed.

(** Scenario S6: the observations 10, 10, 10, 40, as binary64 computes
    the moving average. *)
Example ema_smoothing :
  map (fun snrs => avg_snr_of
                     (snd (apply_calls
                             (map (fun s => {| c_src := 0; c_dst := 1; c_snr := s;
                                               c_isDrop := false; c_useBlockchain := true |})
                                  snrs)
                             (Globals_zero, BlockchainLedger_new))) 0 1)
      [[10]; [10; 10]; [10; 10; 10]; [10; 10; 10; 40]]%float
  = [3; 5.1; 6.569999999999999; 16.599]%float.
Proof. vm_compute. reflexivity. Qed.

Lemma C2_decay_curve_witness :
  GetTrust (BlockchainLedger_new (Ar:=binary64)) 0 1 = d1
  ∧ GetTrust (snd (apply_calls (drop_calls 0 1 [0; 0; 0]%float)
                     (Globals_zero, BlockchainLedger_new))) 0 1 = d0_3.
Proof.
  assert (H1 : GetTrust (BlockchainLedger_new (Ar:=binary64)) 0 1 = d1) by reflexivity.
  split; [exact H1|].
  destruct (C2_decay_curve 0 1 [0; 0; 0]%float Globals_zero BlockchainLedger_new H1)
    as (_ & Hfloor & _).
  apply Hfloor. simpl. lia.
Defined.

Lemma C6_baseline_immutability_witness :
  Forall (fun c => c_useBlockchain c = false) baseline_drops
  ∧ dltb d0 0%float = false
  ∧ fst (apply_calls baseline_drops (Globals_zero, BlockchainLedger_new)) = Globals_zero
  ∧ (∀ a b, GetTrust (snd (apply_calls baseline_drops (Globals_zero, BlockchainLedger_new)))
                     a b = d1)
  ∧ fst (UpdateMetric 0 1 0%float true false
           (Globals_zero, BlockchainLedger_new (Ar:=binary64))) = Globals_zero.
Proof.
  assert (H1 : Forall (fun c : Call float => c_useBlockchain c = false) baseline_drops)
    by (repeat constructor).
  assert (H2 : dltb d0 0%float = false) by reflexivity.
  destruct (C6_baseline_immutability baseline_drops Globals_zero 0 1 0%float
              Globals_zero BlockchainLedger_new H1 H2)
    as ((Hg & _ & _ & Ht) & (Hg2 & _)).
  split_and!; done.
Defined.

(** Scenario S1 after a heartbeat: the path from 0 to 2 goes through 1,
    whether or not node 1 is in the ground-truth set. *)
Example heartbeat_path :
  map (fun blackholes =>
         match run [EvHeartbeat] (Globals_zero, sim_context blackholes) with
         | Some (Returns w) => CalculatePath (routingEngine (snd w)) 0 2
         | _ => None
         end)
      [∅; {[1]}]
  = [Some [0; 1; 2]; Some [0; 1; 2]].
Proof. vm_compute. reflexivity. Qed.

(** Binary64 does overflow: 1.0 divided by the least positive number is
    infinity.  The weights of the simulation stay far from it: the
    callbacks report an SNR of 0.0 or of at least 5.0, and trust is not
    below 0.3. *)
Remark binary64_overflows : ¬ NoOverflow binary64.
Proof.
  intros [_ Hdiv _].
  specialize (Hdiv d1 0x1p-1074%float eq_refl eq_refl eq_refl).
  vm_compute in Hdiv. discriminate Hdiv.
Qed.


(** ** In exact arithmetic *)

#[local] Existing Instance exact_floor.

Example row_of_three_path :
  CalculatePath
    (BuildGraph row_of_three
       (snd (apply_calls one_drop
               (Globals_zero, BlockchainLedger_new)))
       (XFin 70) ∅ (XFin 20) context_engine) 0 2
  = Some [0; 1; 2].
Proof. vm_compute. reflexivity. Qed.

Lemma row_of_three_size : GetN row_of_three ≤ UINT32_MAX.
Proof. vm_compute. discriminate. Defined.

Lemma context_engine_sane (useBlockchain : bool) :
  sane_params (SetUseBlockchain useBlockchain context_engine).
Proof. repeat split. Defined.




(** ** The ground-truth set *)

Lemma C3_blackhole_set_noninterference_witness :
  world_agree (Globals_zero, sim_context {[1]}) (Globals_zero, sim_context ∅)
  ∧ ∃ w1 w2,
      run l3_drop_then_heartbeat (Globals_zero, sim_context {[1]}) = Some (Returns w1)
      ∧ run l3_drop_then_heartbeat (Globals_zero, sim_context ∅) = Some (Returns w2)
      ∧ g_routeSkips (fst w1) = 1 ∧ g_routeSkips (fst w2) = 0
      ∧ g_maliciousDrops (fst w1) = 2 ∧ g_maliciousDrops (fst w2) = 0
      ∧ ∀ a b, GetTrust (ledger (snd w1)) a b = GetTrust (ledger (snd w2)) a b.
Proof.
  assert (Hw : world_agree (Globals_zero, sim_context {[1]}) (Globals_zero, sim_context ∅))
    by (repeat split).
  split; [exact Hw|].
  destruct (C3_blackhole_set_noninterference l3_drop_then_heartbeat
              (Globals_zero, sim_context {[1]}) (Globals_zero, sim_context ∅)
              BlockchainLedger_new [] 70%float 20%float {[1]} ∅
              (RoutingEngine_new 1%float 500%float) Hw) as [Hrun _].
  destruct (run l3_drop_then_heartbeat (Globals_zero, sim_context {[1]}))
    as [[w1|e1]|] eqn:E1; [|vm_compute in E1; discriminate E1..].
  destruct (run l3_drop_then_heartbeat (Globals_zero, sim_context ∅))
    as [[w2|e2]|] eqn:E2; [|vm_compute in E2; discriminate E2..].
  exists w1, w2. destruct Hrun as (_ & Ht & _).
  split; [reflexivity|]. split; [reflexivity|].
  vm_compute in E1. injection E1 as <-. vm_compute in E2. injection E2 as <-.
  split; [reflexivity|]. split; [reflexivity|]. split; [reflexivity|].
  split; [reflexivity|]. exact Ht.
Defined.

(** ** Further runs *)

Lemma X4_trust_penalties_count_witness :
  g_trustPenalties Globals_zero < 2 ^ 64
  ∧ g_trustPenalties
      (fst (apply_calls two_penalised_drops (Globals_zero, BlockchainLedger_new))) = 2.
Proof.
  assert (H0 : g_trustPenalties Globals_zero < 2 ^ 64) by reflexivity.
  split; [exact H0|].
  pose proof (X4_trust_penalties_count two_penalised_drops
                (Globals_zero, BlockchainLedger_new) H0) as H.
  cbv zeta in H. destruct H as [H _]. rewrite H. reflexivity.
Defined.

Lemma X5_UpdateMetric_commute_witness :
  MakeKey 0 1 ≠ MakeKey 1 2
  ∧ UpdateMetric 0 1 10%float false true
      (UpdateMetric 1 2 0%float true true (Globals_zero, BlockchainLedger_new))
    = UpdateMetric 1 2 0%float true true
        (UpdateMetric 0 1 10%float false true (Globals_zero, BlockchainLedger_new)).
Proof.
  assert (H : MakeKey 0 1 ≠ MakeKey 1 2) by (vm_compute; discriminate).
  split; [exact H|].
  exact (X5_UpdateMetric_commute 0 1 1 2 10%float 0%float false true true true
           (Globals_zero, BlockchainLedger_new) H).
Defined.

Lemma X11_path_is_simple_witness :
  GetN row_of_three ≤ UINT32_MAX
  ∧ sane_params context_engine
  ∧ CalculatePath
      (BuildGraph row_of_three
         (snd (apply_calls one_drop (Globals_zero, BlockchainLedger_new)))
         (XFin 70) ∅ (XFin 20) context_engine) 0 2
    = Some [0; 1; 2]
  ∧ NoDup [0; 1; 2]
  ∧ (length [0; 1; 2] ≤ N.to_nat (GetN row_of_three))%nat.
Proof.
  split; [exact row_of_three_size|]. split; [exact (context_engine_sane true)|].
  split; [exact row_of_three_path|].
  pose proof (X11_path_is_simple (Ar:=exact_floor)
                (CL:=exact_CostLaws floor_sqrt) (WL:=exact_WeightLaws floor_sqrt)
                row_of_three one_drop Globals_zero (XFin 70) ∅ (XFin 20) context_engine
                0 2 [0; 1; 2] row_of_three_size (context_engine_sane true)
                row_of_three_path) as H.
  destruct H as (Hnd & _ & Hlen & _).
  split; [exact Hnd|exact Hlen].
Defined.

Lemma X12_path_to_self_witness :
  GetN row_of_three ≤ UINT32_MAX
  ∧ sane_params context_engine
  ∧ CalculatePath
      (BuildGraph row_of_three
         (snd (apply_calls one_drop (Globals_zero, BlockchainLedger_new)))
         (XFin 70) ∅ (XFin 20) context_engine) 1 1
    = Some [1].
Proof.
  split; [exact row_of_three_size|]. split; [exact (context_engine_sane true)|].
  pose proof (X12_path_to_self (Ar:=exact_floor)
                (CL:=exact_CostLaws floor_sqrt) (WL:=exact_WeightLaws floor_sqrt)
                row_of_three one_drop Globals_zero (XFin 70) ∅ (XFin 20) context_engine
                1 row_of_three_size (context_engine_sane true)) as H.
  cbv zeta in H. destruct H as [H _]. apply H.
  exists 0. apply (bool_decide_unpack _). vm_compute. exact I.
Defined.

Lemma X13_baseline_fewest_hops_witness :
  GetN row_of_three ≤ UINT32_MAX
  ∧ m_useBlockchain (SetUseBlockchain false context_engine) = false
  ∧ let e' := BuildGraph row_of_three BlockchainLedger_new (XFin 70) ∅ (XFin 20)
                (SetUseBlockchain false context_engine) in
    CalculatePath e' 0 2 = Some [0; 1; 2]
    ∧ ∀ q c, walk (m_graph e') (m_weights e') 0 2 q c → (3 ≤ length q)%nat.
Proof.
  split; [exact row_of_three_size|]. split; [reflexivity|].
  assert (Hret : CalculatePath
                   (BuildGraph row_of_three BlockchainLedger_new (XFin 70) ∅ (XFin 20)
                      (SetUseBlockchain false context_engine)) 0 2
                 = Some [0; 1; 2]) by (vm_compute; reflexivity).
  cbv zeta. split; [exact Hret|].
  pose proof (X13_baseline_fewest_hops floor_sqrt row_of_three BlockchainLedger_new
                (XFin 70) ∅ (XFin 20) (SetUseBlockchain false context_engine)
                0 2 [0; 1; 2] row_of_three_size eq_refl Hret) as H.
  cbv zeta in H. destruct H as [_ H]. exact H.
Defined.

Lemma X15_drop_raises_cost_witness :
  sane_params context_engine
  ∧ dle (edge_cost context_engine
           (snd (apply_calls one_drop (Globals_zero, BlockchainLedger_new)))
           (XFin 20) 0 1)
        (edge_cost context_engine
           (snd (apply_call (apply_calls one_drop (Globals_zero, BlockchainLedger_new))
                   (penalised_drop 0 1)))
           (XFin 20) 0 1).
Proof.
  split; [exact (context_engine_sane true)|].
  pose proof (X15_drop_raises_cost (Ar:=exact_floor)
                (CL:=exact_CostLaws floor_sqrt) (WL:=exact_WeightLaws floor_sqrt)
                (RL:=exact_RoundingLaws floor_sqrt)
                one_drop Globals_zero context_engine
                (XFin 20) 0 1 0 1 (context_engine_sane true)) as H.
  cbv zeta in H. destruct H as [H _]. exact H.
Defined.

Lemma X16_parse_node_context_witness :
  Forall (fun d => d < 10) [1; 2]
  ∧ [1; 2] ≠ ([] : list N)
  ∧ ParseNodeIdFromContext (node_context [1; 2] "DeviceList/0") = Returns 12.
Proof.
  assert (H : Forall (fun d => d < 10) [1; 2])
    by (constructor; [reflexivity|]; constructor; [reflexivity|]; constructor).
  assert (Hne : [1; 2] ≠ ([] : list N)) by discriminate.
  split; [exact H|]. split; [exact Hne|].
  rewrite (X16_parse_node_context [1; 2] "DeviceList/0" H Hne). reflexivity.
Defined.

Lemma X17_invalid_event_ignored_witness :
  (index 0 "/NodeList/" unknown_node_context = None
   ∨ ∃ id, ParseNodeIdFromContext unknown_node_context = Returns id
           ∧ (id = UINT32_MAX ∨ GetN (nodes (sim_context ∅)) ≤ id))
  ∧ PhyRxDropCallback unknown_node_context (Globals_zero, sim_context ∅)
    = Returns (Globals_zero, sim_context ∅).
Proof.
  assert (H : index 0 "/NodeList/" unknown_node_context = None
              ∨ ∃ id, ParseNodeIdFromContext unknown_node_context = Returns id
                      ∧ (id = UINT32_MAX ∨ GetN (nodes (sim_context ∅)) ≤ id)).
  { right. exists 7. split; [vm_compute; reflexivity|]. right. vm_compute. discriminate. }
  split; [exact H|].
  destruct (X17_invalid_event_ignored unknown_node_context 0
              (Globals_zero, sim_context ∅) H) as (_ & Hdrop & _).
  exact Hdrop.
Defined.

Lemma X18_run_frame_witness :
  ∃ w', run l3_drop_then_heartbeat (Globals_zero, sim_context {[1]}) = Some (Returns w')
        ∧ activeFlows (snd w') = [(0, 2)]
        ∧ blackholeNodes (snd w') = {[1]}
        ∧ nodes (snd w') = nodes (sim_context {[1]}).
Proof.
  destruct (run l3_drop_then_heartbeat (Globals_zero, sim_context {[1]}))
    as [[w'|e]|] eqn:E; [|vm_compute in E; discriminate E..].
  exists w'. split; [reflexivity|].
  destruct (X18_run_frame l3_drop_then_heartbeat (Globals_zero, sim_context {[1]}) w' E)
    as ((_ & Hf & Hb & _) & _ & Hn).
  split; [exact Hf|]. split; [exact Hb|]. apply Hn. reflexivity.
Defined.

Lemma X19_ledger_evolution_witness :
  ∃ w' calls,
    run l3_drop_then_heartbeat (Globals_zero, sim_context {[1]}) = Some (Returns w')
    ∧ Forall (callback_call true) calls
    ∧ ledger (snd w') = snd (apply_calls calls (Globals_zero, BlockchainLedger_new)).
Proof.
  destruct (run l3_drop_then_heartbeat (Globals_zero, sim_context {[1]}))
    as [[w'|e]|] eqn:E; [|vm_compute in E; discriminate E..].
  destruct (X19_ledger_evolution l3_drop_then_heartbeat (Globals_zero, sim_context {[1]})
              w' E) as (calls & Hc & Hl & _).
  exists w', calls. split; [reflexivity|]. split; [exact Hc|exact Hl].
Defined.

Lemma X20_reachable_worlds_witness :
  ledger (sim_context {[1]}) = BlockchainLedger_new
  ∧ ∃ w', run l3_drop_then_heartbeat (Globals_zero, sim_context {[1]}) = Some (Returns w')
          ∧ ∀ n, IsBlackhole (ledger (snd w')) n = false.
Proof.
  split; [reflexivity|].
  destruct (run l3_drop_then_heartbeat (Globals_zero, sim_context {[1]}))
    as [[w'|e]|] eqn:E; [|vm_compute in E; discriminate E..].
  exists w'. split; [reflexivity|].
  destruct (X20_reachable_worlds l3_drop_then_heartbeat (Globals_zero, sim_context {[1]})
              w' eq_refl E) as (_ & Hb & _).
  exact Hb.
Defined.

Lemma X21_reception_never_penalises_witness :
  ∃ w', PhyRxEndCallback node_2_rx_context (Globals_zero, sim_context ∅) = Returns w'
        ∧ fst w' = Globals_zero
        ∧ same_but_ledger (sim_context ∅) (snd w').
Proof.
  destruct (PhyRxEndCallback node_2_rx_context (Globals_zero, sim_context ∅))
    as [w'|e] eqn:E; [|vm_compute in E; discriminate E].
  exists w'. split; [reflexivity|].
  destruct (X21_reception_never_penalises node_2_rx_context (Globals_zero, sim_context ∅)
              w' E) as (Hg & Hs & _).
  split; [exact Hg|exact Hs].
Defined.

Lemma X22_drop_keeps_snr_witness :
  is_reception l3_drop_at_1 = false
  ∧ ∃ w', deliver l3_drop_at_1 (Globals_zero, sim_context {[1]}) = Some (Returns w')
          ∧ ∀ a b, GetSnr (ledger (snd w')) a b = GetSnr (ledger (sim_context {[1]})) a b.
Proof.
  split; [reflexivity|].
  destruct (deliver l3_drop_at_1 (Globals_zero, sim_context {[1]}))
    as [[w'|e]|] eqn:E; [|vm_compute in E; discriminate E..].
  exists w'. split; [reflexivity|].
  intros a b.
  destruct (X22_drop_keeps_snr l3_drop_at_1 (Globals_zero, sim_context {[1]}) w'
              eq_refl E a b) as [_ H].
  exact H.
Defined.

Lemma X23_heartbeat_counts_witness :
  GetN (nodes (exact_context {[1]})) ≤ UINT32_MAX
  ∧ GetN (nodes (exact_context {[1]}))
    ≤ N.of_nat (length (ipv4Interfaces (exact_context {[1]})))
  ∧ sane_params (routingEngine (exact_context {[1]}))
  ∧ ledger_ok (ledger (exact_context {[1]}))
  ∧ ∃ w', SimulationHeartbeat (Globals_zero, exact_context {[1]}) = Some w'
          ∧ g_trustPenalties (fst w') = 0
          ∧ g_routeSkips (fst w') = 1
          ∧ g_maliciousDrops (fst w') = 1.
Proof.
  assert (Hl : ledger_ok (ledger (exact_context {[1]})))
    by exact (apply_calls_ledger_ok (Ar:=exact_floor) (WL:=exact_WeightLaws floor_sqrt)
                [] Globals_zero).
  assert (Ha : GetN (nodes (exact_context {[1]}))
               ≤ N.of_nat (length (ipv4Interfaces (exact_context {[1]}))))
    by (vm_compute; discriminate).
  split; [exact row_of_three_size|]. split; [exact Ha|].
  split; [exact (context_engine_sane true)|]. split; [exact Hl|].
  destruct (X23_heartbeat_counts (Ar:=exact_floor)
              (CL:=exact_CostLaws floor_sqrt) (WL:=exact_WeightLaws floor_sqrt)
              (Globals_zero, exact_context {[1]})
              row_of_three_size Ha (context_engine_sane true) Hl)
    as (paths & w' & Hret & _ & _ & H).
  cbv zeta in H. destruct H as (_ & _ & _ & _ & _ & Htp & _).
  exists w'. split; [exact Hret|]. split; [exact Htp|].
  vm_compute in Hret. injection Hret as <-. split; reflexivity.
Defined.

Lemma X24_setup_selects_witness :
  draws_in_range (fun _ => 0) 0 (N.to_nat 5)
  ∧ draws_in_range (fun _ => 0) 0
      (N.to_nat 5 - Nat.min (N.to_nat 1) (N.to_nat 5))
  ∧ ∃ blackholeNodes activeFlows,
      setup 5 2 1 (fun _ => 0) (fun _ => 0) = Some (blackholeNodes, activeFlows)
      ∧ size blackholeNodes = 1%nat
      ∧ NoDup (endpoints activeFlows).
Proof.
  assert (HB : draws_in_range (fun _ => 0) 0 (N.to_nat 5))
    by (intros j Hj; simpl in *; lia).
  assert (HF : draws_in_range (fun _ => 0) 0
                 (N.to_nat 5 - Nat.min (N.to_nat 1) (N.to_nat 5)))
    by (intros j Hj; simpl in *; lia).
  split; [exact HB|]. split; [exact HF|].
  destruct (X24_setup_selects 5 2 1 (fun _ => 0) (fun _ => 0) HB HF)
    as (blackholeNodes & activeFlows & Hret & _ & Hsize & _ & Hnd & _).
  exists blackholeNodes, activeFlows.
  split; [exact Hret|]. split; [exact Hsize|exact Hnd].
Defined.
